(** * A worker pool that returns results in submission order

    Shallow embedding of the [se_solver] program:

    - [Solver] embeds [square_solver.cpp]: the job function
      [calculate_square_roots], with [std::stoi], the [try]/[catch] block,
      binary64 arithmetic (Rocq's primitive floats) and the ["%.6g"]
      conversion of [snprintf].
    - [Pool] embeds [worker_pool.hpp] and [worker_pool.cpp]: the pool's
      state (both queues, both mutexes, both condition variables, the
      promise/future shared states, the stop flags) and one transition per
      statement that another thread can observe, for the producer
      ([set_job]), the consumer ([get_answer]), every worker
      ([Worker::operator()]) and the owner ([stop], [~WorkerPool],
      [~Worker]).  A schedule is a list of events; [run] executes it.
    - [Main] embeds [main.cpp] with [SafeCout]: the main thread reading
      words from the standard input and submitting a job for every three
      of them, and the printer thread writing the answers to the standard
      output. *)

From Stdlib Require Import ZArith Floats Lia Ascii String.
From stdpp Require Import base list strings.

(** ** square_solver.cpp *)

Module Solver.

Local Open Scope Z_scope.

(** The exceptions [std::stoi] throws. *)
Inductive exception : Type :=
  | invalid_argument
  | out_of_range.

(** A computation that returns a value or throws.  Failures of memory
    allocation are not modelled. *)
Inductive throws (A : Type) : Type :=
  | Return (a : A)
  | Throw (e : exception).
Arguments Return {A} a.
Arguments Throw {A} e.

#[global] Instance throws_ret : MRet throws := fun A a => Return a.
#[global] Instance throws_bind : MBind throws := fun A B k m =>
  match m with
  | Return a => k a
  | Throw e => Throw e
  end.

(** [try { body } catch (invalid_argument&) {..} catch (out_of_range&) {..}] *)
Definition try_catch {A B : Type} (body : throws A)
    (handler : exception → option (throws B)) (rest : A → throws B) : throws B :=
  match body with
  | Return a => rest a
  | Throw e =>
      match handler e with
      | Some r => r
      | None => Throw e
      end
  end.

(** *** Strings as C sees them *)

Definition NUL : ascii := Ascii.ascii_of_nat 0.

(** [s.c_str()] read as a C string: the bytes before the first NUL. *)
Fixpoint c_string (s : string) : string :=
  match s with
  | EmptyString => EmptyString
  | String c rest =>
      if Ascii.eqb c NUL then EmptyString else String c (c_string rest)
  end.

(** [n] NUL bytes: what [std::string::resize] appends. *)
Fixpoint nuls (n : nat) : string :=
  match n with
  | O => EmptyString
  | S k => String NUL (nuls k)
  end.

Fixpoint take_str (n : nat) (s : string) : string :=
  match n, s with
  | S k, String c rest => String c (take_str k rest)
  | _, _ => EmptyString
  end.

Fixpoint drop_str (n : nat) (s : string) : string :=
  match n, s with
  | S k, String _ rest => drop_str k rest
  | _, _ => s
  end.

(** [s.resize(n)]: truncate, or pad with NUL bytes. *)
Definition resize (s : string) (n : nat) : string :=
  take_str n s +:+ nuls (n - String.length s).

(** [snprintf(buf, cap, ...)] where the conversions produce [out] and [buf]
    holds [cap] bytes: at most [cap - 1] bytes of [out] are stored, then a
    NUL; the bytes after it stay.  The result is the buffer and the return
    value of [snprintf], the length of [out]. *)
Definition snprintf (buf : string) (cap : nat) (out : string) : string * nat :=
  match cap with
  | O => (buf, String.length out)
  | S room =>
      let stored := take_str room out +:+ String NUL EmptyString in
      (stored +:+ drop_str (String.length stored) buf, String.length out)
  end.

(** *** std::stoi *)

Definition INT_MIN : Z := - 2 ^ 31.
Definition INT_MAX : Z := 2 ^ 31 - 1.

(** [isspace] in the C locale. *)
Definition isspace (c : ascii) : bool :=
  let n := Z.of_nat (Ascii.nat_of_ascii c) in
  (n =? 32) || ((9 <=? n) && (n <=? 13)).

Definition digit_value (c : ascii) : option Z :=
  let n := Z.of_nat (Ascii.nat_of_ascii c) in
  if (48 <=? n) && (n <=? 57) then Some (n - 48) else None.

Fixpoint skip_spaces (s : string) : string :=
  match s with
  | String c rest => if isspace c then skip_spaces rest else s
  | EmptyString => s
  end.

(** The decimal digits at the front of [s]: their value on top of [acc],
    and how many there are. *)
Fixpoint read_digits (s : string) (acc : Z) (count : nat) : Z * nat :=
  match s with
  | String c rest =>
      match digit_value c with
      | Some d => read_digits rest (10 * acc + d) (S count)
      | None => (acc, count)
      end
  | EmptyString => (acc, count)
  end.

(** [strtol(str, &end, 10)] before any range check: the value read, or
    [None] when no conversion was performed ([end == str]). *)
Definition strtol10 (s : string) : option Z :=
  let s1 := skip_spaces s in
  let '(negative, s2) :=
    match s1 with
    | String "-" rest => (true, rest)
    | String "+" rest => (false, rest)
    | _ => (false, s1)
    end in
  let '(v, count) := read_digits s2 0 O in
  match count with
  | O => None
  | S _ => Some (if negative then - v else v)
  end.

(** [std::stoi(str)]: [invalid_argument] when nothing was converted,
    [out_of_range] when the value is no [int]. *)
Definition stoi (str : string) : throws Z :=
  match strtol10 (c_string str) with
  | None => Throw invalid_argument
  | Some v =>
      if (v <? INT_MIN) || (INT_MAX <? v) then Throw out_of_range else Return v
  end.

(** *** Arithmetic on [int] and [double] *)

(** A value reduced to the range of [int] (two's complement). *)
Definition wrap_int (z : Z) : Z := (z + 2 ^ 31) mod 2 ^ 32 - 2 ^ 31.

(** [-b] on [int]. *)
Definition int_neg (b : Z) : Z := wrap_int (- b).

(** [static_cast<double>(i)] for an [int]: exact. *)
Definition to_double (i : Z) : float :=
  if i <? 0 then PrimFloat.opp (PrimFloat.of_uint63 (Uint63.of_Z (- i)))
  else PrimFloat.of_uint63 (Uint63.of_Z i).

(** The [double] nearest to [1e-7]. *)
Definition epsilon : float := 0x1.ad7f29abcaf48p-24%float.

Definition decorate_float (num : float) : float :=
  if PrimFloat.ltb (PrimFloat.abs num) epsilon then 0%float else num.

(** *** The ["%.6g"] conversion

    A finite non-zero [double] is [m * 2 ^ e] for integers [m > 0] and [e].
    The conversion rounds the exact value to six significant decimal digits
    (to nearest, ties to even), uses the exponent [x] of that rounding to
    choose between fixed and exponent notation, and removes trailing zeros. *)

(** [m * 2 ^ e / 10 ^ k] as a fraction of two positive integers. *)
Definition scaled (m e k : Z) : Z * Z :=
  (m * 2 ^ Z.max e 0 * 10 ^ Z.max (- k) 0, 2 ^ Z.max (- e) 0 * 10 ^ Z.max k 0).

(** The largest [k' <= k] with [10 ^ k' <= m * 2 ^ e], looked for among the
    [fuel] exponents from [k] downwards. *)
Fixpoint decimal_exponent (fuel : nat) (m e k : Z) : Z :=
  match fuel with
  | O => k
  | S f =>
      let '(n, d) := scaled m e k in
      if d <=? n then k else decimal_exponent f m e (k - 1)
  end.

Definition round_half_even (n d : Z) : Z :=
  let q := n / d in
  let r := n mod d in
  if (d <? 2 * r) || ((2 * r =? d) && Z.odd q) then q + 1 else q.

(** The six significant digits as an integer of [10^5 .. 10^6 - 1], and the
    decimal exponent of the first one.  A finite non-zero [double] lies
    between [10 ^ -324] and [10 ^ 309]. *)
Definition significant6 (m e : Z) : Z * Z :=
  let x0 := decimal_exponent 640 m e 308 in
  let '(n, d) := scaled m e (x0 - 5) in
  let r := round_half_even n d in
  if r =? 10 ^ 6 then (10 ^ 5, x0 + 1) else (r, x0).

(** The last [n] decimal digits of [v], most significant first. *)
Fixpoint digits_of (n : nat) (v : Z) : list Z :=
  match n with
  | O => []
  | S k => digits_of k (v / 10) ++ [v mod 10]
  end.

(** Without its trailing zeros. *)
Definition strip_zeros (ds : list Z) : list Z :=
  foldr (fun d kept =>
           match kept with
           | [] => if d =? 0 then [] else [d]
           | _ => d :: kept
           end) [] ds.

Definition digit_char (d : Z) : ascii := Ascii.ascii_of_nat (48 + Z.to_nat d).

Definition chars (ds : list Z) : string :=
  foldr (fun d s => String (digit_char d) s) EmptyString ds.

Definition with_fraction (int_part frac_part : list Z) : string :=
  match frac_part with
  | [] => chars int_part
  | _ => chars int_part +:+ "." +:+ chars frac_part
  end.

Definition format_finite (negative : bool) (m e : Z) : string :=
  let '(n, x) := significant6 m e in
  let ds := digits_of 6 n in
  let sign := if negative then "-" else "" in
  if (-4 <=? x) && (x <? 6) then
    if 0 <=? x then
      sign +:+ with_fraction (take (Z.to_nat x + 1) ds)
                             (strip_zeros (drop (Z.to_nat x + 1) ds))
    else
      sign +:+ with_fraction [0]
                 (replicate (Z.to_nat (- x - 1)) 0 ++ strip_zeros ds)
  else
    sign +:+ with_fraction (take 1 ds) (strip_zeros (drop 1 ds))
         +:+ "e" +:+ (if x <? 0 then "-" else "+")
         +:+ chars (digits_of (if Z.abs x <? 100 then 2 else 3) (Z.abs x)).

(** [snprintf]'s ["%.6g"] of a [double].  The sign of a NaN is not part of
    a primitive float; [calculate_square_roots] produces no NaN. *)
Definition format_g (x : float) : string :=
  match Prim2SF x with
  | S754_zero s => if s then "-0" else "0"
  | S754_infinity s => if s then "-inf" else "inf"
  | S754_nan => "nan"
  | S754_finite s m e => format_finite s (Z.pos m) e
  end.

(** *** calculate_square_roots *)

(** [snprintf(format_buf, sizeof(format_buf), ...)] followed by
    [answer.append(format_buf)]: what is appended is the C string the
    30-byte buffer holds. *)
Definition printed (out : string) : string :=
  c_string (fst (snprintf (nuls 30) 30 out)).

(** Lines 38-73: the branches on the parsed coefficients. *)
Definition solve (answer : string) (a b c : Z) : string :=
  if a =? 0 then
    (* linear equation *)
    if b =? 0 then
      (* any X is a solution of equation *)
      answer +:+ "(x ∈ R)"
    else if c =? 0 then
      answer +:+ "(0)"
    else
      let x := (to_double b / to_double c)%float in
      answer +:+ printed ("(" +:+ format_g (decorate_float x) +:+ ")")
  else
    (* square equation *)
    let d := (to_double b * to_double b - 4 * to_double a * to_double c)%float in
    let answer :=
      if (d <? - epsilon)%float then
        answer +:+ "no roots"
      else if (PrimFloat.abs d <? epsilon)%float then
        let x := (to_double (int_neg b) / (2 * to_double a))%float in
        answer +:+ printed ("(" +:+ format_g (decorate_float x) +:+ ")")
      else
        let d_sqrt := PrimFloat.sqrt d in
        let b_sign := if b <? 0 then -1 else 1 in
        let temp := (-0.5 * (to_double b + to_double b_sign * d_sqrt))%float in
        let x1 := (to_double c / temp)%float in
        let x2 := (temp / to_double a)%float in
        answer +:+ printed ("(" +:+ format_g (decorate_float x1) +:+ " "
                                +:+ format_g (decorate_float x2) +:+ ")") in
    let x_extremum := (to_double (int_neg b) / (2 * to_double a))%float in
    answer +:+ printed (" X" +:+ (if 0 <? a then "min" else "max") +:+ "="
                             +:+ format_g (decorate_float x_extremum)).

(** Lines 15-18: the echo of the three arguments. *)
Definition echo (a_str b_str c_str : string) : string :=
  let answer :=
    resize EmptyString
      (String.length a_str + String.length b_str + String.length c_str + 10) in
  let '(answer, size) :=
    snprintf answer (String.length answer)
      ("(" +:+ c_string a_str +:+ " " +:+ c_string b_str +:+ " "
           +:+ c_string c_str +:+ ") => ") in
  resize answer size.

(** The text the two [catch] clauses append. *)
Definition failure_text (e : exception) : string :=
  match e with
  | invalid_argument => "invalid argument"
  | out_of_range => "out of range"
  end.

Definition calculate_square_roots (a_str b_str c_str : string) : throws string :=
  let answer := echo a_str b_str c_str in
  try_catch
    (a ← stoi a_str; b ← stoi b_str; c ← stoi c_str; mret (a, b, c))
    (fun e =>
       match e with
       | invalid_argument => Some (Return (answer +:+ "invalid argument"))
       | out_of_range => Some (Return (answer +:+ "out of range"))
       end)
    (fun '(a, b, c) => Return (solve answer a b c)).

End Solver.

(** ** Texts: what the properties of the job function speak of *)

Module Text.


Import Solver.

Local Open Scope Z_scope.

(** A string without a NUL byte: as a C string it is itself. *)
Definition no_nul (s : string) : Prop := c_string s = s.

Definition decimal_digit (d : Z) : Prop := 0 <= d <= 9.

(** The number a list of decimal digits denotes. *)
Definition value_of (ds : list Z) : Z := foldl (fun acc d => 10 * acc + d) 0 ds.

Fixpoint all_spaces (s : string) : bool :=
  match s with
  | EmptyString => true
  | String c rest => isspace c && all_spaces rest
  end.

(** The text does not go on with a digit. *)
Definition no_digit_ahead (s : string) : bool :=
  match s with
  | EmptyString => true
  | String c _ => bool_decide (digit_value c = None)
  end.

End Text.

(** ** worker_pool.hpp, worker_pool.cpp *)

Module Pool.

Import Solver.

(** What the model takes from C++: the loads and stores of the atomic flags
    are single steps in one total order (their default ordering); a mutex
    has at most one holder; [wait(l)] releases the mutex and blocks in one
    step, and a blocked thread leaves it by a notification or spuriously;
    the statements between a lock and the next unlock or wait that touch
    only what the mutex protects are one step.  A statement that would be
    undefined ([front()] of an empty queue) or would end the program (an
    exception leaving a thread) is no step: the step functions return
    [None] there, as they do where a thread has to wait. *)

(** *** Jobs *)

Definition JobResult : Type := string.
Definition JobArgs : Type := string * string * string.
(** [std::function<JobResult(std::string, std::string, std::string)>]; the
    callee may throw. *)
Definition JobFunc : Type := string → string → string → throws JobResult.

(** A [std::promise] and the [std::future] obtained from it refer to one
    shared state; both are the index of that state in [shared] below. *)
Definition promise_t : Type := nat.
Definition future_t : Type := nat.

Definition JobRequest : Type := JobFunc * JobArgs * promise_t.

Definition func (request : JobRequest) : JobFunc := request.1.1.
Definition args (request : JobRequest) : JobArgs := request.1.2.
Definition promise (request : JobRequest) : promise_t := request.2.

(** [std::apply(func, args)] *)
Definition apply (f : JobFunc) (a : JobArgs) : throws JobResult :=
  f a.1.1 a.1.2 a.2.

(** *** Threads and where each of them stands *)

Inductive thread : Type :=
  | Producer
  | Consumer
  | Owner
  | WorkerThread (w : nat).

(** [Worker::operator()], worker_pool.cpp lines 56-75. *)
Inductive worker_pc : Type :=
  | WLock                          (* 57: about to lock the jobs mutex *)
  | WWait                          (* 59: holds the mutex, tests the predicate *)
  | WSleep                         (* 59: predicate false, about to wait(l) *)
  | WBlocked                       (* 59: inside wait(l), mutex released *)
  | WWoken                         (* 59: notified, about to lock again *)
  | WCheck                         (* 61: predicate true, holds the mutex *)
  | WUnlock (job : JobRequest)     (* 72: job moved out and popped *)
  | WApply (job : JobRequest)      (* 74: std::apply(func, args) *)
  | WSetValue (p : promise_t) (v : JobResult)   (* 74: promise.set_value *)
  | WExited.                       (* 62: break, the thread function returned *)

Record Worker : Type := {
  Worker_stop_flag : bool;
  Worker_pc : worker_pc;
}.

(** [WorkerPool::set_job], worker_pool.cpp lines 21-36. *)
Inductive producer_pc : Type :=
  | PIdle
  | PLockResults (request : JobRequest)    (* 26 *)
  | PPushResult (request : JobRequest)     (* 27, and 28 unlocks *)
  | PNotifyResults (request : JobRequest)  (* 29 *)
  | PLockJobs (request : JobRequest)       (* 32 *)
  | PPushJob (request : JobRequest)        (* 33, and 34 unlocks *)
  | PNotifyJobs (request : JobRequest).    (* 35 *)

(** [WorkerPool::get_answer], worker_pool.cpp lines 38-49. *)
Inductive consumer_pc : Type :=
  | CIdle
  | CLock                          (* 42 *)
  | CWait                          (* 43: holds the mutex, tests the predicate *)
  | CSleep                         (* 43: predicate false, about to wait(l) *)
  | CBlocked                       (* 43: inside wait(l), mutex released *)
  | CWoken                         (* 43: notified, about to lock again *)
  | CCheck                         (* 44 *)
  | CGet (result : future_t).      (* 48: result.get() *)

(** [WorkerPool::stop], [~WorkerPool] and the [~Worker] of each element of
    [workers], worker_pool.hpp lines 218-221, 191-194 and 98-102. *)
Inductive owner_pc : Type :=
  | OIdle
  | OStopNotify                    (* 220: after the store of line 219 *)
  | ODtorStop (i : nat)            (* 192: w->stop() of workers[i]; 193 after the last *)
  | ODtorJoin (i : nat)            (* 100: thread.join() of workers[i] *)
  | ODestroyed.

(** *** The pool *)

Record WorkerPool : Type := {
  results : list future_t;
  jobs : list JobRequest;
  m_jobs : option thread;
  m_results : option thread;
  workers : list Worker;
  stop_flag : bool;
  (** the shared state of every promise created so far: [None] until
      [set_value] *)
  shared : list (option JobResult);
  producer : producer_pc;
  consumer : consumer_pc;
  owner : owner_pc;
  (** history: the arguments of every [set_job] call and the value every
      [get_answer] call returned, in call order *)
  submitted : list (JobFunc * JobArgs);
  answers : list (option JobResult);
}.

Definition set_results (v : list future_t) (s : WorkerPool) : WorkerPool :=
  {| results := v; jobs := jobs s; m_jobs := m_jobs s; m_results := m_results s;
     workers := workers s; stop_flag := stop_flag s; shared := shared s;
     producer := producer s; consumer := consumer s; owner := owner s;
     submitted := submitted s; answers := answers s |}.
Definition set_jobs (v : list JobRequest) (s : WorkerPool) : WorkerPool :=
  {| results := results s; jobs := v; m_jobs := m_jobs s; m_results := m_results s;
     workers := workers s; stop_flag := stop_flag s; shared := shared s;
     producer := producer s; consumer := consumer s; owner := owner s;
     submitted := submitted s; answers := answers s |}.
Definition set_m_jobs (v : option thread) (s : WorkerPool) : WorkerPool :=
  {| results := results s; jobs := jobs s; m_jobs := v; m_results := m_results s;
     workers := workers s; stop_flag := stop_flag s; shared := shared s;
     producer := producer s; consumer := consumer s; owner := owner s;
     submitted := submitted s; answers := answers s |}.
Definition set_m_results (v : option thread) (s : WorkerPool) : WorkerPool :=
  {| results := results s; jobs := jobs s; m_jobs := m_jobs s; m_results := v;
     workers := workers s; stop_flag := stop_flag s; shared := shared s;
     producer := producer s; consumer := consumer s; owner := owner s;
     submitted := submitted s; answers := answers s |}.
Definition set_workers (v : list Worker) (s : WorkerPool) : WorkerPool :=
  {| results := results s; jobs := jobs s; m_jobs := m_jobs s; m_results := m_results s;
     workers := v; stop_flag := stop_flag s; shared := shared s;
     producer := producer s; consumer := consumer s; owner := owner s;
     submitted := submitted s; answers := answers s |}.
Definition set_stop_flag (v : bool) (s : WorkerPool) : WorkerPool :=
  {| results := results s; jobs := jobs s; m_jobs := m_jobs s; m_results := m_results s;
     workers := workers s; stop_flag := v; shared := shared s;
     producer := producer s; consumer := consumer s; owner := owner s;
     submitted := submitted s; answers := answers s |}.
Definition set_shared (v : list (option JobResult)) (s : WorkerPool) : WorkerPool :=
  {| results := results s; jobs := jobs s; m_jobs := m_jobs s; m_results := m_results s;
     workers := workers s; stop_flag := stop_flag s; shared := v;
     producer := producer s; consumer := consumer s; owner := owner s;
     submitted := submitted s; answers := answers s |}.
Definition set_producer (v : producer_pc) (s : WorkerPool) : WorkerPool :=
  {| results := results s; jobs := jobs s; m_jobs := m_jobs s; m_results := m_results s;
     workers := workers s; stop_flag := stop_flag s; shared := shared s;
     producer := v; consumer := consumer s; owner := owner s;
     submitted := submitted s; answers := answers s |}.
Definition set_consumer (v : consumer_pc) (s : WorkerPool) : WorkerPool :=
  {| results := results s; jobs := jobs s; m_jobs := m_jobs s; m_results := m_results s;
     workers := workers s; stop_flag := stop_flag s; shared := shared s;
     producer := producer s; consumer := v; owner := owner s;
     submitted := submitted s; answers := answers s |}.
Definition set_owner (v : owner_pc) (s : WorkerPool) : WorkerPool :=
  {| results := results s; jobs := jobs s; m_jobs := m_jobs s; m_results := m_results s;
     workers := workers s; stop_flag := stop_flag s; shared := shared s;
     producer := producer s; consumer := consumer s; owner := v;
     submitted := submitted s; answers := answers s |}.
Definition set_submitted (v : list (JobFunc * JobArgs)) (s : WorkerPool) : WorkerPool :=
  {| results := results s; jobs := jobs s; m_jobs := m_jobs s; m_results := m_results s;
     workers := workers s; stop_flag := stop_flag s; shared := shared s;
     producer := producer s; consumer := consumer s; owner := owner s;
     submitted := v; answers := answers s |}.
Definition set_answers (v : list (option JobResult)) (s : WorkerPool) : WorkerPool :=
  {| results := results s; jobs := jobs s; m_jobs := m_jobs s; m_results := m_results s;
     workers := workers s; stop_flag := stop_flag s; shared := shared s;
     producer := producer s; consumer := consumer s; owner := owner s;
     submitted := submitted s; answers := v |}.

Definition set_Worker_pc (pc : worker_pc) (wk : Worker) : Worker :=
  {| Worker_stop_flag := Worker_stop_flag wk; Worker_pc := pc |}.

(** [Worker::stop], worker_pool.hpp line 84. *)
Definition Worker_stop (wk : Worker) : Worker :=
  {| Worker_stop_flag := true; Worker_pc := Worker_pc wk |}.

(** [Worker::Worker]: the thread starts at the top of the loop. *)
Definition Worker_new : Worker :=
  {| Worker_stop_flag := false; Worker_pc := WLock |}.

(** [std::thread::hardware_concurrency()] is the host's; the static member
    [WorkerPool::nthreads] (worker_pool.cpp line 18) is initialised with it. *)
Definition nthreads (hardware_concurrency : nat) : nat := hardware_concurrency.

(** [WorkerPool::WorkerPool(unsigned num_threads)], worker_pool.hpp lines
    175-182. *)
Definition WorkerPool_new (num_threads : nat) : WorkerPool :=
  {| results := []; jobs := []; m_jobs := None; m_results := None;
     workers := replicate num_threads Worker_new;
     stop_flag := false; shared := [];
     producer := PIdle; consumer := CIdle; owner := OIdle;
     submitted := []; answers := [] |}.

(** The constructor with its default argument [num_threads = nthreads]:
    [None] stands for a call that passes no count. *)
Definition WorkerPool_ctor (hardware_concurrency : nat)
    (num_threads : option nat) : WorkerPool :=
  WorkerPool_new (default (nthreads hardware_concurrency) num_threads).

(** [unsigned] arithmetic is modulo [2 ^ 32]. *)
Definition unsigned_sub (a b : nat) : nat :=
  Z.to_nat ((Z.of_nat a - Z.of_nat b) mod 2 ^ 32).

(** The pool of [main] (main.cpp line 33):
    [WorkerPool worker_pool(WorkerPool::nthreads - 2)]. *)
Definition main_pool (hardware_concurrency : nat) : WorkerPool :=
  WorkerPool_ctor hardware_concurrency
    (Some (unsigned_sub (nthreads hardware_concurrency) 2)).

(** *** Mutexes and condition variables *)

(** [lock()] by thread [t]: possible only while nobody holds the mutex. *)
Definition acquire (m : option thread) (t : thread) : option (option thread) :=
  match m with
  | None => Some (Some t)
  | Some _ => None
  end.

(** A thread inside [wait(l)] that is notified leaves the wait set. *)
Definition notified (pc : worker_pc) : worker_pc :=
  match pc with
  | WBlocked => WWoken
  | _ => pc
  end.

Definition consumer_notified (pc : consumer_pc) : consumer_pc :=
  match pc with
  | CBlocked => CWoken
  | _ => pc
  end.

Definition is_blocked (wk : Worker) : bool :=
  match Worker_pc wk with
  | WBlocked => true
  | _ => false
  end.

(** [cv_jobs.notify_one()]: one of the workers inside [wait(l)] is woken,
    which one is the scheduler's [pick]; with nobody waiting nothing
    happens.  [None]: [pick] is not waiting although some worker is. *)
Definition notify_one_jobs (pick : nat) (ws : list Worker) : option (list Worker) :=
  match ws !! pick with
  | Some wk =>
      if is_blocked wk then Some (<[pick := set_Worker_pc WWoken wk]> ws)
      else if existsb is_blocked ws then None else Some ws
  | None => if existsb is_blocked ws then None else Some ws
  end.

(** [cv_jobs.notify_all()] *)
Definition notify_all_jobs (ws : list Worker) : list Worker :=
  map (fun wk => set_Worker_pc (notified (Worker_pc wk)) wk) ws.

(** *** WorkerPool::set_job *)

(** Lines 22-23: the call creates the promise and takes its future. *)
Definition set_job (job : JobFunc) (a : JobArgs) (s : WorkerPool) : option WorkerPool :=
  match producer s with
  | PIdle =>
      let p : promise_t := length (shared s) in
      Some (set_producer (PLockResults (job, a, p))
             (set_shared (shared s ++ [None])
               (set_submitted (submitted s ++ [(job, a)]) s)))
  | _ => None
  end.

Definition set_job_step (pick : nat) (s : WorkerPool) : option WorkerPool :=
  match producer s with
  | PIdle => None
  | PLockResults r =>
      m ← acquire (m_results s) Producer;
      Some (set_producer (PPushResult r) (set_m_results m s))
  | PPushResult r =>
      Some (set_producer (PNotifyResults r)
             (set_m_results None
               (set_results (results s ++ [promise r]) s)))
  | PNotifyResults r =>
      Some (set_producer (PLockJobs r)
             (set_consumer (consumer_notified (consumer s)) s))
  | PLockJobs r =>
      m ← acquire (m_jobs s) Producer;
      Some (set_producer (PPushJob r) (set_m_jobs m s))
  | PPushJob r =>
      Some (set_producer (PNotifyJobs r)
             (set_m_jobs None
               (set_jobs (jobs s ++ [r]) s)))
  | PNotifyJobs r =>
      ws ← notify_one_jobs pick (workers s);
      Some (set_producer PIdle (set_workers ws s))
  end.

(** *** WorkerPool::get_answer *)

Definition get_answer (s : WorkerPool) : option WorkerPool :=
  match consumer s with
  | CIdle => Some (set_consumer CLock s)
  | _ => None
  end.

Definition get_answer_step (s : WorkerPool) : option WorkerPool :=
  match consumer s with
  | CIdle => None
  | CLock | CWoken =>
      m ← acquire (m_results s) Consumer;
      Some (set_consumer CWait (set_m_results m s))
  | CWait =>
      (* [this]{ return !results.empty() || stop_flag.load(); } *)
      if negb (bool_decide (results s = [])) || stop_flag s
      then Some (set_consumer CCheck s)
      else Some (set_consumer CSleep s)
  | CSleep =>
      Some (set_consumer CBlocked (set_m_results None s))
  | CBlocked => None
  | CCheck =>
      if stop_flag s && bool_decide (results s = [])
      then (* return {}; *)
        Some (set_consumer CIdle
               (set_answers (answers s ++ [None])
                 (set_m_results None s)))
      else
        match results s with
        | result :: rest =>
            Some (set_consumer (CGet result)
                   (set_m_results None
                     (set_results rest s)))
        | [] => None (* front() of an empty queue *)
        end
  | CGet result =>
      match shared s !! result with
      | Some (Some v) =>
          Some (set_consumer CIdle (set_answers (answers s ++ [Some v]) s))
      | _ => None (* get() blocks until the shared state is ready *)
      end
  end.

(** *** Worker::operator() *)

Definition set_worker (w : nat) (wk : Worker) (s : WorkerPool) : WorkerPool :=
  set_workers (<[w := wk]> (workers s)) s.

Definition Worker_step (w : nat) (s : WorkerPool) : option WorkerPool :=
  wk ← workers s !! w;
  match Worker_pc wk with
  | WLock | WWoken =>
      m ← acquire (m_jobs s) (WorkerThread w);
      Some (set_worker w (set_Worker_pc WWait wk) (set_m_jobs m s))
  | WWait =>
      (* [this, &jobs] { return stop_flag.load() || !jobs.empty(); } *)
      if Worker_stop_flag wk || negb (bool_decide (jobs s = []))
      then Some (set_worker w (set_Worker_pc WCheck wk) s)
      else Some (set_worker w (set_Worker_pc WSleep wk) s)
  | WSleep =>
      Some (set_worker w (set_Worker_pc WBlocked wk) (set_m_jobs None s))
  | WBlocked => None
  | WCheck =>
      if Worker_stop_flag wk && bool_decide (jobs s = [])
      then (* break; *)
        Some (set_worker w (set_Worker_pc WExited wk) (set_m_jobs None s))
      else
        match jobs s with
        | job :: rest =>
            Some (set_worker w (set_Worker_pc (WUnlock job) wk) (set_jobs rest s))
        | [] => None (* front() of an empty queue *)
        end
  | WUnlock job =>
      Some (set_worker w (set_Worker_pc (WApply job) wk) (set_m_jobs None s))
  | WApply job =>
      match apply (func job) (args job) with
      | Return v =>
          Some (set_worker w (set_Worker_pc (WSetValue (promise job) v) wk) s)
      | Throw _ => None (* the exception leaves the thread: std::terminate *)
      end
  | WSetValue p v =>
      match shared s !! p with
      | Some None =>
          Some (set_worker w (set_Worker_pc WLock wk)
                 (set_shared (<[p := Some v]> (shared s)) s))
      | _ => None (* std::future_error: the promise is already satisfied *)
      end
  | WExited => None
  end.

(** *** WorkerPool::stop, ~WorkerPool, ~Worker *)

(** Line 219: [stop_flag.store(true)]. *)
Definition stop (s : WorkerPool) : option WorkerPool :=
  match owner s with
  | OIdle => Some (set_owner OStopNotify (set_stop_flag true s))
  | _ => None
  end.

(** The pool goes out of scope. *)
Definition destroy (s : WorkerPool) : option WorkerPool :=
  match owner s with
  | OIdle => Some (set_owner (ODtorStop 0) s)
  | _ => None
  end.

Definition owner_step (s : WorkerPool) : option WorkerPool :=
  match owner s with
  | OIdle => None
  | OStopNotify =>
      (* cv_results.notify_all(); *)
      Some (set_owner OIdle (set_consumer (consumer_notified (consumer s)) s))
  | ODtorStop i =>
      match workers s !! i with
      | Some wk =>
          (* w->stop(); *)
          Some (set_owner (ODtorStop (S i)) (set_worker i (Worker_stop wk) s))
      | None =>
          (* cv_jobs.notify_all(); then the members are destroyed *)
          Some (set_owner (ODtorJoin 0) (set_workers (notify_all_jobs (workers s)) s))
      end
  | ODtorJoin i =>
      match workers s !! i with
      | Some wk =>
          (* thread.join() returns once the thread function has returned *)
          match Worker_pc wk with
          | WExited => Some (set_owner (ODtorJoin (S i)) s)
          | _ => None
          end
      | None => Some (set_owner ODestroyed s)
      end
  | ODestroyed => None
  end.

(** *** Schedules *)

(** What the scheduler may do next: a thread enters one of the pool's
    operations, a thread inside one performs its next statement, or a
    thread inside [wait(l)] wakes up without a notification. *)
Inductive event : Type :=
  | call_set_job (job : JobFunc) (a : JobArgs)
  | call_get_answer
  | call_stop
  | call_destructor
  | producer_step (pick : nat)
  | consumer_step
  | worker_step (w : nat)
  | owner_steps
  | spurious_wakeup (t : thread).

Definition wake_up (t : thread) (s : WorkerPool) : option WorkerPool :=
  match t with
  | Consumer =>
      match consumer s with
      | CBlocked => Some (set_consumer CWoken s)
      | _ => None
      end
  | WorkerThread w =>
      wk ← workers s !! w;
      if is_blocked wk then Some (set_worker w (set_Worker_pc WWoken wk) s) else None
  | _ => None
  end.

(** Nothing happens to a destroyed pool. *)
Definition alive (s : WorkerPool) : bool :=
  match owner s with
  | ODestroyed => false
  | _ => true
  end.

Definition step (e : event) (s : WorkerPool) : option WorkerPool :=
  if alive s then
    match e with
    | call_set_job job a => set_job job a s
    | call_get_answer => get_answer s
    | call_stop => stop s
    | call_destructor => destroy s
    | producer_step pick => set_job_step pick s
    | consumer_step => get_answer_step s
    | worker_step w => Worker_step w s
    | owner_steps => owner_step s
    | spurious_wakeup t => wake_up t s
    end
  else None.

(** A schedule runs from left to right; [None]: some event of it cannot
    happen in the state it meets. *)
Fixpoint run (schedule : list event) (s : WorkerPool) : option WorkerPool :=
  match schedule with
  | [] => Some s
  | e :: rest =>
      match step e s with
      | Some s' => run rest s'
      | None => None
      end
  end.

(** The values the [get_answer] calls returned, without the empty
    optionals. *)
Definition values (s : WorkerPool) : list JobResult :=
  omap id (answers s).

End Pool.

(** ** What the properties below speak of *)

Module Invariants.

Import Solver Pool.

(** *** One thread running alone *)

(** A whole [set_job] call; [pick] is the worker its [notify_one] wakes. *)
Definition runs_set_job (job : JobFunc) (a : JobArgs) (pick : nat) : list event :=
  call_set_job job a :: replicate 5 (producer_step 0) ++ [producer_step pick].

(** A whole [get_answer] call that finds a result waiting and ready. *)
Definition runs_get_answer : list event :=
  call_get_answer :: replicate 4 consumer_step.

(** Lines 57-72 of the worker loop when a job is waiting. *)
Definition takes_job (w : nat) : list event := replicate 4 (worker_step w).

(** Line 74 of the worker loop. *)
Definition runs_job (w : nat) : list event := replicate 2 (worker_step w).

(** A whole [stop] call. *)
Definition runs_stop : list event := [call_stop; owner_steps].

(** [~WorkerPool] on a pool of [n] workers, up to and including its
    [notify_all]. *)
Definition runs_destructor (n : nat) : list event :=
  call_destructor :: replicate (S n) owner_steps.

(** One job from [set_job] to [get_answer], everything in program order:
    the producer submits, worker 0 takes the job and runs it, the consumer
    collects. *)
Definition round (job : JobFunc) (a : JobArgs) : list event :=
  runs_set_job job a 0 ++ takes_job 0 ++ runs_job 0 ++ runs_get_answer.

Definition sequential (js : list (JobFunc * JobArgs)) : list event :=
  js ≫= λ request, round request.1 request.2.

(** The pool between two rounds: [sub] submitted, [vals] returned, nothing
    queued, every thread at rest. *)
Definition quiet (n : nat) (sub : list (JobFunc * JobArgs))
    (vals : list JobResult) : WorkerPool :=
  {| results := []; jobs := []; m_jobs := None; m_results := None;
     workers := replicate n Worker_new;
     stop_flag := false; shared := Some <$> vals;
     producer := PIdle; consumer := CIdle; owner := OIdle;
     submitted := sub; answers := Some <$> vals |}.

(** A job that never throws, for the example schedules. *)
Definition join_args : JobFunc :=
  fun a b c => Return (a +:+ " " +:+ b +:+ " " +:+ c).

(** Two workers take one job each; the second job is computed first. *)
Definition out_of_order_schedule : list event :=
  runs_set_job join_args ("1", "-3", "2") 0
  ++ runs_set_job join_args ("0", "2", "-4") 0
  ++ takes_job 0 ++ takes_job 1 ++ runs_job 1 ++ runs_job 0
  ++ runs_get_answer ++ runs_get_answer.

(** The worker of a pool of one finds no job and waits. *)
Definition waiting_schedule : list event := replicate 3 (worker_step 0).

Definition waiting_pool : WorkerPool :=
  set_workers [{| Worker_stop_flag := false; Worker_pc := WBlocked |}]
    (WorkerPool_new 1).

(** Then [set_job] runs up to its last line, [cv_jobs.notify_one()]. *)
Definition pushing_schedule : list event :=
  waiting_schedule
  ++ call_set_job join_args ("1", "-3", "2") :: replicate 5 (producer_step 0).

Definition pushing_pool : WorkerPool :=
  set_producer (PNotifyJobs (join_args, ("1", "-3", "2"), 0%nat))
    (set_jobs [(join_args, ("1", "-3", "2"), 0%nat)]
      (set_results [0%nat]
        (set_shared [None]
          (set_submitted [(join_args, ("1", "-3", "2"))] waiting_pool)))).

(** [set_job] holds the mutex of the job queue, at line 33. *)
Definition locked_schedule : list event :=
  call_set_job join_args ("1", "-3", "2") :: replicate 4 (producer_step 0).

(** [get_answer] stands at line 44 with one result queued. *)
Definition check_schedule : list event :=
  runs_set_job join_args ("1", "-3", "2") 0
  ++ [call_get_answer; consumer_step; consumer_step].

(** The scenario of three equations on four workers; the jobs are computed
    in the order third, second, first. *)
Definition scenario_schedule : list event :=
  runs_set_job calculate_square_roots ("1", "-3", "2") 0
  ++ runs_set_job calculate_square_roots ("0", "2", "-4") 0
  ++ runs_set_job calculate_square_roots ("0", "0", "5") 0
  ++ takes_job 3 ++ takes_job 1 ++ takes_job 2
  ++ runs_job 2 ++ runs_job 1 ++ runs_job 3
  ++ runs_get_answer ++ runs_get_answer ++ runs_get_answer.

(** *** The jobs mutex *)

(** The points of the worker loop at which the worker holds [m_jobs]:
    from the lock of line 57 to the [wait(l)] of line 59, and from the
    return of [wait] to the [unlock] of line 72 or the [break]. *)
Definition holds_m_jobs (pc : worker_pc) : bool :=
  match pc with
  | WWait | WSleep | WCheck | WUnlock _ => true
  | _ => false
  end.

(** The points at which the worker runs the job: [std::apply] and
    [set_value] of line 74. *)
Definition runs_the_job (pc : worker_pc) : bool :=
  match pc with
  | WApply _ | WSetValue _ _ => true
  | _ => false
  end.

Definition lock_discipline (s : WorkerPool) : Prop :=
  ∀ w wk, workers s !! w = Some wk →
    m_jobs s = Some (WorkerThread w) → holds_m_jobs (Worker_pc wk) = true.

(** Whoever stands between a lock and an unlock of [m_jobs] is the one
    holder the mutex records; and a worker at line 61 has found its
    predicate true, which nobody else can undo while it holds the mutex. *)
Record jobs_mutex_invariant (s : WorkerPool) : Prop := {
  mutex_worker : ∀ w wk, workers s !! w = Some wk →
    holds_m_jobs (Worker_pc wk) = true → m_jobs s = Some (WorkerThread w);
  mutex_producer : ∀ r, producer s = PPushJob r → m_jobs s = Some Producer;
  front_safe : ∀ w wk, workers s !! w = Some wk →
    Worker_pc wk = WCheck → Worker_stop_flag wk = true ∨ jobs s ≠ [];
}.

(** *** Promises *)

(** The promises a thread holds: from their creation in [set_job] to the
    push of the job, and from the pop of the job in the worker loop to
    [set_value]. *)
Definition producer_tokens (pc : producer_pc) : list promise_t :=
  match pc with
  | PLockResults r | PPushResult r | PNotifyResults r
  | PLockJobs r | PPushJob r => [promise r]
  | _ => []
  end.

Definition worker_tokens (wk : Worker) : list promise_t :=
  match Worker_pc wk with
  | WUnlock r | WApply r => [promise r]
  | WSetValue p _ => [p]
  | _ => []
  end.

(** Every promise not yet fulfilled, where it is: with the producer, in
    the job queue, or with a worker. *)
Definition tokens (s : WorkerPool) : list promise_t :=
  producer_tokens (producer s) ++ (promise <$> jobs s)
    ++ (workers s ≫= worker_tokens).

(** A promise is in one place only, and its shared state is pending. *)
Record promise_invariant (s : WorkerPool) : Prop := {
  tokens_nodup : NoDup (tokens s);
  tokens_pending : ∀ p, p ∈ tokens s → shared s !! p = Some None;
}.

(** *** Submission order *)

(** [v] is what the [p]-th submitted job returns. *)
Definition computes (sub : list (JobFunc * JobArgs)) (p : promise_t)
    (v : JobResult) : Prop :=
  ∃ job a, sub !! p = Some (job, a) ∧ apply job a = Return v.

(** A request carries the function and arguments of the [set_job] call
    that created its promise. *)
Definition request_of (sub : list (JobFunc * JobArgs)) (r : JobRequest) : Prop :=
  sub !! promise r = Some (func r, args r).

(** The future [get_answer] has popped and not yet read. *)
Definition held (s : WorkerPool) : list future_t :=
  match consumer s with
  | CGet result => [result]
  | _ => []
  end.

(** The future [set_job] has created and not yet pushed. *)
Definition unpushed (s : WorkerPool) : list future_t :=
  match producer s with
  | PLockResults r | PPushResult r => [promise r]
  | _ => []
  end.

Definition worker_ok (sub : list (JobFunc * JobArgs)) (wk : Worker) : Prop :=
  match Worker_pc wk with
  | WUnlock r | WApply r => request_of sub r
  | WSetValue p v => computes sub p v
  | _ => True
  end.

Definition producer_ok (sub : list (JobFunc * JobArgs)) (pc : producer_pc) : Prop :=
  match pc with
  | PIdle => True
  | PLockResults r | PPushResult r | PNotifyResults r
  | PLockJobs r | PPushJob r | PNotifyJobs r => request_of sub r
  end.

(** Before [stop], no [get_answer] call has returned an empty optional. *)
Definition answered_before_stop (s : WorkerPool) : Prop :=
  stop_flag s = false → answers s = Some <$> values s.

Record order_invariant (s : WorkerPool) : Prop := {
  inv_shared : length (shared s) = length (submitted s);
  inv_count : length (values s) ≤ length (submitted s);
  (** the futures not yet read are the promises created since the last
      value was returned, oldest first *)
  inv_futures :
    held s ++ results s ++ unpushed s =
      seq (length (values s)) (length (submitted s) - length (values s));
  inv_ready : ∀ p v, shared s !! p = Some (Some v) → computes (submitted s) p v;
  inv_jobs : Forall (request_of (submitted s)) (jobs s);
  inv_workers : Forall (worker_ok (submitted s)) (workers s);
  inv_producer : producer_ok (submitted s) (producer s);
  inv_values : ∀ i v, values s !! i = Some v → computes (submitted s) i v;
}.

(** *** get_answer *)

(** [get_answer] reaches line 44 only after its predicate was true. *)
Definition check_invariant (s : WorkerPool) : Prop :=
  consumer s = CCheck → results s ≠ [] ∨ stop_flag s = true.

(** *** Destruction *)

(** [thread.join()] has returned for the workers before [i]; a destroyed
    pool has joined them all. *)
Definition join_invariant (s : WorkerPool) : Prop :=
  match owner s with
  | ODtorJoin i =>
      ∀ w wk, (w < i)%nat → workers s !! w = Some wk → Worker_pc wk = WExited
  | ODestroyed => Forall (λ wk, Worker_pc wk = WExited) (workers s)
  | _ => True
  end.

(** *** Where the jobs are *)

(** The promises of the jobs that wait for a worker, oldest first: those in
    the job queue, then the one [set_job] has created and not yet pushed. *)
Definition waiting (s : WorkerPool) : list promise_t :=
  (promise <$> jobs s) ++ producer_tokens (producer s).

(** A pending promise is held by somebody. *)
Definition pending_held (s : WorkerPool) : Prop :=
  ∀ p, shared s !! p = Some None → p ∈ tokens s.

(** The waiting jobs are the last ones submitted. *)
Record fifo_invariant (s : WorkerPool) : Prop := {
  fifo_shared : length (shared s) = length (submitted s);
  fifo_count : length (waiting s) ≤ length (submitted s);
  fifo_waiting :
    waiting s = seq (length (submitted s) - length (waiting s)) (length (waiting s));
}.

(** *** Critical sections *)

(** Thread [t] stands between a lock and the next unlock (or wait) of
    [m_jobs]: [set_job] at line 33, a worker from line 57 to the wait of
    line 59 and from the return of the wait to line 72 or the [break]. *)
Definition in_jobs_section (s : WorkerPool) (t : thread) : bool :=
  match t with
  | Producer =>
      match producer s with
      | PPushJob _ => true
      | _ => false
      end
  | WorkerThread w =>
      match workers s !! w with
      | Some wk => holds_m_jobs (Worker_pc wk)
      | None => false
      end
  | _ => false
  end.

(** The same for [m_results]: [set_job] at line 27, [get_answer] from
    line 42 to the wait of line 43 and from the return of the wait to
    line 47. *)
Definition in_results_section (s : WorkerPool) (t : thread) : bool :=
  match t with
  | Producer =>
      match producer s with
      | PPushResult _ => true
      | _ => false
      end
  | Consumer =>
      match consumer s with
      | CWait | CSleep | CCheck => true
      | _ => false
      end
  | _ => false
  end.

(** Each mutex records the one thread inside its critical section. *)
Record mutex_invariant (s : WorkerPool) : Prop := {
  jobs_holder : ∀ t, m_jobs s = Some t → in_jobs_section s t = true;
  jobs_section : ∀ t, in_jobs_section s t = true → m_jobs s = Some t;
  results_holder : ∀ t, m_results s = Some t → in_results_section s t = true;
  results_section : ∀ t, in_results_section s t = true → m_results s = Some t;
}.

(** Two jobs are queued and worker 0 has found its predicate true. *)
Definition two_queued_schedule : list event :=
  runs_set_job join_args ("1", "-3", "2") 0
  ++ runs_set_job join_args ("0", "2", "-4") 0
  ++ replicate 2 (worker_step 0).

(** *** Waiting *)

(** [get_answer] finds nothing to return and waits. *)
Definition consumer_waits : list event :=
  call_get_answer :: replicate 3 consumer_step.

(** A worker has found its predicate false and has not yet called
    [wait(l)]. *)
Definition worker_about_to_wait (w : nat) : list event :=
  replicate 2 (worker_step w).

(** A notification of [cv_results] or a spurious wakeup of the consumer. *)
Definition wakes_consumer (e : event) (s : WorkerPool) : Prop :=
  e = spurious_wakeup Consumer
  ∨ (∃ pick r, e = producer_step pick ∧ producer s = PNotifyResults r)
  ∨ (e = owner_steps ∧ owner s = OStopNotify).

(** No event of the schedule wakes worker [w]: it has no spurious wakeup
    of [w] and no [notify_one] that picks [w]. *)
Definition never_wakes (w : nat) (schedule : list event) : Prop :=
  Forall (λ e, e ≠ spurious_wakeup (WorkerThread w) ∧ e ≠ producer_step w)
    schedule.

(** [~WorkerPool] has passed its [notify_all], worker [w] is not joined
    yet and is inside [wait(l)]. *)
Definition joining_blocked (w : nat) (s : WorkerPool) : Prop :=
  (∃ i, owner s = ODtorJoin i ∧ (i ≤ w)%nat) ∧
  ∃ wk, workers s !! w = Some wk ∧ Worker_pc wk = WBlocked.

(** Both jobs of [out_of_order_schedule] are answered, [stop] has run, and
    a third [get_answer] call stands at line 44. *)
Definition drained_schedule : list event :=
  out_of_order_schedule ++ runs_stop
  ++ [call_get_answer; consumer_step; consumer_step].

(** A pool of one worker after [stop], [~WorkerPool] up to its
    [notify_all], and the worker's exit. *)
Definition stopped_pool : WorkerPool :=
  set_owner (ODtorJoin 0)
    (set_stop_flag true
      (set_workers [{| Worker_stop_flag := true; Worker_pc := WExited |}]
        (WorkerPool_new 1))).

(** No worker, and no promise fulfilled. *)
Definition nothing_computed (s : WorkerPool) : Prop :=
  workers s = [] ∧ Forall (λ st, st = None) (shared s) ∧ values s = [].

(** [stop()], then a whole [get_answer] call that does not have to wait. *)
Definition stop_then_get_answer : list event :=
  runs_stop ++ call_get_answer :: replicate 3 consumer_step.

(** [stop()] while [get_answer] is inside [wait(l)], then the rest of the
    [get_answer] call. *)
Definition stop_wakes_get_answer : list event :=
  runs_stop ++ replicate 3 consumer_step.

(** [stop()] after [get_answer] has tested its predicate, then the next
    step of [get_answer]. *)
Definition stop_before_wait : list event :=
  runs_stop ++ [consumer_step].

(** [get_answer] has found its predicate false and has not yet called
    [wait(l)]. *)
Definition consumer_about_to_wait : list event :=
  call_get_answer :: replicate 2 consumer_step.

(** [get_answer] is inside [wait(l)] and no notification of [cv_results]
    is on its way: no [set_job] call and no [stop] call is running. *)
Definition waits_unnotified (s : WorkerPool) : Prop :=
  consumer s = CBlocked ∧ producer s = PIdle ∧ owner s ≠ OStopNotify.

(** A schedule in which nobody calls [set_job] or [stop] and the consumer
    is not woken spuriously. *)
Definition leaves_consumer_alone (schedule : list event) : Prop :=
  Forall (λ e, e ≠ spurious_wakeup Consumer ∧ e ≠ call_stop
               ∧ ∀ job a, e ≠ call_set_job job a) schedule.

(** *** Proof steps *)

(** Every way a step can succeed, with the new state spelled out. *)
Ltac step_cases H :=
  unfold step in H;
  destruct (alive _) eqn:?; [|discriminate H];
  match type of H with
  | match ?e with _ => _ end = _ => destruct e
  end;
  unfold set_job, set_job_step, get_answer, get_answer_step, Worker_step,
    stop, destroy, owner_step, wake_up, notify_one_jobs, acquire, set_worker in H;
  repeat (simplify_option_eq; try case_match);
  simplify_option_eq.

(** A state written with the setters, as the record it is. *)
Ltac flat_state :=
  lazy [set_worker set_results set_jobs set_m_jobs set_m_results
        set_workers set_stop_flag set_shared set_producer set_consumer
        set_owner set_submitted set_answers set_Worker_pc
        results jobs m_jobs m_results workers stop_flag shared producer
        consumer owner submitted answers Worker_stop_flag Worker_pc].

(** A worker found in [workers] after a step: the one the step wrote, or
    one that was there before. *)
Ltac worker_cases :=
  repeat match goal with
  | H : <[_ := _]> _ !! _ = Some _ |- _ =>
      apply list_lookup_insert_Some in H;
      destruct H as [(-> & <- & ?) | (? & H)]
  | H : notify_all_jobs _ !! _ = Some _ |- _ =>
      unfold notify_all_jobs in H; rewrite list_lookup_fmap in H;
      apply fmap_Some in H; destruct H as (? & H & ->)
  end.

End Invariants.

(** ** main.cpp, and SafeCout of worker_pool.hpp *)

Module Main.

Import Solver Pool.

(** *** std::cin and std::cout *)

(** [std::endl]: a newline (and a flush). *)
Definition endl : string := String "010"%char EmptyString.

(** The characters of [s] up to the next white space, and what follows
    them. *)
Fixpoint read_word (s : string) : string * string :=
  match s with
  | String c rest =>
      if isspace c then (EmptyString, s)
      else let '(word, rest') := read_word rest in (String c word, rest')
  | EmptyString => (EmptyString, EmptyString)
  end.

(** [std::cin >> str] on the input still to be read: leading white space
    is skipped and the characters up to the next white space or the end of
    the input are stored; [None] when no character is left to store (the
    stream's [failbit] is set and the stream converts to [false]). *)
Definition extract (cin : string) : option (string * string) :=
  match read_word (skip_spaces cin) with
  | (EmptyString, _) => None
  | (word, rest) => Some (word, rest)
  end.

(** The decimal digits of [n], at most [fuel] of them, in front of [acc]. *)
Fixpoint decimal (fuel : nat) (n : Z) (acc : string) : string :=
  match fuel with
  | O => acc
  | S f =>
      let acc := String (digit_char (n mod 10)) acc in
      if (n <? 10)%Z then acc else decimal f (n / 10) acc
  end.

(** [std::cout << n] for an [unsigned]: it has at most ten digits. *)
Definition show_unsigned (n : nat) : string :=
  decimal 10 (Z.of_nat n) EmptyString.

(** *** SafeCout *)

(** [std::cout] and the mutex [SafeCout::m]. *)
Record Console : Type := {
  cout_text : string;
  SafeCout_m : bool;
}.

(** [SafeCout() { SafeCout::m.lock(); }]: possible only while the mutex is
    free. *)
Definition SafeCout_new (c : Console) : option Console :=
  if SafeCout_m c then None
  else Some {| cout_text := cout_text c; SafeCout_m := true |}.

(** [operator<<]: [std::cout << t]. *)
Definition SafeCout_shift (text : string) (c : Console) : Console :=
  {| cout_text := cout_text c +:+ text; SafeCout_m := SafeCout_m c |}.

(** [~SafeCout() { SafeCout::m.unlock(); }] *)
Definition SafeCout_delete (c : Console) : Console :=
  {| cout_text := cout_text c; SafeCout_m := false |}.

(** worker_pool.hpp line 176, the first statement of the constructor:
    [SafeCout() << "WorkerPool start with " << num_threads << " threads"
    << std::endl;] the temporary lives to the end of the statement. *)
Definition announce (num_threads : nat) (c : Console) : option Console :=
  c ← SafeCout_new c;
  Some (SafeCout_delete
          (SafeCout_shift endl
             (SafeCout_shift " threads"
                (SafeCout_shift (show_unsigned num_threads)
                   (SafeCout_shift "WorkerPool start with " c))))).

(** *** The two threads of main *)

(** The main thread, main.cpp lines 44-57. *)
Inductive main_pc : Type :=
  | MRead (cnt : nat)   (* 45: std::cin >> input[cnt++] *)
  | MSetJob             (* 48: inside set_job *)
  | MStop               (* 54: about to call stop *)
  | MStopping           (* 54: inside stop *)
  | MJoin               (* 55: printer.join() *)
  | MReturn             (* 57: return 0, the pool goes out of scope *)
  | MDestroying         (* ~WorkerPool and the ~Worker of every worker *)
  | MExited.

(** The printer thread, main.cpp lines 36-41. *)
Inductive printer_pc : Type :=
  | PrCall              (* 37: about to call get_answer *)
  | PrInside            (* 37: inside get_answer *)
  | PrExited.           (* 38: break, the thread function returned *)

Record Program : Type := {
  worker_pool : WorkerPool;
  (** [std::array<std::string, 3> input] *)
  input : list string;
  (** what is left to read of the standard input *)
  cin : string;
  (** what was written to the standard output *)
  cout : string;
  main_thread : main_pc;
  printer : printer_pc;
}.

(** main.cpp lines 33-44: the pool is constructed with [nthreads - 2]
    workers, which prints the constructor's line; the printer thread is
    started; [input] holds three empty strings. *)
Definition main_start (hardware_concurrency : nat) (stdin : string) :
    option Program :=
  c ← announce (unsigned_sub (nthreads hardware_concurrency) 2)
        {| cout_text := EmptyString; SafeCout_m := false |};
  Some {| worker_pool := main_pool hardware_concurrency;
          input := [EmptyString; EmptyString; EmptyString];
          cin := stdin;
          cout := cout_text c;
          main_thread := MRead 0;
          printer := PrCall |}.

(** One statement of the main thread.  Line 45 reads a word into
    [input[cnt]]; an index out of the array is no step.  With the third
    word line 48 calls [set_job], which moves the three strings out of the
    array (they are left empty).  [pick] is the worker the [notify_one] of
    [set_job] wakes. *)
Definition main_thread_step (pick : nat) (P : Program) : option Program :=
  match main_thread P with
  | MRead cnt =>
      if bool_decide (cnt < 3)%nat then
        match extract (cin P) with
        | Some (word, rest) =>
            let input' := <[cnt := word]> (input P) in
            if bool_decide (S cnt = 3) then
              a ← input' !! 0%nat;
              b ← input' !! 1%nat;
              c ← input' !! 2%nat;
              pool ← step (call_set_job calculate_square_roots (a, b, c))
                       (worker_pool P);
              Some {| worker_pool := pool;
                      input := [EmptyString; EmptyString; EmptyString];
                      cin := rest; cout := cout P;
                      main_thread := MSetJob; printer := printer P |}
            else
              Some {| worker_pool := worker_pool P;
                      input := input';
                      cin := rest; cout := cout P;
                      main_thread := MRead (S cnt); printer := printer P |}
        | None =>
            Some {| worker_pool := worker_pool P; input := input P;
                    cin := cin P; cout := cout P;
                    main_thread := MStop; printer := printer P |}
        end
      else None
  | MSetJob =>
      pool ← step (producer_step pick) (worker_pool P);
      Some {| worker_pool := pool; input := input P;
              cin := cin P; cout := cout P;
              main_thread :=
                match producer pool with
                | PIdle => MRead 0
                | _ => MSetJob
                end;
              printer := printer P |}
  | MStop =>
      pool ← step call_stop (worker_pool P);
      Some {| worker_pool := pool; input := input P;
              cin := cin P; cout := cout P;
              main_thread := MStopping; printer := printer P |}
  | MStopping =>
      pool ← step owner_steps (worker_pool P);
      Some {| worker_pool := pool; input := input P;
              cin := cin P; cout := cout P;
              main_thread := MJoin; printer := printer P |}
  | MJoin =>
      (* join returns once the printer's thread function has returned *)
      match printer P with
      | PrExited =>
          Some {| worker_pool := worker_pool P; input := input P;
                  cin := cin P; cout := cout P;
                  main_thread := MReturn; printer := printer P |}
      | _ => None
      end
  | MReturn =>
      pool ← step call_destructor (worker_pool P);
      Some {| worker_pool := pool; input := input P;
              cin := cin P; cout := cout P;
              main_thread := MDestroying; printer := printer P |}
  | MDestroying =>
      pool ← step owner_steps (worker_pool P);
      Some {| worker_pool := pool; input := input P;
              cin := cin P; cout := cout P;
              main_thread :=
                match owner pool with
                | ODestroyed => MExited
                | _ => MDestroying
                end;
              printer := printer P |}
  | MExited => None
  end.

(** One statement of the printer thread.  When [get_answer] returns, its
    value is the last entry of the pool's answers: an empty optional ends
    the loop, a value is written to [std::cout] followed by [std::endl]. *)
Definition printer_thread_step (P : Program) : option Program :=
  match printer P with
  | PrCall =>
      pool ← step call_get_answer (worker_pool P);
      Some {| worker_pool := pool; input := input P;
              cin := cin P; cout := cout P;
              main_thread := main_thread P; printer := PrInside |}
  | PrInside =>
      pool ← step consumer_step (worker_pool P);
      match consumer pool with
      | CIdle =>
          match last (answers pool) with
          | Some (Some result) =>
              Some {| worker_pool := pool; input := input P;
                      cin := cin P; cout := (cout P +:+ result) +:+ endl;
                      main_thread := main_thread P; printer := PrCall |}
          | Some None =>
              Some {| worker_pool := pool; input := input P;
                      cin := cin P; cout := cout P;
                      main_thread := main_thread P; printer := PrExited |}
          | None => None
          end
      | _ =>
          Some {| worker_pool := pool; input := input P;
                  cin := cin P; cout := cout P;
                  main_thread := main_thread P; printer := PrInside |}
      end
  | PrExited => None
  end.

(** What the scheduler may do next in the program. *)
Inductive main_event : Type :=
  | main_steps (pick : nat)
  | printer_steps
  | worker_steps (w : nat)
  | wakes (t : thread).

Definition on_pool (e : event) (P : Program) : option Program :=
  pool ← step e (worker_pool P);
  Some {| worker_pool := pool; input := input P;
          cin := cin P; cout := cout P;
          main_thread := main_thread P; printer := printer P |}.

Definition Program_step (e : main_event) (P : Program) : option Program :=
  match e with
  | main_steps pick => main_thread_step pick P
  | printer_steps => printer_thread_step P
  | worker_steps w => on_pool (worker_step w) P
  | wakes t => on_pool (spurious_wakeup t) P
  end.

Fixpoint run_main (schedule : list main_event) (P : Program) : option Program :=
  match schedule with
  | [] => Some P
  | e :: rest =>
      match Program_step e P with
      | Some P' => run_main rest P'
      | None => None
      end
  end.

(** *** What the properties of main speak of *)

(** The words of a text: its maximal runs of characters that are no white
    space. *)
Fixpoint words (s : string) : list string :=
  match s with
  | EmptyString => []
  | String c rest =>
      if isspace c then words rest
      else
        match rest with
        | EmptyString => [String c EmptyString]
        | String c' _ =>
            if isspace c' then String c EmptyString :: words rest
            else
              match words rest with
              | word :: more => String c word :: more
              | [] => [String c EmptyString]
              end
        end
  end.

(** The words by three; what is left of an incomplete group is dropped. *)
Fixpoint triples (ws : list string) : list JobArgs :=
  match ws with
  | a :: b :: c :: rest => (a, b, c) :: triples rest
  | _ => []
  end.

(** Every value on a line of its own. *)
Definition lines (vals : list JobResult) : string :=
  foldr (fun v text => v +:+ endl +:+ text) EmptyString vals.

(** The line the constructor of the pool prints. *)
Definition banner (num_threads : nat) : string :=
  "WorkerPool start with " +:+ show_unsigned num_threads +:+ " threads" +:+ endl.

(** The words read into [input] and not yet submitted. *)
Definition pending (P : Program) : list string :=
  match main_thread P with
  | MRead cnt => take cnt (input P)
  | _ => []
  end.

(** The jobs main has still to submit. *)
Definition future_jobs (P : Program) : list JobArgs :=
  match main_thread P with
  | MRead _ | MSetJob => triples (pending P ++ words (cin P))
  | _ => []
  end.

(** Where the main thread stands, and what it has done to the pool. *)
Definition main_coupling (P : Program) : Prop :=
  let s := worker_pool P in
  match main_thread P with
  | MRead cnt =>
      producer s = PIdle ∧ owner s = OIdle ∧ stop_flag s = false
      ∧ (cnt < 3)%nat ∧ length (input P) = 3%nat
  | MSetJob =>
      producer s ≠ PIdle ∧ owner s = OIdle ∧ stop_flag s = false
      ∧ length (input P) = 3%nat
  | MStop => producer s = PIdle ∧ owner s = OIdle ∧ stop_flag s = false
  | MStopping => producer s = PIdle ∧ owner s = OStopNotify ∧ stop_flag s = true
  | MJoin | MReturn => producer s = PIdle ∧ owner s = OIdle ∧ stop_flag s = true
  | MDestroying =>
      producer s = PIdle ∧ owner s ≠ OIdle ∧ owner s ≠ OStopNotify
      ∧ stop_flag s = true
  | MExited => producer s = PIdle ∧ stop_flag s = true
  end.

(** Where the printer stands; once it has left its loop, every submitted
    job has been answered. *)
Definition printer_coupling (P : Program) : Prop :=
  let s := worker_pool P in
  match printer P with
  | PrCall => consumer s = CIdle
  | PrInside => consumer s ≠ CIdle
  | PrExited =>
      consumer s = CIdle ∧ stop_flag s = true
      ∧ length (values s) = length (submitted s)
  end.

Record main_invariant (stdin : string) (start : string) (P : Program) : Prop := {
  main_order : Invariants.order_invariant (worker_pool P);
  main_submitted :
    submitted (worker_pool P) =
      (fun a => (calculate_square_roots, a))
        <$> take (length (submitted (worker_pool P))) (triples (words stdin));
  main_future :
    drop (length (submitted (worker_pool P))) (triples (words stdin))
      = future_jobs P;
  main_cout : cout P = start +:+ lines (values (worker_pool P));
  main_main : main_coupling P;
  main_printer : printer_coupling P;
}.

(** A word: one character or more, none of them white space. *)
Fixpoint is_word (s : string) : bool :=
  match s with
  | EmptyString => false
  | String c EmptyString => negb (isspace c)
  | String c rest => negb (isspace c) && is_word rest
  end.

(** The schedule of one equation on a host of three hardware threads: the
    main thread reads three words and submits the job, the worker computes
    it, the printer prints it; at the end of the input the main thread
    stops the pool, the printer leaves its loop and is joined, and the pool
    is destroyed. *)
Definition one_equation_schedule : list main_event :=
  replicate 9 (main_steps 0)
  ++ replicate 6 (worker_steps 0)
  ++ replicate 5 printer_steps
  ++ replicate 3 (main_steps 0)
  ++ replicate 4 printer_steps
  ++ replicate 4 (main_steps 0)
  ++ replicate 3 (worker_steps 0)
  ++ replicate 2 (main_steps 0).

End Main.

(** * Properties *)

(** ** The job function *)

Section SolverProperties.

Import Solver.

Lemma app_str_nil (t : string) : "" +:+ t = t.
Proof. reflexivity. Qed.

Lemma app_str_cons (c : ascii) (s t : string) :
  String c s +:+ t = String c (s +:+ t).
Proof. reflexivity. Qed.

Lemma length_take_str (n : nat) (s : string) :
  String.length (take_str n s) = Nat.min n (String.length s).
Proof.
  revert s; induction n as [|n IH]; intros [|c s]; simpl; auto.
Qed.

Lemma take_str_app (s t : string) :
  take_str (String.length s) (s +:+ t) = s.
Proof.
  induction s as [|c s IH]; simpl.
  - now destruct t.
  - now rewrite ?app_str_cons, IH.
Qed.

Lemma take_str_all (n : nat) (s : string) :
  (String.length s <= n)%nat → take_str n s = s.
Proof.
  revert n; induction s as [|c s IH]; intros [|n] Hn; simpl in *; try lia; auto.
  rewrite IH; [done | lia].
Qed.

Lemma length_app_str (s t : string) :
  String.length (s +:+ t) = (String.length s + String.length t)%nat.
Proof.
  induction s as [|c s IH]; [done|].
  rewrite app_str_cons. simpl. now rewrite IH.
Qed.

Lemma app_str_empty (s : string) : s +:+ "" = s.
Proof.
  induction s as [|c s IH]; [done|].
  now rewrite app_str_cons, IH.
Qed.

Lemma app_str_assoc (s t u : string) : (s +:+ t) +:+ u = s +:+ (t +:+ u).
Proof.
  induction s as [|c s IH]; [done|].
  now rewrite !app_str_cons, IH.
Qed.

Lemma length_c_string (s : string) :
  (String.length (c_string s) <= String.length s)%nat.
Proof.
  induction s as [|c s IH]; simpl; [lia|].
  destruct (Ascii.eqb c NUL); simpl; lia.
Qed.

Lemma length_nuls (n : nat) : String.length (nuls n) = n.
Proof.
  induction n as [|n IH]; simpl; congruence.
Qed.

Lemma length_resize (s : string) (n : nat) : String.length (resize s n) = n.
Proof.
  unfold resize. rewrite length_app_str, length_take_str, length_nuls. lia.
Qed.

(** A buffer with room for the output and its NUL holds the output after
    [snprintf], so [resize] to the returned size leaves exactly the output. *)
Lemma snprintf_resize (buf : string) (cap : nat) (out : string) :
  (String.length out < cap)%nat →
  resize (snprintf buf cap out).1 (snprintf buf cap out).2 = out.
Proof.
  intros Hcap. unfold snprintf, resize.
  destruct cap as [|room]; [lia|]. simpl fst; simpl snd.
  rewrite (take_str_all room out) by lia.
  rewrite !app_str_assoc, take_str_app.
  rewrite !length_app_str.
  replace (_ - _)%nat with 0%nat by lia.
  apply app_str_empty.
Qed.

(** Lines 15-18 leave in [answer] the echo of the three C strings: the
    buffer of [size() + 10] bytes is never too small. *)
Lemma echo_formatted (a_str b_str c_str : string) :
  echo a_str b_str c_str =
    "(" +:+ c_string a_str +:+ " " +:+ c_string b_str +:+ " "
        +:+ c_string c_str +:+ ") => ".
Proof.
  unfold echo.
  set (out := "(" +:+ _).
  set (buf := resize "" _).
  assert (Hlen : String.length buf =
                 (String.length a_str + String.length b_str
                  + String.length c_str + 10)%nat).
  { apply length_resize. }
  pose proof (snprintf_resize buf (String.length buf) out) as H.
  destruct (snprintf buf (String.length buf) out) as [answer size].
  apply H. rewrite Hlen. unfold out.
  pose proof (length_c_string a_str). pose proof (length_c_string b_str).
  pose proof (length_c_string c_str).
  repeat (rewrite length_app_str; simpl String.length).
  simpl. lia.
Qed.

(** C8.  For every triple of strings [calculate_square_roots] returns a
    string, no exception leaves it; and when one of the three conversions
    by [std::stoi] throws, the returned string is the echo of the
    arguments followed by the text of the first exception thrown, in the
    order [a_str], [b_str], [c_str]: "invalid argument" or "out of
    range". *)
Theorem calculate_square_roots_never_throws (a_str b_str c_str : string) :
  ∃ answer : string,
    calculate_square_roots a_str b_str c_str = Return answer ∧
    ∀ e,
      (stoi a_str = Throw e
       ∨ (∃ a, stoi a_str = Return a ∧ stoi b_str = Throw e)
       ∨ (∃ a b, stoi a_str = Return a ∧ stoi b_str = Return b
                 ∧ stoi c_str = Throw e)) →
      answer = echo a_str b_str c_str +:+ failure_text e.
Proof.
  unfold calculate_square_roots, try_catch, mbind, throws_bind, mret, throws_ret.
  destruct (stoi a_str) as [a|ea] eqn:Ha;
    [ destruct (stoi b_str) as [b|eb] eqn:Hb;
      [ destruct (stoi c_str) as [c|ec] eqn:Hc | ] | ].
  - eexists. split; [reflexivity|].
    intros e [H|[(? & _ & H)|(? & ? & _ & _ & H)]]; discriminate.
  - exists (echo a_str b_str c_str +:+ failure_text ec).
    split; [now destruct ec|].
    intros e [H|[(? & _ & H)|(? & ? & _ & _ & H)]]; congruence.
  - exists (echo a_str b_str c_str +:+ failure_text eb).
    split; [now destruct eb|].
    intros e [H|[(? & _ & H)|(? & ? & _ & H & _)]]; congruence.
  - exists (echo a_str b_str c_str +:+ failure_text ea).
    split; [now destruct ea|].
    intros e [H|[(? & H & _)|(? & ? & H & _)]]; congruence.
Qed.

(** Both failures of [std::stoi] occur. *)
Example stoi_failures :
  stoi "x" = Throw invalid_argument ∧
  stoi "" = Throw invalid_argument ∧
  stoi "2147483648" = Throw out_of_range ∧
  stoi "-2147483648" = Return (-2147483648)%Z ∧
  stoi " +12abc" = Return 12%Z ∧
  calculate_square_roots "1" "2" "x" = Return "(1 2 x) => invalid argument" ∧
  calculate_square_roots "1" "99999999999" "x" = Return "(1 99999999999 x) => out of range".
Proof.
  repeat split; vm_compute; reflexivity.
Qed.

(** C10 as stated fails when the third string does not parse: the
    [catch] clause answers before the branch on [a] and [b] is reached. *)
Lemma zero_zero_unparsed_c :
  stoi "0" = Return 0%Z ∧
  calculate_square_roots "0" "0" "x" = Return "(0 0 x) => invalid argument" ∧
  calculate_square_roots "0" "0" "x" ≠
    Return (echo "0" "0" "x" +:+ "(x ∈ R)").
Proof.
  repeat split; vm_compute; [reflexivity..|discriminate].
Qed.

(** C10, amended.  When the first two strings parse to [a = 0] and [b = 0]
    and the third parses to an integer [c], the result is the echo followed
    by "(x ∈ R)", whatever [c] is, zero or not. *)
Theorem zero_zero_any_x (a_str b_str c_str : string) (c : Z) :
  stoi a_str = Return 0%Z →
  stoi b_str = Return 0%Z →
  stoi c_str = Return c →
  calculate_square_roots a_str b_str c_str =
    Return (echo a_str b_str c_str +:+ "(x ∈ R)").
Proof.
  intros Ha Hb Hc.
  unfold calculate_square_roots, try_catch, mbind, throws_bind, mret, throws_ret.
  rewrite Ha, Hb, Hc. reflexivity.
Qed.

Lemma zero_zero_any_x_witness :
  calculate_square_roots "0" "0" "5" = Return ("(0 0 5) => " +:+ "(x ∈ R)").
Proof.
  exact (zero_zero_any_x "0" "0" "5" 5 eq_refl eq_refl eq_refl).
Defined.

(** C5, the job function on the three triples of the scenario, and the
    three [get_answer] calls of a pool of four workers that computes them
    in the order third, second, first: the second result prints the
    quotient [b / c = -0.5], not the root [2] of [2 x - 4 = 0]; the third
    prints "(x ∈ R)" although [0 = 5] has no solution. *)
Theorem end_to_end_job_results :
  calculate_square_roots "1" "-3" "2" = Return "(1 -3 2) => (1 2) Xmin=1.5" ∧
  calculate_square_roots "0" "2" "-4" = Return "(0 2 -4) => (-0.5)" ∧
  calculate_square_roots "0" "0" "5" = Return "(0 0 5) => (x ∈ R)" ∧
  Pool.answers <$> Pool.run Invariants.scenario_schedule (Pool.WorkerPool_new 4) =
    Some [Some "(1 -3 2) => (1 2) Xmin=1.5";
          Some "(0 2 -4) => (-0.5)";
          Some "(0 0 5) => (x ∈ R)"].
Proof.
  repeat split; vm_compute; reflexivity.
Qed.

End SolverProperties.

(** ** The pool *)

Section PoolProperties.

Import Solver Pool Invariants.

(** *** Invariants of schedules *)

(** A property that holds initially and that every step keeps holds after
    every schedule. *)
Lemma run_invariant (P : WorkerPool → Prop) :
  (∀ e s s', P s → step e s = Some s' → P s') →
  ∀ schedule s s', P s → run schedule s = Some s' → P s'.
Proof.
  intros Hstep schedule.
  induction schedule as [|e rest IH]; intros s s' HP Hrun; simpl in Hrun.
  - congruence.
  - destruct (step e s) as [s1|] eqn:He; [|discriminate].
    eapply IH; [|exact Hrun]. eapply Hstep; eauto.
Qed.

Lemma run_app (l1 l2 : list event) (s s1 : WorkerPool) (r : option WorkerPool) :
  run l1 s = Some s1 → run l2 s1 = r → run (l1 ++ l2) s = r.
Proof.
  revert s; induction l1 as [|e l1 IH]; intros s H1 H2; simpl in *.
  - congruence.
  - destruct (step e s); [eauto|discriminate].
Qed.

(** *** Single steps *)

Lemma run_cons e rest s s1 r :
  step e s = Some s1 → run rest s1 = r → run (e :: rest) s = r.
Proof.
  intros He Hr. simpl. now rewrite He.
Qed.

Lemma alive_owner s s' : owner s' = owner s → alive s = true → alive s' = true.
Proof.
  unfold alive. now intros ->.
Qed.

Lemma alive_not_destroyed s : owner s ≠ ODestroyed → alive s = true.
Proof.
  unfold alive. now destruct (owner s).
Qed.

Section Steps.

Variable s : WorkerPool.
Hypothesis Halive : alive s = true.

Lemma step_call_set_job job a :
  producer s = PIdle →
  step (call_set_job job a) s =
    Some (set_producer (PLockResults (job, a, length (shared s)))
           (set_shared (shared s ++ [None])
             (set_submitted (submitted s ++ [(job, a)]) s))).
Proof.
  intros Hp. unfold step, set_job. now rewrite Halive, Hp.
Qed.

Lemma step_PLockResults r pick :
  producer s = PLockResults r → m_results s = None →
  step (producer_step pick) s =
    Some (set_producer (PPushResult r) (set_m_results (Some Producer) s)).
Proof.
  intros Hp Hm. unfold step, set_job_step. now rewrite Halive, Hp, Hm.
Qed.

Lemma step_PPushResult r pick :
  producer s = PPushResult r →
  step (producer_step pick) s =
    Some (set_producer (PNotifyResults r)
           (set_m_results None (set_results (results s ++ [promise r]) s))).
Proof.
  intros Hp. unfold step, set_job_step. now rewrite Halive, Hp.
Qed.

Lemma step_PNotifyResults r pick :
  producer s = PNotifyResults r →
  step (producer_step pick) s =
    Some (set_producer (PLockJobs r)
           (set_consumer (consumer_notified (consumer s)) s)).
Proof.
  intros Hp. unfold step, set_job_step. now rewrite Halive, Hp.
Qed.

Lemma step_PLockJobs r pick :
  producer s = PLockJobs r → m_jobs s = None →
  step (producer_step pick) s =
    Some (set_producer (PPushJob r) (set_m_jobs (Some Producer) s)).
Proof.
  intros Hp Hm. unfold step, set_job_step. now rewrite Halive, Hp, Hm.
Qed.

Lemma step_PPushJob r pick :
  producer s = PPushJob r →
  step (producer_step pick) s =
    Some (set_producer (PNotifyJobs r)
           (set_m_jobs None (set_jobs (jobs s ++ [r]) s))).
Proof.
  intros Hp. unfold step, set_job_step. now rewrite Halive, Hp.
Qed.

Lemma step_PNotifyJobs r pick ws :
  producer s = PNotifyJobs r → notify_one_jobs pick (workers s) = Some ws →
  step (producer_step pick) s = Some (set_producer PIdle (set_workers ws s)).
Proof.
  intros Hp Hn. unfold step, set_job_step. now rewrite Halive, Hp, Hn.
Qed.

Lemma step_WWoken w wk :
  workers s !! w = Some wk → Worker_pc wk = WWoken → m_jobs s = None →
  step (worker_step w) s =
    Some (set_worker w (set_Worker_pc WWait wk)
           (set_m_jobs (Some (WorkerThread w)) s)).
Proof.
  intros Hw Hpc Hm. unfold step, Worker_step.
  rewrite Halive, Hw. simpl. now rewrite Hpc, Hm.
Qed.

Lemma step_WWait_true w wk :
  workers s !! w = Some wk → Worker_pc wk = WWait →
  Worker_stop_flag wk || negb (bool_decide (jobs s = [])) = true →
  step (worker_step w) s = Some (set_worker w (set_Worker_pc WCheck wk) s).
Proof.
  intros Hw Hpc Hpred. unfold step, Worker_step.
  rewrite Halive, Hw. simpl. now rewrite Hpc, Hpred.
Qed.

Lemma step_WCheck_break w wk :
  workers s !! w = Some wk → Worker_pc wk = WCheck →
  Worker_stop_flag wk && bool_decide (jobs s = []) = true →
  step (worker_step w) s =
    Some (set_worker w (set_Worker_pc WExited wk) (set_m_jobs None s)).
Proof.
  intros Hw Hpc Hbreak. unfold step, Worker_step.
  rewrite Halive, Hw. simpl. now rewrite Hpc, Hbreak.
Qed.

Lemma step_call_stop :
  owner s = OIdle →
  step call_stop s = Some (set_owner OStopNotify (set_stop_flag true s)).
Proof.
  intros Ho. unfold step, stop. now rewrite Halive, Ho.
Qed.

Lemma step_OStopNotify :
  owner s = OStopNotify →
  step owner_steps s =
    Some (set_owner OIdle (set_consumer (consumer_notified (consumer s)) s)).
Proof.
  intros Ho. unfold step, owner_step. now rewrite Halive, Ho.
Qed.

Lemma step_call_destructor :
  owner s = OIdle →
  step call_destructor s = Some (set_owner (ODtorStop 0) s).
Proof.
  intros Ho. unfold step, destroy. now rewrite Halive, Ho.
Qed.

Lemma step_ODtorStop i wk :
  owner s = ODtorStop i → workers s !! i = Some wk →
  step owner_steps s =
    Some (set_owner (ODtorStop (S i)) (set_worker i (Worker_stop wk) s)).
Proof.
  intros Ho Hw. unfold step, owner_step. now rewrite Halive, Ho, Hw.
Qed.

Lemma step_ODtorNotify i :
  owner s = ODtorStop i → workers s !! i = None →
  step owner_steps s =
    Some (set_owner (ODtorJoin 0)
           (set_workers (notify_all_jobs (workers s)) s)).
Proof.
  intros Ho Hw. unfold step, owner_step. now rewrite Halive, Ho, Hw.
Qed.

End Steps.

(** *** The jobs mutex *)

Lemma lock_discipline_step e s s' :
  lock_discipline s → step e s = Some s' → lock_discipline s'.
Proof.
  intros Hinv Hstep. step_cases Hstep.
  all: intros w' wk' Hw' Hm'; simpl in *.
  all: try (eapply Hinv; eassumption).
  all: try discriminate.
  all: worker_cases; simpl; try done.
  all: try (simplify_eq; eapply Hinv; eassumption).
  all: try (specialize (Hinv _ _ ltac:(eassumption) ltac:(eassumption));
            unfold is_blocked in *;
            destruct (Worker_pc _); simpl in *; congruence).
Qed.

(** C7.  After every schedule, a worker that is applying the job function
    or fulfilling the promise (line 74) does not hold the mutex of the job
    queue: the [unlock] of line 72 comes first in every iteration. *)
Theorem job_runs_without_the_jobs_mutex
    (n : nat) (schedule : list event) (s : WorkerPool) (w : nat) (wk : Worker) :
  run schedule (WorkerPool_new n) = Some s →
  workers s !! w = Some wk →
  runs_the_job (Worker_pc wk) = true →
  m_jobs s ≠ Some (WorkerThread w).
Proof.
  intros Hrun Hw Hpc Hm.
  assert (Hinv : lock_discipline s).
  { eapply run_invariant; [apply lock_discipline_step| |exact Hrun].
    intros w0 wk0 _ Hm0. discriminate. }
  specialize (Hinv w wk Hw Hm).
  destruct (Worker_pc wk); discriminate.
Qed.

(** Worker 0 of a pool of one is at line 74 with the mutex free. *)
Lemma job_runs_without_the_jobs_mutex_witness :
  ∃ s wk,
    run (runs_set_job join_args ("1", "-3", "2") 0 ++ takes_job 0)
        (WorkerPool_new 1) = Some s ∧
    workers s !! 0%nat = Some wk ∧
    runs_the_job (Worker_pc wk) = true ∧
    m_jobs s ≠ Some (WorkerThread 0).
Proof.
  do 2 eexists. split; [vm_compute; reflexivity|].
  split; [reflexivity|]. split; [reflexivity|].
  eapply (job_runs_without_the_jobs_mutex 1
            (runs_set_job join_args ("1", "-3", "2") 0 ++ takes_job 0));
    [vm_compute; reflexivity|reflexivity|reflexivity].
Defined.

(** *** Submission order *)

Lemma computes_app sub x p v : computes sub p v → computes (sub ++ [x]) p v.
Proof.
  intros (job & a & Hp & Hv). exists job, a. split; [|done].
  now apply lookup_app_l_Some.
Qed.

Lemma request_of_app sub x r : request_of sub r → request_of (sub ++ [x]) r.
Proof.
  unfold request_of. intros H. now apply lookup_app_l_Some.
Qed.

Lemma worker_ok_app sub x wk : worker_ok sub wk → worker_ok (sub ++ [x]) wk.
Proof.
  unfold worker_ok. destruct (Worker_pc wk); auto using computes_app, request_of_app.
Qed.

Lemma request_computes sub r v :
  request_of sub r → apply (func r) (args r) = Return v → computes sub (promise r) v.
Proof.
  intros Hr Hv. now exists (func r), (args r).
Qed.

Lemma values_snoc_None (l : list (option JobResult)) :
  omap id (l ++ [None]) = omap id l.
Proof.
  rewrite omap_app. simpl. apply app_nil_r.
Qed.

Lemma values_snoc_Some (l : list (option JobResult)) (v : JobResult) :
  omap id (l ++ [Some v]) = omap id l ++ [v].
Proof.
  now rewrite omap_app.
Qed.

(** The first future of a run of consecutive promises. *)
Lemma seq_head (x : nat) (rest : list nat) (k n : nat) :
  x :: rest = seq k n → x = k ∧ rest = seq (S k) (n - 1) ∧ (0 < n)%nat.
Proof.
  destruct n as [|n]; simpl; [discriminate|].
  intros [= -> ->]. rewrite Nat.sub_0_r. auto with lia.
Qed.

Lemma order_invariant_step e s s' :
  order_invariant s → step e s = Some s' → order_invariant s'.
Proof.
  intros [Hsh Hcnt Hfut Hready Hjobs Hworkers Hprod Hvals] Hstep.
  step_cases Hstep.
  all: repeat match goal with
       | H : workers _ !! _ = Some ?wk |- _ =>
           lazymatch goal with
           | _ : worker_ok _ wk |- _ => fail
           | _ => pose proof (Forall_lookup_1 _ _ _ _ Hworkers H)
           end
       end.
  all: split; unfold values, held, unpushed in *; simpl in *.
  all: try assumption.
  all: try match goal with H : producer _ = _ |- _ => rewrite H in *; simpl in * end.
  all: try match goal with H : consumer _ = _ |- _ => rewrite H in *; simpl in * end.
  all: try assumption.
  all: try match goal with
       | |- Forall _ (<[_ := _]> _) =>
           apply Forall_insert; [assumption|];
           unfold worker_ok in *; simpl;
           repeat match goal with H : Worker_pc _ = _ |- _ => rewrite H in * end
       | |- Forall _ (notify_all_jobs _) =>
           unfold notify_all_jobs; apply Forall_fmap;
           eapply Forall_impl; [eassumption|];
           intros wk; unfold worker_ok; simpl;
           destruct (Worker_pc wk); simpl; done
       end.
  all: try done.
  all: try (rewrite ?values_snoc_None in *; done).
  all: try (destruct (consumer s); simpl in *; done).
  all: try (rewrite <- ?app_assoc; simpl; rewrite ?app_nil_r in *; done).
  all: rewrite ?length_app, ?length_insert, ?values_snoc_Some in *; simpl in *.
  all: try lia.
  all: try (eapply Forall_impl; [eassumption|];
            auto using request_of_app, worker_ok_app).
  all: try (intros ? ? [[_ ?]|[_ ?]]%lookup_snoc_Some;
            [apply computes_app; auto | discriminate]).
  all: try (intros ? ? ?; apply computes_app; auto).
  all: try (eapply request_computes; eassumption).
  all: try (apply Forall_app; split; [assumption|];
            apply Forall_singleton; assumption).
  all: try match goal with
       | H : jobs _ = _ :: _ |- _ =>
           rewrite H in Hjobs; apply Forall_cons in Hjobs; tauto
       end.
  all: try (intros ? ? [(-> & [= <-] & _)|(_ & ?)]%list_lookup_insert_Some; auto).
  all: try match goal with
       | H : _ :: _ ++ _ = seq _ _ |- _ =>
           apply seq_head in H; destruct H as (-> & H & ?)
       end.
  all: rewrite ?length_app in *; simpl in *.
  all: try lia.
  all: try solve [apply Forall_cons in Hjobs; tauto].
  all: try solve [unfold request_of; simpl; apply list_lookup_middle; done].
  all: try solve [rewrite Hfut; f_equal; lia].
  all: try solve [intros ? ? [[_ ?]|[-> <-]]%lookup_snoc_Some; auto].
  all: try solve [unfold worker_ok in *;
                  repeat match goal with
                         | H : Worker_pc _ = _ |- _ => rewrite H in *
                         end; assumption].
  rewrite app_nil_r in Hfut. rewrite !app_assoc, Hfut.
  replace (length (submitted s) + 1 - length (omap id (answers s)))
    with (S (length (submitted s) - length (omap id (answers s)))) by lia.
  rewrite seq_S. do 2 f_equal. lia.
Qed.

Lemma order_invariant_new (n : nat) : order_invariant (WorkerPool_new n).
Proof.
  split; simpl; try done.
  apply Forall_replicate. exact I.
Qed.

Lemma answered_before_stop_step e s s' :
  answered_before_stop s → step e s = Some s' → answered_before_stop s'.
Proof.
  unfold answered_before_stop, values. intros Hinv Hstep.
  step_cases Hstep; simpl; try assumption; try discriminate.
  - intros Hstop. rewrite Hstop in *. discriminate.
  - intros Hstop. rewrite values_snoc_Some, fmap_app, <- Hinv; done.
Qed.

(** Where no empty optional came before, the [i]-th answer is the [i]-th
    value. *)
Lemma values_lookup (l : list (option JobResult)) (i : nat) (v : JobResult) :
  l !! i = Some (Some v) →
  (∀ j, (j < i)%nat → l !! j ≠ Some None) →
  omap id l !! i = Some v.
Proof.
  revert i. induction l as [|r l IH]; intros i Hi Hbefore; [done|].
  destruct i as [|i]; simpl in *.
  - injection Hi as ->. reflexivity.
  - destruct r as [x|].
    + simpl. apply IH; [done|].
      intros j Hj. apply (Hbefore (S j)). lia.
    + exfalso. apply (Hbefore 0%nat); [lia|done].
Qed.

(** C1.  After every schedule of a pool of any number of workers, whatever
    the order in which the workers computed the jobs: the [i]-th value
    [get_answer] has returned is what the [i]-th submitted job returns; the
    [i]-th [get_answer] call, if it and all calls before it returned a
    value, returned what the [i]-th submitted job returns; and as long as
    the stop signal has not been raised, every [get_answer] call that
    returned has returned a value. *)
Theorem results_in_submission_order
    (n : nat) (schedule : list event) (s : WorkerPool) :
  run schedule (WorkerPool_new n) = Some s →
  (∀ i v, values s !! i = Some v → computes (submitted s) i v) ∧
  (∀ i v, answers s !! i = Some (Some v) →
     (∀ j, (j < i)%nat → answers s !! j ≠ Some None) →
     computes (submitted s) i v) ∧
  (stop_flag s = false →
   ∀ i r, answers s !! i = Some r →
     ∃ v, r = Some v ∧ computes (submitted s) i v).
Proof.
  intros Hrun.
  assert (Hvalues : ∀ i v, values s !! i = Some v → computes (submitted s) i v).
  { apply (inv_values s).
    eapply run_invariant;
      [apply order_invariant_step|apply order_invariant_new|exact Hrun]. }
  assert (Hstop : answered_before_stop s).
  { eapply (run_invariant answered_before_stop);
      [apply answered_before_stop_step| |exact Hrun].
    intros _. reflexivity. }
  split; [exact Hvalues|split].
  - intros i v Hi Hbefore. apply Hvalues. now apply values_lookup.
  - intros Hflag i r Hi. rewrite (Hstop Hflag), list_lookup_fmap in Hi.
    apply fmap_Some in Hi as (v & Hv & ->). eauto.
Qed.

(** Two workers; the second job is computed first and returned second. *)
Lemma results_in_submission_order_witness :
  ∃ s,
    run out_of_order_schedule (WorkerPool_new 2) = Some s ∧
    answers s = [Some "1 -3 2"; Some "0 2 -4"] ∧
    (∀ i v, values s !! i = Some v → computes (submitted s) i v) ∧
    (∀ i v, answers s !! i = Some (Some v) →
       (∀ j, (j < i)%nat → answers s !! j ≠ Some None) →
       computes (submitted s) i v) ∧
    (stop_flag s = false →
     ∀ i r, answers s !! i = Some r →
       ∃ v, r = Some v ∧ computes (submitted s) i v).
Proof.
  eexists. split; [vm_compute; reflexivity|]. split; [vm_compute; reflexivity|].
  apply (results_in_submission_order 2 out_of_order_schedule).
  vm_compute; reflexivity.
Defined.

(** *** get_answer *)

Lemma check_invariant_step e s s' :
  check_invariant s → step e s = Some s' → check_invariant s'.
Proof.
  unfold check_invariant. intros Hinv Hstep.
  step_cases Hstep; simpl; try discriminate; try assumption.
  all: try solve [destruct (consumer s); simpl; done].
  all: try solve [intros Hc; destruct (Hinv Hc); auto; left;
                  intros [? _]%app_eq_nil; done].
  all: try solve [intros _; auto].
  all: try match goal with
       | H : negb (bool_decide (results _ = [])) || stop_flag _ = true |- _ =>
           apply orb_true_iff in H as [H|H]; [left|right; done];
           apply negb_true_iff, bool_decide_eq_false in H; done
       end.
Qed.

Lemma held_is_created (s : WorkerPool) (result : future_t) :
  order_invariant s → consumer s = CGet result →
  (result < length (shared s))%nat.
Proof.
  intros Hinv Hc. pose proof (inv_futures s Hinv) as Hfut.
  unfold held in Hfut. rewrite Hc in Hfut. simpl in Hfut.
  apply seq_head in Hfut as (-> & _ & ?).
  rewrite (inv_shared s Hinv). lia.
Qed.

(** After every schedule: at line 44 [get_answer] returns the empty
    optional exactly when the stop signal is raised and the result queue is
    empty, and otherwise takes the oldest future off the queue; at line 48
    it is blocked while that future's shared state is pending, and once the
    state is ready it returns its value, which is what the job of that
    promise computed; and no other step of the pool makes [get_answer]
    return. *)
Theorem get_answer_outcomes (n : nat) (schedule : list event) (s : WorkerPool) :
  run schedule (WorkerPool_new n) = Some s →
  (consumer s = CCheck →
     ∃ s', get_answer_step s = Some s' ∧
       if stop_flag s && bool_decide (results s = [])
       then consumer s' = CIdle ∧ answers s' = answers s ++ [None]
            ∧ results s' = results s
       else ∃ oldest rest,
              results s = oldest :: rest ∧ results s' = rest
              ∧ consumer s' = CGet oldest ∧ answers s' = answers s) ∧
  (∀ result, consumer s = CGet result →
     (shared s !! result = Some None ∧ get_answer_step s = None) ∨
     (∃ v s', shared s !! result = Some (Some v)
        ∧ computes (submitted s) result v
        ∧ get_answer_step s = Some s'
        ∧ consumer s' = CIdle ∧ answers s' = answers s ++ [Some v]
        ∧ results s' = results s)) ∧
  (∀ e s', step e s = Some s' →
     answers s' = answers s
     ∨ (consumer s = CCheck ∧ stop_flag s = true ∧ results s = []
        ∧ answers s' = answers s ++ [None])
     ∨ (∃ result v, consumer s = CGet result
          ∧ shared s !! result = Some (Some v)
          ∧ answers s' = answers s ++ [Some v])).
Proof.
  intros Hrun.
  assert (Hcheck : check_invariant s).
  { eapply run_invariant; [apply check_invariant_step| |exact Hrun].
    intros [=]. }
  assert (Horder : order_invariant s).
  { eapply run_invariant;
      [apply order_invariant_step|apply order_invariant_new|exact Hrun]. }
  split; [|split].
  - intros Hc. unfold get_answer_step. rewrite Hc.
    destruct (stop_flag s && bool_decide (results s = [])) eqn:Hret.
    + eexists. split; [reflexivity|]. simpl. auto.
    + destruct (results s) as [|oldest rest] eqn:Hres.
      * destruct (Hcheck Hc) as [?|Hstop]; [done|].
        rewrite Hstop in Hret. discriminate.
      * eexists. split; [reflexivity|]. simpl.
        exists oldest, rest. auto.
  - intros result Hc. unfold get_answer_step. rewrite Hc.
    pose proof (held_is_created s result Horder Hc) as Hlt.
    destruct (shared s !! result) as [[v|]|] eqn:Hv.
    + right. exists v. eexists. split; [done|].
      split; [exact (inv_ready s Horder _ _ Hv)|].
      split; [reflexivity|]. simpl. auto.
    + left. auto.
    + apply lookup_ge_None in Hv. lia.
  - intros e s' Hstep. step_cases Hstep; simpl; auto.
    + right; left.
      match goal with
      | H : _ && _ = true |- _ =>
          apply andb_true_iff in H as [? ?%bool_decide_eq_true]
      end. auto.
    + right; right. eauto.
Qed.

Lemma get_answer_outcomes_witness :
  ∃ s s',
    run check_schedule (WorkerPool_new 1) = Some s ∧
    consumer s = CCheck ∧
    get_answer_step s = Some s' ∧
    results s = [0%nat] ∧ results s' = [] ∧ consumer s' = CGet 0 ∧
    shared s' !! 0%nat = Some None ∧ get_answer_step s' = None.
Proof.
  pose proof (get_answer_outcomes 1 check_schedule) as Hthm.
  eexists. eexists.
  split; [vm_compute; reflexivity|].
  specialize (Hthm _ ltac:(vm_compute; reflexivity)) as (Hcheck & _ & _).
  split; [reflexivity|].
  destruct (Hcheck eq_refl) as (s' & Hstep & Hs').
  repeat split; vm_compute; reflexivity.
Defined.

(** *** set_job *)

(** [notify_one] always has a worker to pick. *)
Lemma notify_one_jobs_possible (ws : list Worker) :
  ∃ pick ws', notify_one_jobs pick ws = Some ws'.
Proof.
  induction ws as [|wk ws (pick & ws' & IH)].
  - exists 0%nat, []. reflexivity.
  - destruct (is_blocked wk) eqn:Hwk.
    + exists 0%nat. eexists. unfold notify_one_jobs. simpl. rewrite Hwk. reflexivity.
    + exists (S pick). unfold notify_one_jobs in *. simpl. rewrite Hwk. simpl.
      destruct (ws !! pick) as [wk'|]; [destruct (is_blocked wk')|];
        try destruct (existsb is_blocked ws); try discriminate; eauto.
Qed.

(** C4.  A [set_job] call that finds both mutexes free runs to its end by
    the producer's steps alone, in this order: it creates the promise, whose
    shared state [p] is pending; it pushes the future [p] on the result
    queue while the job queue is still as it was; then it pushes the job
    [(job, a, p)] on the job queue; and it returns with the shared state
    still pending, the job not computed. *)
Theorem set_job_order (s : WorkerPool) (job : JobFunc) (a : JobArgs) :
  alive s = true →
  producer s = PIdle →
  m_results s = None →
  m_jobs s = None →
  ∃ pick s1 s2,
    run [call_set_job job a; producer_step 0; producer_step 0] s = Some s1 ∧
    results s1 = results s ++ [length (shared s)] ∧
    jobs s1 = jobs s ∧
    shared s1 !! length (shared s) = Some None ∧
    run [producer_step 0; producer_step 0; producer_step 0; producer_step pick]
        s1 = Some s2 ∧
    results s2 = results s ++ [length (shared s)] ∧
    jobs s2 = jobs s ++ [(job, a, length (shared s))] ∧
    shared s2 !! length (shared s) = Some None ∧
    producer s2 = PIdle.
Proof.
  intros Halive Hp Hmr Hmj.
  destruct (notify_one_jobs_possible (workers s)) as (pick & ws' & Hpick).
  exists pick. eexists. eexists.
  split.
  { eapply run_cons; [by eapply step_call_set_job|].
    eapply run_cons; [by eapply step_PLockResults|].
    eapply run_cons; [by eapply step_PPushResult|].
    reflexivity. }
  do 3 (split; [first [reflexivity | apply list_lookup_middle; reflexivity]|]).
  split.
  { eapply run_cons; [by eapply step_PNotifyResults|].
    eapply run_cons; [by eapply step_PLockJobs|].
    eapply run_cons; [by eapply step_PPushJob|].
    eapply run_cons; [by eapply step_PNotifyJobs|].
    reflexivity. }
  repeat split; first [reflexivity | apply list_lookup_middle; reflexivity].
Qed.

Lemma set_job_order_witness :
  ∃ pick s1 s2,
    run [call_set_job join_args ("1", "-3", "2"); producer_step 0; producer_step 0]
        (WorkerPool_new 2) = Some s1 ∧
    results s1 = [0%nat] ∧ jobs s1 = [] ∧ shared s1 !! 0%nat = Some None ∧
    run [producer_step 0; producer_step 0; producer_step 0; producer_step pick]
        s1 = Some s2 ∧
    results s2 = [0%nat] ∧ jobs s2 = [(join_args, ("1", "-3", "2"), 0%nat)] ∧
    shared s2 !! 0%nat = Some None ∧ producer s2 = PIdle.
Proof.
  exact (set_job_order (WorkerPool_new 2) join_args ("1", "-3", "2")
           eq_refl eq_refl eq_refl eq_refl).
Defined.

(** *** Waking up and shutting down *)

(** The loop of [~WorkerPool] from worker [i] on, and its [notify_all]. *)
Lemma destructor_loop (k : nat) :
  ∀ s i,
    owner s = ODtorStop i →
    (i + k)%nat = length (workers s) →
    run (replicate (S k) owner_steps) s =
      Some (set_owner (ODtorJoin 0)
             (set_workers
                (notify_all_jobs
                   (take i (workers s) ++ (Worker_stop <$> drop i (workers s))))
                s)).
Proof.
  induction k as [|k IH]; intros s i Ho Hlen.
  - assert (Hi : workers s !! i = None) by (apply lookup_ge_None; lia).
    simpl replicate.
    eapply run_cons;
      [eapply step_ODtorNotify; eauto; apply alive_not_destroyed; congruence|].
    rewrite take_ge, drop_ge, app_nil_r by lia. reflexivity.
  - destruct (workers s !! i) as [wk|] eqn:Hi;
      [|apply lookup_ge_None in Hi; lia].
    change (replicate (S (S k)) owner_steps)
      with (owner_steps :: replicate (S k) owner_steps).
    eapply run_cons;
      [eapply step_ODtorStop; eauto; apply alive_not_destroyed; congruence|].
    rewrite (IH _ (S i)); [|reflexivity|simpl; rewrite length_insert; lia].
    f_equal. simpl workers.
    replace (take (S i) (<[i:=Worker_stop wk]> (workers s)) ++
             (Worker_stop <$> drop (S i) (<[i:=Worker_stop wk]> (workers s))))
      with (take i (workers s) ++ (Worker_stop <$> drop i (workers s))).
    { destruct s; reflexivity. }
    rewrite (take_S_r _ _ (Worker_stop wk))
      by (apply list_lookup_insert_eq; eauto using lookup_lt_Some).
    rewrite take_insert_ge, drop_insert_lt by lia.
    rewrite (drop_S _ _ _ Hi), fmap_cons, <- app_assoc. reflexivity.
Qed.

(** [~WorkerPool], lines 192-193: every worker's stop flag is raised, then
    every worker inside [wait(l)] is woken. *)
Lemma destructor_stops_and_wakes (s : WorkerPool) :
  owner s = OIdle →
  run (runs_destructor (length (workers s))) s =
    Some (set_owner (ODtorJoin 0)
           (set_workers (notify_all_jobs (Worker_stop <$> workers s)) s)).
Proof.
  intros Ho. unfold runs_destructor.
  eapply run_cons;
    [eapply step_call_destructor; eauto; apply alive_not_destroyed; congruence|].
  rewrite (destructor_loop (length (workers s)) _ 0); [|reflexivity..].
  destruct s; reflexivity.
Qed.

(** A worker blocked in the wait of line 59 is woken by the
    [notify_one] that ends a [set_job] call, after the job was pushed; and
    it is woken by [~WorkerPool], which raises its stop flag first.  Woken
    by the destructor with the job queue empty and the mutex free, its next
    three steps lock the mutex, find the predicate true and leave the loop
    by the [break] of line 62, the mutex released: the worker's thread ends
    instead of waiting again. *)
Theorem blocked_worker_wakes_up :
  (∀ s request pick wk,
     alive s = true →
     producer s = PNotifyJobs request →
     workers s !! pick = Some wk →
     Worker_pc wk = WBlocked →
     step (producer_step pick) s =
       Some (set_producer PIdle
              (set_worker pick (set_Worker_pc WWoken wk) s))) ∧
  (∀ s w wk,
     owner s = OIdle →
     workers s !! w = Some wk →
     Worker_pc wk = WBlocked →
     jobs s = [] →
     m_jobs s = None →
     ∃ s1 s2,
       run (runs_destructor (length (workers s))) s = Some s1 ∧
       workers s1 !! w =
         Some {| Worker_stop_flag := true; Worker_pc := WWoken |} ∧
       run (replicate 3 (worker_step w)) s1 = Some s2 ∧
       workers s2 !! w =
         Some {| Worker_stop_flag := true; Worker_pc := WExited |} ∧
       m_jobs s2 = None).
Proof.
  split.
  - intros s request pick wk Halive Hp Hw Hpc.
    eapply step_PNotifyJobs; [done..|].
    unfold notify_one_jobs, is_blocked. now rewrite Hw, Hpc.
  - intros s w wk Ho Hw Hpc Hjobs Hm.
    set (woken := {| Worker_stop_flag := true; Worker_pc := WWoken |}).
    set (ws1 := notify_all_jobs (Worker_stop <$> workers s)).
    assert (Hw1 : ws1 !! w = Some woken).
    { unfold ws1, notify_all_jobs. rewrite !list_lookup_fmap, Hw. simpl.
      unfold woken. now rewrite Hpc. }
    assert (Hlt : (w < length ws1)%nat) by eauto using lookup_lt_Some.
    do 2 eexists. split; [apply destructor_stops_and_wakes; exact Ho|].
    split; [simpl; exact Hw1|].
    split.
    + change (replicate 3 (worker_step w))
        with [worker_step w; worker_step w; worker_step w].
      eapply run_cons.
      { eapply step_WWoken with (wk := woken);
          [reflexivity|exact Hw1|reflexivity|exact Hm]. }
      eapply run_cons.
      { eapply step_WWait_true with (wk := set_Worker_pc WWait woken);
          [reflexivity| |reflexivity|reflexivity].
        apply list_lookup_insert_eq. exact Hlt. }
      eapply run_cons.
      { eapply step_WCheck_break with (wk := set_Worker_pc WCheck woken);
          [reflexivity| |reflexivity|].
        - apply list_lookup_insert_eq. simpl. now rewrite length_insert.
        - simpl. rewrite Hjobs. reflexivity. }
      reflexivity.
    + split; [|reflexivity].
      apply list_lookup_insert_eq. simpl. now rewrite !length_insert.
Qed.

Lemma blocked_worker_wakes_up_witness :
  run pushing_schedule (WorkerPool_new 1) = Some pushing_pool ∧
  step (producer_step 0) pushing_pool =
    Some (set_producer PIdle
           (set_worker 0 {| Worker_stop_flag := false; Worker_pc := WWoken |}
              pushing_pool)) ∧
  run waiting_schedule (WorkerPool_new 1) = Some waiting_pool ∧
  ∃ s1 s2,
    run (runs_destructor 1) waiting_pool = Some s1 ∧
    workers s1 !! 0%nat =
      Some {| Worker_stop_flag := true; Worker_pc := WWoken |} ∧
    run (replicate 3 (worker_step 0)) s1 = Some s2 ∧
    workers s2 !! 0%nat =
      Some {| Worker_stop_flag := true; Worker_pc := WExited |} ∧
    m_jobs s2 = None.
Proof.
  split; [vm_compute; reflexivity|].
  split.
  { exact (proj1 blocked_worker_wakes_up pushing_pool _ 0%nat _
             eq_refl eq_refl eq_refl eq_refl). }
  split; [vm_compute; reflexivity|].
  exact (proj2 blocked_worker_wakes_up waiting_pool 0%nat _
           eq_refl eq_refl eq_refl eq_refl eq_refl).
Defined.

Lemma join_invariant_step e s s' :
  join_invariant s → step e s = Some s' → join_invariant s'.
Proof.
  unfold join_invariant. intros Hinv Hstep.
  assert (Ha : alive s = true)
    by (unfold step in Hstep; destruct (alive s); done).
  unfold alive in Ha.
  destruct (owner s) eqn:Ho; try discriminate Ha; clear Ha.
  all: step_cases Hstep; simpl in *; rewrite ?Ho; try done.
  (* the pool is being joined: a worker that steps has not exited *)
  all: try solve
    [ intros w' wk' Hlt Hw'; worker_cases; simpl; unfold is_blocked in *;
      first
        [ solve [eauto]
        | exfalso;
          match goal with
          | H1 : workers _ !! ?x = Some ?y |- _ =>
              specialize (Hinv x y ltac:(lia) H1);
              destruct (Worker_pc y); congruence
          end ] ].
  - (* line 193: nobody is joined yet *)
    intros w' wk' Hlt. lia.
  - (* the joined worker has exited *)
    intros w' wk' Hlt Hw'.
    destruct (decide (w' = i)) as [->|]; [congruence|].
    apply (Hinv w' wk'); [lia|done].
  - (* all are joined *)
    apply Forall_lookup_2. intros w' wk' Hw'.
    apply (Hinv w' wk'); [|done].
    apply lookup_ge_None in H0. apply lookup_lt_Some in Hw'. lia.
Qed.

(** The worker of a pool of one waits for a job; then [stop] is called and
    returns.  The worker is still inside [wait(l)], its stop flag is not
    raised, and its thread has not ended. *)
Lemma stop_leaves_worker_blocked :
  ∃ s,
    run (waiting_schedule ++ runs_stop) (WorkerPool_new 1) = Some s ∧
    owner s = OIdle ∧
    stop_flag s = true ∧
    workers s = [{| Worker_stop_flag := false; Worker_pc := WBlocked |}].
Proof.
  eexists. split; [vm_compute; reflexivity|]. repeat split.
Qed.

(** C2, amended.  [WorkerPool::stop] raises the pool's stop flag, wakes the
    thread blocked on the result queue and returns; it leaves the workers,
    the job queue and both mutexes as they are.  [~WorkerPool] raises every
    worker's stop flag and then wakes every worker blocked on the job
    queue.  The pool is destroyed only after [thread.join()] has returned
    for every worker, which it does once the worker's thread has ended. *)
Theorem stop_and_destructor :
  (∀ s, owner s = OIdle →
     ∃ s', run runs_stop s = Some s' ∧
       stop_flag s' = true ∧
       consumer s' = consumer_notified (consumer s) ∧
       owner s' = OIdle ∧
       workers s' = workers s ∧ jobs s' = jobs s ∧ results s' = results s ∧
       m_jobs s' = m_jobs s ∧ m_results s' = m_results s) ∧
  (∀ s, owner s = OIdle →
     run (runs_destructor (length (workers s))) s =
       Some (set_owner (ODtorJoin 0)
              (set_workers (notify_all_jobs (Worker_stop <$> workers s)) s))) ∧
  (∀ n schedule s,
     run schedule (WorkerPool_new n) = Some s →
     owner s = ODestroyed →
     Forall (λ wk, Worker_pc wk = WExited) (workers s)).
Proof.
  split; [|split].
  - intros s Ho. eexists. split.
    + unfold runs_stop.
      eapply run_cons;
        [eapply step_call_stop; eauto; apply alive_not_destroyed; congruence|].
      eapply run_cons; [eapply step_OStopNotify; reflexivity|].
      reflexivity.
    + repeat split.
  - exact destructor_stops_and_wakes.
  - intros n schedule s Hrun Ho.
    assert (Hinv : join_invariant s).
    { eapply run_invariant; [apply join_invariant_step| |exact Hrun].
      exact I. }
    unfold join_invariant in Hinv. now rewrite Ho in Hinv.
Qed.

(** A pool of one whose worker waits: [stop] changes no worker; the
    destructor raises the flag and wakes the worker; the worker leaves its
    loop; both joins return and the pool is destroyed. *)
Lemma stop_and_destructor_witness :
  run waiting_schedule (WorkerPool_new 1) = Some waiting_pool ∧
  (∃ s', run runs_stop waiting_pool = Some s' ∧
     stop_flag s' = true ∧ workers s' = workers waiting_pool) ∧
  run (runs_destructor 1) waiting_pool =
    Some (set_owner (ODtorJoin 0)
           (set_workers [{| Worker_stop_flag := true; Worker_pc := WWoken |}]
              waiting_pool)) ∧
  Forall (λ wk, Worker_pc wk = WExited)
    [{| Worker_stop_flag := true; Worker_pc := WExited |}].
Proof.
  split; [vm_compute; reflexivity|].
  destruct stop_and_destructor as (Hstop & Hdtor & Hjoin).
  split.
  { destruct (Hstop waiting_pool eq_refl) as (s' & Hrun & Hflag & _ & _ & Hws & _).
    exists s'. auto. }
  split; [exact (Hdtor waiting_pool eq_refl)|].
  exact (Hjoin 1%nat
           (waiting_schedule ++ runs_destructor 1
            ++ replicate 3 (worker_step 0) ++ [owner_steps; owner_steps])
           _ ltac:(vm_compute; reflexivity) eq_refl).
Defined.

(** *** The number of workers *)

(** C9, amended.  A pool constructed without a count has as many workers
    as the host's hardware parallelism: the default argument is
    [nthreads] itself. *)
Theorem default_worker_count (hardware_concurrency : nat) :
  length (workers (WorkerPool_ctor hardware_concurrency None)) =
    hardware_concurrency.
Proof.
  unfold WorkerPool_ctor, WorkerPool_new, nthreads. simpl.
  apply length_replicate.
Qed.

(** On a host of four hardware threads the default pool has four workers,
    not three. *)
Lemma default_worker_count_is_not_one_less :
  length (workers (WorkerPool_ctor 4 None)) ≠ (4 - 1)%nat.
Proof.
  vm_compute. discriminate.
Qed.

(** [main] passes its own count, two less than the hardware parallelism
    (in [unsigned] arithmetic). *)
Lemma main_worker_count (hardware_concurrency : nat) :
  (2 ≤ hardware_concurrency)%nat →
  (Z.of_nat hardware_concurrency < 2 ^ 32)%Z →
  length (workers (main_pool hardware_concurrency)) =
    (hardware_concurrency - 2)%nat.
Proof.
  intros Hlo Hhi.
  unfold main_pool, WorkerPool_ctor, WorkerPool_new, nthreads, unsigned_sub.
  simpl. rewrite length_replicate.
  rewrite Z.mod_small by lia. lia.
Qed.

(** *** Every job can be answered *)

Lemma nobody_blocked (n : nat) :
  existsb is_blocked (replicate n Worker_new) = false.
Proof.
  induction n as [|n IH]; simpl; auto.
Qed.

Local Opaque apply.

(** One round takes a quiet pool to a quiet pool with one more job
    submitted and its result returned. *)
Lemma round_quiet (n : nat) (sub : list (JobFunc * JobArgs))
    (vals : list JobResult) (job : JobFunc) (a : JobArgs) (v : JobResult) :
  apply job a = Return v →
  run (round job a) (quiet (S n) sub vals) =
    Some (quiet (S n) (sub ++ [(job, a)]) (vals ++ [v])).
Proof.
  intros Hv. unfold round, runs_set_job, takes_job, runs_job, runs_get_answer.
  simpl app. unfold quiet.
  assert (Hpending : ((Some <$> vals) ++ [@None JobResult])
                       !! (length (Some <$> vals) : promise_t) = Some None)
    by (apply list_lookup_middle; reflexivity).
  assert (Hready : ((Some <$> vals) ++ [Some v])
                     !! (length (Some <$> vals) : future_t) = Some (Some v))
    by (apply list_lookup_middle; reflexivity).
  (* set_job *)
  do 6 (eapply run_cons; [unfold step; simpl; reflexivity|flat_state]).
  eapply run_cons; [|flat_state].
  { eapply step_PNotifyJobs; [reflexivity..|].
    unfold notify_one_jobs. simpl. now rewrite (nobody_blocked n). }
  (* the worker loop, lines 57-72 *)
  do 4 (eapply run_cons; [unfold step; simpl; reflexivity|flat_state]).
  (* line 74 *)
  eapply run_cons; [|flat_state].
  { unfold step, Worker_step. simpl. unfold func, args, promise. simpl.
    rewrite Hv. reflexivity. }
  eapply run_cons; [|flat_state].
  { unfold step, Worker_step. simpl.
    rewrite Hpending.
    rewrite (insert_app_r_alt (Some <$> vals) [None]), Nat.sub_diag
      by reflexivity.
    reflexivity. }
  (* get_answer *)
  do 4 (eapply run_cons; [unfold step; simpl; reflexivity|flat_state]).
  eapply run_cons; [|flat_state].
  { unfold step, get_answer_step. simpl.
    rewrite Hready. reflexivity. }
  simpl. rewrite !fmap_app. reflexivity.
Qed.

Local Transparent apply.

Lemma rounds_quiet (n : nat) (js : list (JobFunc * JobArgs))
    (vals : list JobResult) :
  Forall2 (λ request v, apply request.1 request.2 = Return v) js vals →
  ∀ sub vals0,
    run (sequential js) (quiet (S n) sub vals0) =
      Some (quiet (S n) (sub ++ js) (vals0 ++ vals)).
Proof.
  induction 1 as [|[job a] v js vals Hv _ IH]; intros sub vals0.
  - now rewrite !app_nil_r.
  - unfold sequential. rewrite bind_cons. simpl fst; simpl snd.
    eapply run_app; [apply round_quiet; exact Hv|].
    rewrite IH, <- !app_assoc. reflexivity.
Qed.

(** With at least one worker, every list of jobs that return values has a
    schedule in which every job is submitted and every [get_answer] call
    returns: the answers are the jobs' values in submission order, and
    producer and consumer are back outside their calls. *)
Theorem every_job_is_answered (n : nat) (js : list (JobFunc * JobArgs))
    (vals : list JobResult) :
  Forall2 (λ request v, apply request.1 request.2 = Return v) js vals →
  ∃ schedule s,
    run schedule (WorkerPool_new (S n)) = Some s ∧
    submitted s = js ∧
    answers s = Some <$> vals ∧
    producer s = PIdle ∧ consumer s = CIdle.
Proof.
  intros Hjs. exists (sequential js), (quiet (S n) js vals).
  split; [|done].
  exact (rounds_quiet n js vals Hjs [] []).
Qed.

Lemma every_job_is_answered_witness :
  ∃ schedule s,
    run schedule (WorkerPool_new 1) = Some s ∧
    submitted s = [(join_args, ("1", "-3", "2")); (join_args, ("0", "2", "-4"))] ∧
    answers s = Some <$> ["1 -3 2"; "0 2 -4"] ∧
    producer s = PIdle ∧ consumer s = CIdle.
Proof.
  apply (every_job_is_answered 0
           [(join_args, ("1", "-3", "2")); (join_args, ("0", "2", "-4"))]).
  repeat constructor.
Defined.

(** *** No undefined behaviour *)

Lemma jobs_mutex_invariant_step e s s' :
  jobs_mutex_invariant s → step e s = Some s' → jobs_mutex_invariant s'.
Proof.
  intros [Hw Hp Hf] Hstep.
  step_cases Hstep.
  all: split; simpl.
  all: try assumption.
  all: intros; worker_cases; simpl in *.
  all: repeat match goal with
       | H : workers _ !! ?x = Some ?y |- _ =>
           lazymatch goal with
           | _ : holds_m_jobs (Worker_pc y) = true
                 → _ = Some (WorkerThread x) |- _ => fail
           | _ => pose proof (Hw x y H); pose proof (Hf x y H)
           end
       end.
  all: repeat match goal with
       | H : producer _ = _ |- _ => pose proof (Hp _ H); clear H
       end.
  all: unfold is_blocked in *.
  all: repeat match goal with
       | H : Worker_pc ?y = _ |- _ => rewrite H in *
       end; simpl in *.
  all: try solve [intuition congruence].
  all: try solve [eauto].
  - (* line 34: the producer was the holder *)
    pose proof (Hp _ eq_refl). intuition congruence.
  - (* line 33: the queue grows *)
    right. intros [_ [=]]%app_eq_nil.
  - (* line 59: the predicate is true *)
    match goal with
    | H : _ || _ = true |- _ => apply orb_true_iff in H as [?|Hne]
    end; [by left|right].
    by apply negb_true_iff, bool_decide_eq_false in Hne.
  - (* notify_all changes no holder *)
    destruct (Worker_pc x); simpl in *; intuition congruence.
  - destruct (Worker_pc x); simpl in *; intuition congruence.
Qed.

Lemma jobs_mutex_invariant_new (n : nat) :
  jobs_mutex_invariant (WorkerPool_new n).
Proof.
  split; simpl.
  - intros w wk [-> _]%lookup_replicate. discriminate.
  - discriminate.
  - intros w wk [-> _]%lookup_replicate. discriminate.
Qed.

(** The promises of the workers around worker [w]. *)
Lemma worker_tokens_split (ws : list Worker) (w : nat) (wk : Worker) :
  ws !! w = Some wk →
  ∃ before after,
    ws ≫= worker_tokens = before ++ worker_tokens wk ++ after ∧
    ∀ wk', <[w := wk']> ws ≫= worker_tokens
           = before ++ worker_tokens wk' ++ after.
Proof.
  intros Hw.
  exists (take w ws ≫= worker_tokens), (drop (S w) ws ≫= worker_tokens).
  split.
  - rewrite <- (take_drop_middle ws w wk Hw) at 1.
    now rewrite bind_app, bind_cons.
  - intros wk'. rewrite insert_take_drop by eauto using lookup_lt_Some.
    now rewrite bind_app, bind_cons.
Qed.

Lemma worker_tokens_notified (ws : list Worker) :
  notify_all_jobs ws ≫= worker_tokens = ws ≫= worker_tokens.
Proof.
  unfold notify_all_jobs.
  induction ws as [|wk ws IH]; [done|].
  simpl map. rewrite !bind_cons, IH. f_equal.
  unfold worker_tokens. simpl. now destruct (Worker_pc wk).
Qed.

Lemma NoDup_without (x : promise_t) (l l' : list promise_t) :
  l ≡ₚ x :: l' → NoDup l → x ∉ l'.
Proof.
  intros Hperm Hnd. rewrite Hperm in Hnd.
  now apply NoDup_cons in Hnd as [? _].
Qed.

Lemma promise_invariant_step e s s' :
  promise_invariant s → step e s = Some s' → promise_invariant s'.
Proof.
  intros [Hnd Hpend] Hstep. unfold tokens in *.
  step_cases Hstep.
  all: repeat match goal with
       | H : workers _ !! _ = Some _ |- _ =>
           apply worker_tokens_split in H as (before & after & Hold & Hnew)
       end.
  all: split; unfold tokens; simpl.
  all: rewrite ?worker_tokens_notified, ?Hnew; unfold worker_tokens in *; simpl.
  all: repeat match goal with
       | H : Worker_pc _ = _ |- _ => rewrite H in *
       end; simpl in *.
  all: repeat match goal with
       | H : producer _ = _ |- _ => rewrite H in *
       end; simpl in *.
  all: unfold is_blocked in *.
  all: try match goal with
       | H : match Worker_pc ?w with _ => _ end = true |- _ =>
           destruct (Worker_pc w); try discriminate H
       end; simpl in *.
  all: rewrite ?Hold in *.
  all: try assumption.
  - (* lines 22-23: a new promise *)
    apply NoDup_cons. split; [|assumption].
    intros Hin. apply Hpend in Hin.
    apply lookup_lt_Some in Hin. lia.
  - intros p [->|Hin]%elem_of_cons.
    + now apply list_lookup_middle.
    + apply lookup_app_l_Some. auto.
  - (* line 33: from the producer to the job queue *)
    rewrite fmap_app. simpl.
    eapply NoDup_Permutation_proper; [|exact Hnd]. solve_Permutation.
  - intros p Hin. apply Hpend.
    rewrite fmap_app in Hin. simpl in Hin.
    eapply elem_of_Permutation_proper; [|exact Hin]. solve_Permutation.
  - (* lines 65-71: from the job queue to the worker *)
    eapply NoDup_Permutation_proper; [|exact Hnd]. solve_Permutation.
  - intros p Hin. apply Hpend.
    eapply elem_of_Permutation_proper; [|exact Hin]. solve_Permutation.
  - (* line 74: the promise is fulfilled and gone *)
    match goal with
    | |- NoDup ?new =>
        assert (Hperm : p :: new ≡ₚ
                  producer_tokens (producer s) ++ (promise <$> jobs s)
                    ++ before ++ p :: after) by solve_Permutation
    end.
    rewrite <- Hperm in Hnd. now apply NoDup_cons in Hnd as [_ ?].
  - intros q Hin.
    assert (Hq : p ≠ q).
    { intros ->. revert Hin. eapply NoDup_without; [|exact Hnd].
      solve_Permutation. }
    rewrite list_lookup_insert_ne by done.
    apply Hpend.
    eapply elem_of_submseteq; [exact Hin|]. solve_submseteq.
Qed.

Lemma promise_invariant_new (n : nat) : promise_invariant (WorkerPool_new n).
Proof.
  assert (Hnone : replicate n Worker_new ≫= worker_tokens = []).
  { induction n as [|n IH]; [done|].
    simpl replicate. now rewrite bind_cons, IH. }
  split; unfold tokens; simpl; rewrite Hnone.
  - constructor.
  - intros p Hin. inversion Hin.
Qed.

(** A step of the worker loop or of [get_answer] is undefined only where
    the thread has to wait or has ended: for the mutex, inside [wait(l)],
    for the shared state to become ready, after the [break]; or where the
    job function throws.  In particular no reachable state lets
    [jobs.front()] or [results.front()] meet an empty queue, and none lets
    [set_value] meet a promise that is already fulfilled. *)
Theorem threads_only_wait (n : nat) (schedule : list event) (s : WorkerPool) :
  run schedule (WorkerPool_new n) = Some s →
  (∀ w wk, workers s !! w = Some wk → Worker_step w s = None →
     match Worker_pc wk with
     | WLock | WWoken => m_jobs s ≠ None
     | WBlocked | WExited => True
     | WApply job => ∃ e, apply (func job) (args job) = Throw e
     | _ => False
     end) ∧
  (get_answer_step s = None →
     match consumer s with
     | CLock | CWoken => m_results s ≠ None
     | CIdle | CBlocked => True
     | CGet result => shared s !! result = Some None
     | _ => False
     end).
Proof.
  intros Hrun.
  assert (Hmutex : jobs_mutex_invariant s).
  { eapply run_invariant;
      [apply jobs_mutex_invariant_step|apply jobs_mutex_invariant_new|exact Hrun]. }
  assert (Hpromise : promise_invariant s).
  { eapply run_invariant;
      [apply promise_invariant_step|apply promise_invariant_new|exact Hrun]. }
  assert (Hcheck : check_invariant s).
  { eapply run_invariant; [apply check_invariant_step| |exact Hrun].
    intros [=]. }
  assert (Horder : order_invariant s).
  { eapply run_invariant;
      [apply order_invariant_step|apply order_invariant_new|exact Hrun]. }
  split.
  - intros w wk Hw Hnone. unfold Worker_step in Hnone.
    rewrite Hw in Hnone. simpl in Hnone.
    destruct (Worker_pc wk) as [| | | | | |job|job|p v|] eqn:Hpc;
      try done.
    + destruct (m_jobs s); [done|discriminate].
    + destruct (Worker_stop_flag wk || negb (bool_decide (jobs s = [])));
        discriminate.
    + destruct (m_jobs s); [done|discriminate].
    + destruct (front_safe s Hmutex w wk Hw Hpc) as [Hstop|Hne].
      * rewrite Hstop in Hnone. simpl in Hnone.
        destruct (jobs s); simpl in Hnone; discriminate.
      * destruct (jobs s); [done|].
        rewrite andb_false_r in Hnone. discriminate.
    + destruct (apply (func job) (args job)) as [v|e]; [discriminate|eauto].
    + assert (Hin : p ∈ tokens s).
      { unfold tokens. do 2 (apply elem_of_app; right).
        apply list_elem_of_bind. exists wk. split.
        - unfold worker_tokens. rewrite Hpc. apply list_elem_of_singleton. done.
        - eapply list_elem_of_lookup_2; eauto. }
      rewrite (tokens_pending s Hpromise p Hin) in Hnone. discriminate.
  - intros Hnone. unfold get_answer_step in Hnone.
    destruct (consumer s) as [| | | | | | |result] eqn:Hc; try done.
    + destruct (m_results s); [done|discriminate].
    + destruct (negb (bool_decide (results s = [])) || stop_flag s);
        discriminate.
    + destruct (m_results s); [done|discriminate].
    + destruct (Hcheck Hc) as [Hne|Hstop].
      * destruct (results s); [done|].
        rewrite andb_false_r in Hnone. discriminate.
      * rewrite Hstop in Hnone. simpl in Hnone.
        destruct (results s); simpl in Hnone; discriminate.
    + pose proof (held_is_created s result Horder Hc) as Hlt.
      destruct (shared s !! result) as [[v|]|] eqn:Hv; [discriminate|done|].
      apply lookup_ge_None in Hv. lia.
Qed.

(** The producer holds the mutex of the job queue: the worker's lock of
    line 57 has to wait. *)
Lemma threads_only_wait_witness :
  ∃ s,
    run locked_schedule (WorkerPool_new 1) = Some s ∧
    Worker_step 0 s = None ∧
    m_jobs s = Some Producer ∧
    m_jobs s ≠ None.
Proof.
  eexists. split; [vm_compute; reflexivity|].
  split; [vm_compute; reflexivity|]. split; [reflexivity|].
  exact (proj1 (threads_only_wait 1 locked_schedule _
                  ltac:(vm_compute; reflexivity))
           0%nat Worker_new eq_refl ltac:(vm_compute; reflexivity)).
Defined.

(** *** get_answer and stop *)

Lemma waits_unnotified_step e s s' :
  waits_unnotified s →
  e ≠ spurious_wakeup Consumer → e ≠ call_stop →
  (∀ job a, e ≠ call_set_job job a) →
  step e s = Some s' →
  waits_unnotified s' ∧ answers s' = answers s ∧ results s' = results s
  ∧ stop_flag s' = stop_flag s.
Proof.
  unfold waits_unnotified. intros (Hc & Hp & Ho) Hne1 Hne2 Hne3 Hstep.
  step_cases Hstep; simpl; rewrite ?Hc, ?Hp in *; try congruence.
  all: try solve [repeat split; congruence].
  all: try solve [exfalso; eapply Hne3; reflexivity].
Qed.

Lemma waits_unnotified_run schedule :
  ∀ s s', waits_unnotified s → leaves_consumer_alone schedule →
    run schedule s = Some s' →
    waits_unnotified s' ∧ answers s' = answers s ∧ results s' = results s
    ∧ stop_flag s' = stop_flag s.
Proof.
  induction schedule as [|e rest IH]; intros s s' Hw Halone Hrun;
    simpl in Hrun.
  - injection Hrun as <-. auto.
  - destruct (step e s) as [s1|] eqn:He; [|discriminate].
    apply Forall_cons in Halone as ((Hne1 & Hne2 & Hne3) & Halone).
    destruct (waits_unnotified_step _ _ _ Hw Hne1 Hne2 Hne3 He)
      as (Hw1 & Ha1 & Hr1 & Hs1).
    destruct (IH _ _ Hw1 Halone Hrun) as (Hw' & Ha' & Hr' & Hs').
    repeat split; try apply Hw'; congruence.
Qed.

(** C3.  [get_answer] and [stop] on an empty result queue.  A [get_answer]
    call made after [stop] has returned locks the mutex, finds its
    predicate true and returns the empty optional at line 44.  A call that
    is inside [wait(l)] when [stop] runs is woken by the [notify_all],
    locks, finds the predicate true and returns the empty optional.  But
    [stop] stores the flag and notifies without holding [m_results]: when
    it runs after [get_answer] has found its predicate false and before
    [get_answer] has entered [wait(l)], the notification finds nobody
    waiting, and the next step of [get_answer] puts it inside the wait
    with the stop flag raised and the result queue empty.  From there, as
    long as nobody calls [set_job] or [stop] again and the wait does not
    wake spuriously, [get_answer] stays inside the wait and returns
    nothing, whatever the other threads do. *)
Theorem get_answer_and_stop :
  (∀ s, owner s = OIdle → consumer s = CIdle → m_results s = None →
     results s = [] →
     ∃ s', run stop_then_get_answer s = Some s' ∧
       consumer s' = CIdle ∧ answers s' = answers s ++ [None]) ∧
  (∀ s, owner s = OIdle → consumer s = CBlocked → m_results s = None →
     results s = [] →
     ∃ s', run stop_wakes_get_answer s = Some s' ∧
       consumer s' = CIdle ∧ answers s' = answers s ++ [None]) ∧
  (∀ s, owner s = OIdle → consumer s = CSleep → results s = [] →
     ∃ s', run stop_before_wait s = Some s' ∧
       stop_flag s' = true ∧ results s' = [] ∧ owner s' = OIdle ∧
       consumer s' = CBlocked ∧ answers s' = answers s ∧
       producer s' = producer s) ∧
  (∀ schedule s s', waits_unnotified s → leaves_consumer_alone schedule →
     run schedule s = Some s' →
     consumer s' = CBlocked ∧ answers s' = answers s ∧
     results s' = results s ∧ stop_flag s' = stop_flag s).
Proof.
  split; [|split; [|split]].
  - intros [res js mj mr ws sf sh pr co ow sub ans] Ho Hc Hm Hres.
    simpl in *. subst.
    eexists. split; [vm_compute; reflexivity|]. split; reflexivity.
  - intros [res js mj mr ws sf sh pr co ow sub ans] Ho Hc Hm Hres.
    simpl in *. subst.
    eexists. split; [vm_compute; reflexivity|]. split; reflexivity.
  - intros [res js mj mr ws sf sh pr co ow sub ans] Ho Hc Hres.
    simpl in *. subst.
    eexists. split; [vm_compute; reflexivity|]. repeat split.
  - intros schedule s s' Hw Halone Hrun.
    destruct (waits_unnotified_run schedule s s' Hw Halone Hrun)
      as ((Hc & _) & Ha & Hr & Hs).
    auto.
Qed.

(** On a new pool of one worker: [get_answer] tests its predicate, [stop]
    runs and returns, [get_answer] enters the wait; the worker then runs
    until it waits too, and [get_answer] has still returned nothing. *)
Lemma get_answer_and_stop_witness :
  ∃ s s' s'',
    run consumer_about_to_wait (WorkerPool_new 1) = Some s ∧
    consumer s = CSleep ∧
    run stop_before_wait s = Some s' ∧
    stop_flag s' = true ∧ results s' = [] ∧ consumer s' = CBlocked ∧
    run waiting_schedule s' = Some s'' ∧
    consumer s'' = CBlocked ∧ answers s'' = [] ∧ stop_flag s'' = true ∧
    get_answer_step s'' = None.
Proof.
  destruct get_answer_and_stop as (_ & _ & Hmiss & Hstay).
  eexists. eexists. eexists.
  split; [vm_compute; reflexivity|].
  split; [reflexivity|].
  split; [vm_compute; reflexivity|].
  split; [reflexivity|]. split; [reflexivity|]. split; [reflexivity|].
  split; [vm_compute; reflexivity|].
  match goal with
  | |- consumer ?s'' = _ ∧ _ =>
      destruct (Hstay waiting_schedule
                  (set_consumer CBlocked (set_stop_flag true (WorkerPool_new 1)))
                  s'') as (Hc & Ha & _ & Hs)
  end.
  - repeat split; discriminate.
  - repeat constructor; discriminate.
  - vm_compute; reflexivity.
  - split; [exact Hc|]. split; [exact Ha|]. split; [exact Hs|].
    vm_compute; reflexivity.
Defined.

(** *** The empty optional *)

(** After every schedule, a step makes [get_answer] return the empty
    optional only at line 44, with the stop flag raised and the result
    queue empty; and then every job whose future [set_job] has pushed has
    had its value returned: the values returned so far and the one future a
    running [set_job] call has not pushed yet account for all the jobs
    submitted.  In particular, when no [set_job] call is running, as many
    values have been returned as jobs were submitted. *)
Theorem empty_optional_means_drained
    (n : nat) (schedule : list event) (s s' : WorkerPool) (e : event) :
  run schedule (WorkerPool_new n) = Some s →
  step e s = Some s' →
  answers s' = answers s ++ [None] →
  e = consumer_step ∧ consumer s = CCheck ∧ stop_flag s = true ∧ results s = [] ∧
  (length (values s) + length (unpushed s) = length (submitted s))%nat ∧
  (producer s = PIdle → length (values s) = length (submitted s)).
Proof.
  intros Hrun Hstep Hanswers.
  assert (Horder : order_invariant s).
  { eapply run_invariant;
      [apply order_invariant_step|apply order_invariant_new|exact Hrun]. }
  pose proof (inv_futures s Horder) as Hfut.
  pose proof (inv_count s Horder) as Hcnt.
  assert (Hgrow : answers s ≠ answers s ++ [None]).
  { intros Heq. apply (f_equal length) in Heq.
    rewrite length_app in Heq. simpl in Heq. lia. }
  revert Hanswers. step_cases Hstep; simpl; intros Hanswers; try done.
  - match goal with
    | H : _ && _ = true |- _ =>
        apply andb_true_iff in H as [Hstop Hempty%bool_decide_eq_true]
    end.
    unfold held in Hfut.
    match goal with H : consumer _ = _ |- _ => rewrite H in Hfut end.
    rewrite Hempty in Hfut. simpl in Hfut.
    apply (f_equal length) in Hfut. rewrite length_seq in Hfut.
    repeat split; try done; [lia|].
    intros Hp. unfold unpushed in Hfut. rewrite Hp in Hfut. simpl in Hfut. lia.
  - apply app_inj_tail in Hanswers as [_ [=]].
Qed.

Lemma empty_optional_means_drained_witness :
  ∃ s s',
    run drained_schedule (WorkerPool_new 2) = Some s ∧
    step consumer_step s = Some s' ∧
    answers s' = [Some "1 -3 2"; Some "0 2 -4"; None] ∧
    stop_flag s = true ∧ results s = [] ∧
    length (values s) = length (submitted s).
Proof.
  pose proof (empty_optional_means_drained 2 drained_schedule) as Hthm.
  eexists. eexists.
  split; [vm_compute; reflexivity|].
  split; [vm_compute; reflexivity|].
  split; [reflexivity|].
  specialize (Hthm _ _ consumer_step ltac:(vm_compute; reflexivity)
                ltac:(vm_compute; reflexivity) eq_refl)
    as (_ & _ & Hstop & Hempty & _ & Hall).
  split; [exact Hstop|]. split; [exact Hempty|]. exact (Hall eq_refl).
Defined.

(** *** What never changes back *)

Lemma permanent_step e s s' :
  step e s = Some s' →
  length (workers s') = length (workers s) ∧
  (stop_flag s = true → stop_flag s' = true) ∧
  ∀ w wk, workers s !! w = Some wk →
    ∃ wk', workers s' !! w = Some wk' ∧
      (Worker_stop_flag wk = true → Worker_stop_flag wk' = true) ∧
      (Worker_pc wk = WExited → Worker_pc wk' = WExited).
Proof.
  intros Hstep. step_cases Hstep; simpl.
  all: rewrite ?length_insert; unfold notify_all_jobs; rewrite ?length_map.
  all: split; [reflexivity|]. 
  all: split; [auto|].
  all: intros w' wk' Hw'.
  all: try solve [eauto].
  all: try match goal with
       | |- context [<[?i := _]> _ !! ?j] =>
           destruct (decide (i = j)) as [->|?];
           [rewrite list_lookup_insert_eq by eauto using lookup_lt_Some
           |rewrite list_lookup_insert_ne by done; solve [eauto]]
       end.
  all: unfold is_blocked in *.
  all: try (eexists; split; [reflexivity|]; simpl; split; [congruence|];
            simplify_eq; congruence).
  - simplify_eq. eexists. split; [reflexivity|]. simpl.
    split; [done|]. intros Hpc. rewrite Hpc in *. discriminate.
  - change (map ?f ?l) with (f <$> l).
    rewrite list_lookup_fmap, Hw'. simpl.
    eexists. split; [reflexivity|]. simpl. split; [done|].
    now intros ->.
  - simplify_eq. eexists. split; [reflexivity|]. simpl.
    split; [done|]. intros Hpc. rewrite Hpc in *. discriminate.
Qed.

(** From any state and along any schedule: the pool keeps its number of
    workers; the pool's stop flag, once raised, stays raised; a worker's
    stop flag, once raised, stays raised; and a worker whose thread
    function has returned takes no further step. *)
Theorem stop_is_permanent (schedule : list event) (s s' : WorkerPool) :
  run schedule s = Some s' →
  length (workers s') = length (workers s) ∧
  (stop_flag s = true → stop_flag s' = true) ∧
  ∀ w wk, workers s !! w = Some wk →
    ∃ wk', workers s' !! w = Some wk' ∧
      (Worker_stop_flag wk = true → Worker_stop_flag wk' = true) ∧
      (Worker_pc wk = WExited → Worker_pc wk' = WExited).
Proof.
  revert s. induction schedule as [|e rest IH]; intros s Hrun; simpl in Hrun.
  - injection Hrun as <-. split; [done|]. split; [done|]. eauto.
  - destruct (step e s) as [s1|] eqn:He; [|discriminate].
    destruct (permanent_step _ _ _ He) as (Hlen1 & Hflag1 & Hw1).
    destruct (IH _ Hrun) as (Hlen & Hflag & Hw).
    split; [congruence|]. split; [auto|].
    intros w wk Hwk.
    destruct (Hw1 w wk Hwk) as (wk1 & Hwk1 & Hf1 & He1).
    destruct (Hw w wk1 Hwk1) as (wk' & Hwk' & Hf & He').
    exists wk'. auto.
Qed.

(** A stopped pool whose worker has exited: a further [set_job] call
    leaves the flags raised and the worker exited. *)
Lemma stop_is_permanent_witness :
  run (runs_stop ++ runs_destructor 1 ++ replicate 3 (worker_step 0))
      (WorkerPool_new 1) = Some stopped_pool ∧
  ∃ s',
    run (runs_set_job join_args ("1", "-3", "2") 0) stopped_pool = Some s' ∧
    length (workers s') = 1%nat ∧ stop_flag s' = true ∧
    ∃ wk', workers s' !! 0%nat = Some wk' ∧ Worker_stop_flag wk' = true
           ∧ Worker_pc wk' = WExited.
Proof.
  pose proof (stop_is_permanent
                (runs_set_job join_args ("1", "-3", "2") 0) stopped_pool)
    as Hthm.
  split; [vm_compute; reflexivity|].
  eexists. split; [vm_compute; reflexivity|].
  specialize (Hthm _ ltac:(vm_compute; reflexivity)) as (Hlen & Hflag & Hw).
  split; [exact Hlen|]. split; [exact (Hflag eq_refl)|].
  destruct (Hw 0%nat _ eq_refl) as (wk' & Hwk' & Hf & He).
  exists wk'. split; [exact Hwk'|]. split; [exact (Hf eq_refl)|exact (He eq_refl)].
Defined.

(** *** stop() twice *)

(** A second [stop] call changes nothing: the flag is raised already, and
    the thread its [notify_all] would wake is woken already. *)
Theorem stop_is_idempotent (s : WorkerPool) :
  owner s = OIdle →
  ∃ s', run runs_stop s = Some s' ∧ run (runs_stop ++ runs_stop) s = Some s'.
Proof.
  intros Ho.
  assert (Halive : alive s = true) by (apply alive_not_destroyed; congruence).
  eexists. split.
  - unfold runs_stop.
    eapply run_cons; [by eapply step_call_stop|].
    eapply run_cons; [by eapply step_OStopNotify|].
    reflexivity.
  - unfold runs_stop. simpl app.
    eapply run_cons; [by eapply step_call_stop|].
    eapply run_cons; [by eapply step_OStopNotify|].
    eapply run_cons; [by eapply step_call_stop|].
    eapply run_cons; [by eapply step_OStopNotify|].
    f_equal. flat_state.
    destruct s as [? ? ? ? ? ? ? ? c ? ? ?]. simpl.
    destruct c; reflexivity.
Qed.

Lemma stop_is_idempotent_witness :
  ∃ s', run runs_stop waiting_pool = Some s'
        ∧ run (runs_stop ++ runs_stop) waiting_pool = Some s'.
Proof.
  exact (stop_is_idempotent waiting_pool eq_refl).
Defined.

(** *** A pool without workers *)

Lemma nothing_computed_step e s s' :
  nothing_computed s → step e s = Some s' → nothing_computed s'.
Proof.
  unfold nothing_computed, values. intros (Hw & Hsh & Hv) Hstep.
  step_cases Hstep; simpl.
  all: rewrite ?Hw in *; simpl in *.
  all: try discriminate.
  all: try done.
  - split; [done|]. split; [|done].
    apply Forall_app. split; [done|]. by apply Forall_singleton.
  - rewrite values_snoc_None. done.
  - match goal with
    | H : shared _ !! _ = Some (Some _) |- _ =>
        apply (Forall_lookup_1 _ _ _ _ Hsh) in H; discriminate
    end.
Qed.

(** On a host that reports two hardware threads the pool [main] builds
    has no worker.  In a pool without workers no promise is ever
    fulfilled and [get_answer] never returns a value: a call that has
    taken a future off the queue stays blocked in [result.get()]. *)
Theorem pool_without_workers (schedule : list event) (s : WorkerPool) :
  run schedule (main_pool 2) = Some s →
  workers s = [] ∧
  Forall (λ st, st = None) (shared s) ∧
  values s = [] ∧
  ∀ result, consumer s = CGet result → get_answer_step s = None.
Proof.
  intros Hrun.
  assert (Hinv : nothing_computed s).
  { eapply run_invariant; [apply nothing_computed_step| |exact Hrun].
    repeat split. constructor. }
  destruct Hinv as (Hw & Hsh & Hv).
  repeat split; try done.
  intros result Hc. unfold get_answer_step. rewrite Hc.
  destruct (shared s !! result) as [[v|]|] eqn:Hr; try done.
  apply (Forall_lookup_1 _ _ _ _ Hsh) in Hr. discriminate.
Qed.

(** A job is submitted and [get_answer] takes its future: the call cannot
    return. *)
Lemma pool_without_workers_witness :
  ∃ s,
    run (runs_set_job join_args ("1", "-3", "2") 0
         ++ call_get_answer :: replicate 3 consumer_step) (main_pool 2) = Some s ∧
    consumer s = CGet 0 ∧ workers s = [] ∧ get_answer_step s = None.
Proof.
  pose proof (pool_without_workers
                (runs_set_job join_args ("1", "-3", "2") 0
                 ++ call_get_answer :: replicate 3 consumer_step)) as Hthm.
  eexists. split; [vm_compute; reflexivity|].
  specialize (Hthm _ ltac:(vm_compute; reflexivity)) as (Hw & _ & _ & Hget).
  split; [reflexivity|]. split; [exact Hw|]. exact (Hget 0%nat eq_refl).
Defined.

(** *** The number of workers main asks for *)

(** [main] passes [nthreads - 2] in [unsigned] arithmetic: two less than
    the hardware parallelism where that is at least two, and wrapped
    around to [2 ^ 32 - 2] or [2 ^ 32 - 1] where [hardware_concurrency()]
    returns 0 (unknown) or 1. *)
Theorem main_asks_for (hardware_concurrency : nat) :
  (Z.of_nat hardware_concurrency < 2 ^ 32)%Z →
  Z.of_nat (length (workers (main_pool hardware_concurrency))) =
    if (Z.of_nat hardware_concurrency <? 2)%Z
    then (2 ^ 32 - 2 + Z.of_nat hardware_concurrency)%Z
    else (Z.of_nat hardware_concurrency - 2)%Z.
Proof.
  intros Hhi.
  unfold main_pool, WorkerPool_ctor, WorkerPool_new, nthreads, unsigned_sub.
  simpl default. cbn [workers]. rewrite length_replicate.
  rewrite Z2Nat.id by (apply Z.mod_pos_bound; lia).
  destruct (Z.ltb_spec (Z.of_nat hardware_concurrency) 2).
  - symmetry. apply (Z.mod_unique_pos _ _ (-1)%Z); lia.
  - apply Z.mod_small. lia.
Qed.

Lemma main_asks_for_witness :
  Z.of_nat (length (workers (main_pool 0))) = 4294967294%Z ∧
  Z.of_nat (length (workers (main_pool 8))) = 6%Z.
Proof.
  split.
  - exact (main_asks_for 0 eq_refl).
  - exact (main_asks_for 8 eq_refl).
Defined.

(** *** Waiting for a result *)

(** [get_answer] on an empty result queue, before [stop]: the call locks
    [m_results], finds its predicate false and waits, the mutex released.
    It stays inside the wait across every step of the pool except a
    notification of [cv_results] (the [notify_one] of [set_job], line 29, or
    the [notify_all] of [stop]) and a spurious wakeup.  Notified by
    [set_job], whose future is on the queue by then, it locks the mutex
    again, finds the predicate true and takes that future. *)
Theorem get_answer_waits_for_a_result :
  (∀ s, alive s = true → consumer s = CIdle → m_results s = None →
     results s = [] → stop_flag s = false →
     ∃ s', run consumer_waits s = Some s' ∧
       consumer s' = CBlocked ∧ m_results s' = None ∧
       answers s' = answers s ∧ results s' = []) ∧
  (∀ e s s', step e s = Some s' → consumer s = CBlocked →
     (consumer s' = CBlocked ∧ answers s' = answers s)
     ∨ (consumer s' = CWoken ∧ wakes_consumer e s)) ∧
  (∀ s r pick, alive s = true → producer s = PNotifyResults r →
     consumer s = CBlocked →
     ∃ s', step (producer_step pick) s = Some s' ∧ consumer s' = CWoken
           ∧ results s' = results s ∧ m_results s' = m_results s) ∧
  (∀ s result rest, alive s = true → consumer s = CWoken →
     m_results s = None → results s = result :: rest →
     ∃ s', run (replicate 3 consumer_step) s = Some s' ∧
       consumer s' = CGet result ∧ results s' = rest ∧ m_results s' = None).
Proof.
  split; [|split; [|split]].
  - intros [res js mj mr ws sf sh pr co ow sub ans] Halive Hc Hm Hres Hstop.
    simpl in *. subst.
    destruct ow; try discriminate Halive.
    all: eexists; (split; [vm_compute; reflexivity|]); repeat split.
  - intros e s s' Hstep Hc. unfold wakes_consumer.
    step_cases Hstep; simpl; rewrite ?Hc; simpl; try congruence; eauto 10.
  - intros [res js mj mr ws sf sh pr co ow sub ans] r pick Halive Hp Hc.
    simpl in *. subst.
    destruct ow; try discriminate Halive.
    all: eexists; (split; [vm_compute; reflexivity|]); repeat split.
  - intros [res js mj mr ws sf sh pr co ow sub ans] result rest Halive Hc Hm Hres.
    simpl in *. subst.
    destruct ow; try discriminate Halive.
    all: destruct sf.
    all: eexists; (split; [vm_compute; reflexivity|]); repeat split.
Qed.

Lemma get_answer_waits_for_a_result_witness :
  ∃ s', run consumer_waits (WorkerPool_new 1) = Some s' ∧
    consumer s' = CBlocked ∧ m_results s' = None ∧
    answers s' = [] ∧ results s' = [].
Proof.
  exact (proj1 get_answer_waits_for_a_result (WorkerPool_new 1)
           eq_refl eq_refl eq_refl eq_refl eq_refl).
Defined.

(** *** Notifications that come too early *)

Lemma joining_blocked_step w e s s' :
  joining_blocked w s →
  e ≠ spurious_wakeup (WorkerThread w) → e ≠ producer_step w →
  step e s = Some s' → joining_blocked w s'.
Proof.
  unfold joining_blocked.
  intros ((i & Ho & Hi) & wk & Hw & Hpc) Hne1 Hne2 Hstep.
  step_cases Hstep; simpl; rewrite ?Ho in *; try discriminate.
  all: try solve [eauto 10].
  all: try (split; [solve [eauto]|]).
  all: unfold is_blocked in *.
  all: try match goal with
       | |- context [<[?j := _]> _ !! ?k] =>
           destruct (decide (j = k)) as [->|?];
           [simplify_eq; try congruence
           |rewrite list_lookup_insert_ne by done; solve [eauto]]
       end.
  - (* the next worker is joined: it is not [w], which has not exited *)
    split; [|eauto]. exists (S i). split; [done|].
    destruct (decide (i = w)) as [->|]; [|lia].
    simplify_eq. congruence.
  - (* there is a worker left to join: [w] *)
    match goal with
    | H : workers _ !! _ = None |- _ => apply lookup_ge_None in H
    end.
    apply lookup_lt_Some in Hw. lia.
Qed.

(** C6.  A worker and the stop signal, the job queue empty.  A worker
    that is inside [wait(l)] when [~WorkerPool] runs has its stop flag
    raised and is woken by the [notify_all]; its next three steps lock the
    mutex, find the predicate true and leave the loop by the [break] of
    line 62.  But [~WorkerPool] raises the flags and notifies without
    holding [m_jobs]: a worker that has found its predicate false and has
    not yet entered [wait(l)] is not in the wait set when [notify_all]
    runs, and its next step puts it inside the wait with its stop flag
    raised and the job queue empty.  From then on, along every schedule
    that neither wakes this worker spuriously nor has a [notify_one] pick
    it, the worker stays inside the wait and [~Worker] stays in its
    [join]: the worker blocks for ever and the pool is never destroyed. *)
Theorem worker_and_stop_signal (w : nat) :
  (∀ s wk, owner s = OIdle → workers s !! w = Some wk →
     Worker_pc wk = WBlocked → jobs s = [] → m_jobs s = None →
     ∃ s', run (runs_destructor (length (workers s))
                ++ replicate 3 (worker_step w)) s = Some s' ∧
       workers s' !! w =
         Some {| Worker_stop_flag := true; Worker_pc := WExited |} ∧
       m_jobs s' = None) ∧
  (∀ s wk, owner s = OIdle → workers s !! w = Some wk →
     Worker_pc wk = WSleep → jobs s = [] →
     ∃ s', run (runs_destructor (length (workers s)) ++ [worker_step w]) s
             = Some s' ∧
       workers s' !! w =
         Some {| Worker_stop_flag := true; Worker_pc := WBlocked |} ∧
       jobs s' = [] ∧ owner s' = ODtorJoin 0 ∧ joining_blocked w s') ∧
  (∀ schedule s s', joining_blocked w s → never_wakes w schedule →
     run schedule s = Some s' →
     joining_blocked w s' ∧ owner s' ≠ ODestroyed).
Proof.
  split; [|split].
  - intros s wk Ho Hw Hpc Hjobs Hm.
    set (woken := {| Worker_stop_flag := true; Worker_pc := WWoken |}).
    set (ws1 := notify_all_jobs (Worker_stop <$> workers s)).
    assert (Hw1 : ws1 !! w = Some woken).
    { unfold ws1, notify_all_jobs. rewrite !list_lookup_fmap, Hw. simpl.
      unfold woken. now rewrite Hpc. }
    assert (Hlt : (w < length ws1)%nat) by eauto using lookup_lt_Some.
    eexists. split.
    + eapply run_app; [apply destructor_stops_and_wakes; exact Ho|].
      change (replicate 3 (worker_step w))
        with [worker_step w; worker_step w; worker_step w].
      eapply run_cons.
      { eapply step_WWoken with (wk := woken);
          [reflexivity|exact Hw1|reflexivity|exact Hm]. }
      eapply run_cons.
      { eapply step_WWait_true with (wk := set_Worker_pc WWait woken);
          [reflexivity| |reflexivity|reflexivity].
        apply list_lookup_insert_eq. exact Hlt. }
      eapply run_cons.
      { eapply step_WCheck_break with (wk := set_Worker_pc WCheck woken);
          [reflexivity| |reflexivity|].
        - apply list_lookup_insert_eq. simpl. now rewrite length_insert.
        - simpl. rewrite Hjobs. reflexivity. }
      reflexivity.
    + split; [|reflexivity].
      apply list_lookup_insert_eq. simpl. now rewrite !length_insert.
  - intros s wk Ho Hw Hpc Hjobs.
    set (ws1 := notify_all_jobs (Worker_stop <$> workers s)).
    assert (Hw1 : ws1 !! w =
                  Some {| Worker_stop_flag := true; Worker_pc := WSleep |}).
    { unfold ws1, notify_all_jobs. rewrite !list_lookup_fmap, Hw. simpl.
      now rewrite Hpc. }
    assert (Hw2 : <[w := {| Worker_stop_flag := true; Worker_pc := WBlocked |}]>
                    ws1 !! w =
                  Some {| Worker_stop_flag := true; Worker_pc := WBlocked |}).
    { apply list_lookup_insert_eq. eauto using lookup_lt_Some. }
    eexists. split.
    + eapply run_app; [apply destructor_stops_and_wakes; exact Ho|].
      eapply run_cons; [|reflexivity].
      unfold step, Worker_step. simpl. fold ws1. rewrite Hw1. reflexivity.
    + simpl. fold ws1. split; [exact Hw2|]. split; [exact Hjobs|].
      split; [reflexivity|]. split.
      * exists 0%nat. split; [reflexivity|lia].
      * eexists. split; [exact Hw2|reflexivity].
  - intros schedule. induction schedule as [|e rest IH];
      intros s s' Hblocked Hnever Hrun; simpl in Hrun.
    + injection Hrun as <-. split; [done|].
      destruct Hblocked as ((i & Ho & _) & _). congruence.
    + destruct (step e s) as [s1|] eqn:He; [|discriminate].
      apply Forall_cons in Hnever as ((Hne1 & Hne2) & Hnever).
      eapply IH; [|exact Hnever|exact Hrun].
      eapply joining_blocked_step; eauto.
Qed.

(** The worker of a pool of one tests its predicate; the destructor runs
    up to its [join]; the worker enters the wait.  Whatever follows, here
    a [get_answer] call that waits too, the worker is still inside the
    wait, and neither the worker nor the destructor can take a step. *)
Lemma worker_and_stop_signal_witness :
  ∃ s s' s'',
    run (worker_about_to_wait 0) (WorkerPool_new 1) = Some s ∧
    run (runs_destructor 1 ++ [worker_step 0]) s = Some s' ∧
    workers s' = [{| Worker_stop_flag := true; Worker_pc := WBlocked |}] ∧
    jobs s' = [] ∧ owner s' = ODtorJoin 0 ∧
    run consumer_waits s' = Some s'' ∧
    joining_blocked 0 s'' ∧ owner s'' ≠ ODestroyed ∧
    step owner_steps s'' = None ∧ step (worker_step 0) s'' = None.
Proof.
  destruct (worker_and_stop_signal 0) as (_ & _ & Hstay).
  eexists. eexists. eexists.
  split; [vm_compute; reflexivity|].
  split; [vm_compute; reflexivity|].
  split; [reflexivity|]. split; [reflexivity|]. split; [reflexivity|].
  split; [vm_compute; reflexivity|].
  match goal with
  | |- joining_blocked 0 ?s'' ∧ _ =>
      destruct (Hstay consumer_waits
                  (set_owner (ODtorJoin 0)
                     (set_workers
                        [{| Worker_stop_flag := true; Worker_pc := WBlocked |}]
                        (WorkerPool_new 1)))
                  s'') as (Hblocked & Ho)
  end.
  - split; [exists 0%nat; split; [reflexivity|exact (le_n 0)]|].
    eexists. split; reflexivity.
  - repeat constructor; discriminate.
  - vm_compute; reflexivity.
  - split; [exact Hblocked|]. split; [exact Ho|].
    split; vm_compute; reflexivity.
Defined.

(** *** Every job is in one place *)

Lemma pending_held_step e s s' :
  pending_held s → step e s = Some s' → pending_held s'.
Proof.
  intros Hinv Hstep. unfold pending_held, tokens in *.
  step_cases Hstep.
  all: repeat match goal with
       | H : workers _ !! _ = Some _ |- _ =>
           apply worker_tokens_split in H as (before & after & Hold & Hnew)
       end.
  all: simpl; rewrite ?worker_tokens_notified, ?Hnew; unfold worker_tokens in *; simpl.
  all: repeat match goal with
       | H : Worker_pc _ = _ |- _ => rewrite H in *
       end; simpl in *.
  all: repeat match goal with
       | H : producer _ = _ |- _ => rewrite H in *
       end; simpl in *.
  all: unfold is_blocked in *.
  all: try match goal with
       | H : match Worker_pc ?w with _ => _ end = true |- _ =>
           destruct (Worker_pc w); try discriminate H
       end; simpl in *.
  all: rewrite ?Hold in *.
  all: try assumption.
  all: intros q Hq.
  - apply lookup_snoc_Some in Hq as [[_ Hq]|[-> _]].
    + apply elem_of_cons. right. auto.
    + apply elem_of_cons. now left.
  - specialize (Hinv q Hq). rewrite fmap_app. simpl.
    eapply elem_of_Permutation_proper; [|exact Hinv]. solve_Permutation.
  - specialize (Hinv q Hq).
    eapply elem_of_Permutation_proper; [|exact Hinv]. solve_Permutation.
  - apply list_lookup_insert_Some in Hq as [(_ & [=] & _)|(Hne & Hq)].
    specialize (Hinv q Hq).
    rewrite !elem_of_app, elem_of_cons in Hinv.
    rewrite !elem_of_app. intuition congruence.
Qed.

Lemma pending_held_new (n : nat) : pending_held (WorkerPool_new n).
Proof.
  intros p Hp. simpl in Hp. rewrite lookup_nil in Hp. discriminate.
Qed.

(** After every schedule, every job submitted so far is in exactly one of
    two conditions.  Either its promise is fulfilled, with the value its
    function returns on its arguments, and nobody holds the promise any
    more; or its shared state is pending and its promise is held in exactly
    one place: by [set_job] before the push, in the job queue, or by the
    one worker that has taken the job.  No job is dropped and none is
    handed to two workers. *)
Theorem no_job_is_lost (n : nat) (schedule : list event) (s : WorkerPool)
    (p : promise_t) :
  run schedule (WorkerPool_new n) = Some s →
  (p < length (submitted s))%nat →
  (∃ v, shared s !! p = Some (Some v) ∧ computes (submitted s) p v
        ∧ p ∉ tokens s)
  ∨ (shared s !! p = Some None
     ∧ ∃ before after, tokens s = before ++ p :: after
                       ∧ (p ∉ before) ∧ (p ∉ after)).
Proof.
  intros Hrun Hp.
  assert (Hpromise : promise_invariant s).
  { eapply run_invariant;
      [apply promise_invariant_step|apply promise_invariant_new|exact Hrun]. }
  assert (Horder : order_invariant s).
  { eapply run_invariant;
      [apply order_invariant_step|apply order_invariant_new|exact Hrun]. }
  assert (Hheld : pending_held s).
  { eapply run_invariant;
      [apply pending_held_step|apply pending_held_new|exact Hrun]. }
  rewrite <- (inv_shared s Horder) in Hp.
  destruct (lookup_lt_is_Some_2 _ _ Hp) as [[v|] Hv].
  - left. exists v. split; [done|]. split; [exact (inv_ready s Horder _ _ Hv)|].
    intros Hin. pose proof (tokens_pending s Hpromise p Hin) as Hpend.
    unfold promise_t in Hpend. congruence.
  - right. split; [done|].
    destruct (list_elem_of_split _ _ (Hheld p Hv)) as (before & after & Heq).
    exists before, after. split; [done|].
    pose proof (tokens_nodup s Hpromise) as Hnd. rewrite Heq in Hnd.
    apply NoDup_app in Hnd as (_ & Hdisj & Hnd).
    apply NoDup_cons in Hnd as [Hafter _].
    split; [|done]. intros Hin. apply (Hdisj p Hin). now left.
Qed.

(** The job of a [set_job] call that stands at line 33 is held by the
    producer only. *)
Lemma no_job_is_lost_witness :
  ∃ s, run locked_schedule (WorkerPool_new 1) = Some s ∧
    shared s !! 0%nat = Some None ∧ tokens s = [0%nat] ∧
    ((∃ v, shared s !! 0%nat = Some (Some v) ∧ computes (submitted s) 0 v
           ∧ 0%nat ∉ tokens s)
     ∨ (shared s !! 0%nat = Some None
        ∧ ∃ before after, tokens s = before ++ 0%nat :: after
                          ∧ (0%nat ∉ before) ∧ (0%nat ∉ after))).
Proof.
  eexists. split; [vm_compute; reflexivity|].
  split; [reflexivity|]. split; [reflexivity|].
  apply (no_job_is_lost 1 locked_schedule); [vm_compute; reflexivity|].
  simpl. lia.
Defined.

Lemma fifo_invariant_step e s s' :
  fifo_invariant s → step e s = Some s' → fifo_invariant s'.
Proof.
  intros [Hsh Hcnt Hfifo] Hstep. unfold waiting in *.
  step_cases Hstep.
  all: split; unfold waiting; simpl.
  all: repeat match goal with
       | H : producer _ = _ |- _ => rewrite H in *
       end; simpl in *.
  all: rewrite ?app_nil_r, ?length_app, ?length_insert, ?length_fmap in *; simpl in *.
  all: try assumption.
  all: try lia.
  - replace (length (submitted s) + 1 - (length (jobs s) + 1))
      with (length (submitted s) - length (jobs s)) by lia.
    replace (length (jobs s) + 1) with (S (length (jobs s))) by lia.
    rewrite seq_S, <- Hfifo, Hsh. do 2 f_equal. lia.
  - rewrite length_app. simpl. lia.
  - rewrite fmap_app, !length_app. simpl. exact Hfifo.
  - match goal with
    | Hrest : _ ++ _ = seq _ _ |- _ => rewrite Hrest
    end.
    f_equal; lia.
Qed.

Lemma fifo_invariant_new (n : nat) : fifo_invariant (WorkerPool_new n).
Proof.
  split; reflexivity.
Qed.

(** After every schedule the job queue holds, oldest first, the jobs most
    recently submitted, each with the function and the arguments of its
    [set_job] call, followed in submission order by the one job a running
    [set_job] call has not pushed yet: all the jobs before them have been
    taken.  So the job a worker takes at lines 65-71 is always the oldest
    job no worker has taken. *)
Theorem jobs_are_taken_in_submission_order
    (n : nat) (schedule : list event) (s : WorkerPool) :
  run schedule (WorkerPool_new n) = Some s →
  (length (waiting s) ≤ length (submitted s))%nat ∧
  waiting s = seq (length (submitted s) - length (waiting s)) (length (waiting s)) ∧
  Forall (request_of (submitted s)) (jobs s) ∧
  ∀ w wk job s',
    workers s !! w = Some wk → Worker_pc wk = WCheck →
    Worker_step w s = Some s' →
    workers s' !! w = Some (set_Worker_pc (WUnlock job) wk) →
    promise job = (length (submitted s) - length (waiting s))%nat
    ∧ submitted s !! promise job = Some (func job, args job)
    ∧ waiting s' = seq (S (promise job)) (length (waiting s) - 1).
Proof.
  intros Hrun.
  assert (Hfifo : fifo_invariant s).
  { eapply run_invariant;
      [apply fifo_invariant_step|apply fifo_invariant_new|exact Hrun]. }
  assert (Horder : order_invariant s).
  { eapply run_invariant;
      [apply order_invariant_step|apply order_invariant_new|exact Hrun]. }
  split; [apply Hfifo|]. split; [apply Hfifo|].
  split; [apply Horder|].
  intros w wk job s' Hw Hpc Hstep Hw'.
  pose proof (fifo_waiting s Hfifo) as Hwait.
  pose proof (inv_jobs s Horder) as Hjobs.
  unfold Worker_step in Hstep. rewrite Hw in Hstep. simpl in Hstep.
  rewrite Hpc in Hstep.
  destruct (Worker_stop_flag wk && bool_decide (jobs s = [])).
  { injection Hstep as <-. simpl in Hw'.
    rewrite list_lookup_insert_eq in Hw' by eauto using lookup_lt_Some.
    discriminate. }
  destruct (jobs s) as [|job' rest] eqn:Hq; [discriminate|].
  injection Hstep as <-. simpl in Hw'.
  rewrite list_lookup_insert_eq in Hw' by eauto using lookup_lt_Some.
  injection Hw' as ->.
  apply Forall_cons in Hjobs as [Hjob _].
  unfold waiting in *. rewrite Hq in Hwait |- *.
  rewrite fmap_cons, <- app_comm_cons in Hwait |- *.
  apply seq_head in Hwait as (Hp & Hrest & _).
  split; [exact Hp|]. split; [exact Hjob|].
  flat_state. fold (producer s).
  etrans; [exact Hrest|]. rewrite <- Hp. reflexivity.
Qed.

(** Two jobs are queued and worker 0 stands at line 61: the queue holds
    promises 0 and 1, and the worker takes the job of promise 0. *)
Lemma jobs_are_taken_in_submission_order_witness :
  ∃ s s',
    run two_queued_schedule (WorkerPool_new 2) = Some s ∧
    waiting s = [0%nat; 1%nat] ∧
    Worker_step 0 s = Some s' ∧
    promise (join_args, ("1", "-3", "2"), 0%nat) =
      (length (submitted s) - length (waiting s))%nat ∧
    submitted s !! 0%nat = Some (join_args, ("1", "-3", "2")) ∧
    waiting s' = [1%nat].
Proof.
  pose proof (jobs_are_taken_in_submission_order 2 two_queued_schedule) as Hthm.
  eexists. eexists.
  split; [vm_compute; reflexivity|].
  specialize (Hthm _ ltac:(vm_compute; reflexivity)) as (_ & _ & _ & Htake).
  split; [reflexivity|].
  split; [vm_compute; reflexivity|].
  exact (Htake 0%nat {| Worker_stop_flag := false; Worker_pc := WCheck |}
           (join_args, ("1", "-3", "2"), 0%nat) _
           eq_refl eq_refl eq_refl eq_refl).
Defined.

Lemma mutex_invariant_step e s s' :
  mutex_invariant s → step e s = Some s' → mutex_invariant s'.
Proof.
  intros [Hjh Hjs Hrh Hrs] Hstep.
  step_cases Hstep.
  all: split; intros t; unfold in_jobs_section, in_results_section in *; simpl.
  all: repeat match goal with
       | H : producer _ = _ |- _ => rewrite H in *
       | H : consumer _ = _ |- _ => rewrite H in *
       | H : m_jobs _ = _ |- _ => rewrite H in *
       | H : m_results _ = _ |- _ => rewrite H in *
       end.
  all: try solve [auto].
  all: intros Ht.
  all: pose proof (Hjh Producer) as HjhP; pose proof (Hjs Producer) as HjsP;
       pose proof (Hrh Producer) as HrhP; pose proof (Hrs Producer) as HrsP;
       pose proof (Hjh Consumer) as HjhC; pose proof (Hjh Owner) as HjhO;
       pose proof (Hrh Consumer) as HrhC; pose proof (Hrs Consumer) as HrsC;
       pose proof (Hrh Owner) as HrhO.
  all: destruct t as [| | |w']; simpl in *.
  all: try done.
  all: try congruence.
  all: try solve [intuition congruence].
  all: try solve [destruct (consumer s); simpl in *; intuition congruence].
  all: try solve [pose proof (Hrh (WorkerThread w')); simpl in *; intuition congruence].
  all: try match goal with
       | Hw : workers _ !! ?w = Some _ |- _ =>
           pose proof (Hjh (WorkerThread w)); pose proof (Hjs (WorkerThread w));
           simpl in *
       end.
  all: try match goal with
       | H : context [<[?i := _]> _ !! ?w'] |- _ =>
           pose proof (Hjh (WorkerThread w')); pose proof (Hjs (WorkerThread w'));
           simpl in *;
           destruct (decide (i = w')) as [->|?];
           [rewrite list_lookup_insert_eq in H by eauto using lookup_lt_Some
           |rewrite list_lookup_insert_ne in H by done]
       | |- context [<[?i := _]> _ !! ?w'] =>
           pose proof (Hjh (WorkerThread w')); pose proof (Hjs (WorkerThread w'));
           simpl in *;
           destruct (decide (i = w')) as [->|?];
           [rewrite list_lookup_insert_eq by eauto using lookup_lt_Some
           |rewrite list_lookup_insert_ne by done]
       | H : context [notify_all_jobs _ !! ?w'] |- _ =>
           pose proof (Hjh (WorkerThread w')); pose proof (Hjs (WorkerThread w'));
           simpl in *;
           unfold notify_all_jobs in H; rewrite list_lookup_fmap in H;
           destruct (workers _ !! w') as [wk'|]; simpl in *;
           [destruct (Worker_pc wk')|]; simpl in *
       | |- context [notify_all_jobs _ !! ?w'] =>
           pose proof (Hjh (WorkerThread w')); pose proof (Hjs (WorkerThread w'));
           simpl in *;
           unfold notify_all_jobs; rewrite list_lookup_fmap;
           destruct (workers _ !! w') as [wk'|]; simpl in *;
           [destruct (Worker_pc wk')|]; simpl in *
       end.
  all: unfold is_blocked in *.
  all: repeat match goal with
       | H : workers _ !! _ = Some _ |- _ => rewrite H in *
       | H : Worker_pc _ = _ |- _ => rewrite H in *
       end; simpl in *.
  all: try done.
  all: try congruence.
  all: try solve [intuition congruence].
  all: try solve [match goal with
                  | Ht : match workers _ !! ?w' with _ => _ end = true |- _ =>
                      pose proof (Hjs (WorkerThread w') Ht); intuition congruence
                  end].
  all: match goal with
       | H : match Worker_pc ?w with _ => _ end = true |- _ =>
           destruct (Worker_pc w); try discriminate H
       end; simpl in *; intuition congruence.
Qed.

Lemma mutex_invariant_new (n : nat) : mutex_invariant (WorkerPool_new n).
Proof.
  split; simpl; try discriminate.
  - intros [| | |w]; simpl; try discriminate.
    destruct (replicate n Worker_new !! w) as [wk|] eqn:Hw; [|discriminate].
    apply lookup_replicate in Hw as [-> _]. discriminate.
  - intros [| | |w]; simpl; discriminate.
Qed.

(** Mutual exclusion.  After every schedule, a thread stands inside a
    critical section of [m_jobs] exactly when the mutex records it as its
    holder, and the same for [m_results]; so no two threads are inside
    critical sections of the same mutex at once.  No thread is inside the
    sections of both mutexes at once: [set_job] releases [m_results]
    before it locks [m_jobs]. *)
Theorem mutual_exclusion (n : nat) (schedule : list event) (s : WorkerPool) :
  run schedule (WorkerPool_new n) = Some s →
  (∀ t, in_jobs_section s t = true ↔ m_jobs s = Some t) ∧
  (∀ t, in_results_section s t = true ↔ m_results s = Some t) ∧
  (∀ t t', in_jobs_section s t = true → in_jobs_section s t' = true → t = t') ∧
  (∀ t t', in_results_section s t = true → in_results_section s t' = true
           → t = t') ∧
  (∀ t, in_jobs_section s t = true → in_results_section s t = true → False).
Proof.
  intros Hrun.
  assert (Hinv : mutex_invariant s).
  { eapply run_invariant;
      [apply mutex_invariant_step|apply mutex_invariant_new|exact Hrun]. }
  destruct Hinv as [Hjh Hjs Hrh Hrs].
  split; [split; auto|]. split; [split; auto|].
  split; [|split].
  - intros t t' Ht Ht'. apply Hjs in Ht, Ht'. congruence.
  - intros t t' Ht Ht'. apply Hrs in Ht, Ht'. congruence.
  - intros [| | |w]; simpl; try discriminate.
    destruct (producer s); discriminate.
Qed.

(** [set_job] at line 33 holds [m_jobs]; worker 0 is not in its critical
    section. *)
Lemma mutual_exclusion_witness :
  ∃ s, run locked_schedule (WorkerPool_new 1) = Some s ∧
    in_jobs_section s Producer = true ∧
    in_jobs_section s (WorkerThread 0) = false ∧
    m_jobs s = Some Producer.
Proof.
  eexists. split; [vm_compute; reflexivity|].
  split; [reflexivity|]. split; [reflexivity|].
  apply (mutual_exclusion 1 locked_schedule); [vm_compute; reflexivity|].
  reflexivity.
Defined.

End PoolProperties.

(** ** The job function: buffers and numerals *)

Section TextProperties.


Import Solver Text.

Local Open Scope Z_scope.

(** *** The format buffer *)

Lemma no_nul_app (s t : string) : no_nul s → no_nul t → no_nul (s +:+ t).
Proof.
  unfold no_nul. induction s as [|c s IH]; intros Hs Ht; [done|].
  rewrite app_str_cons. simpl in *.
  destruct (Ascii.eqb c NUL); [discriminate|].
  injection Hs as Hs. now rewrite IH.
Qed.

Lemma c_string_app_nul (s t : string) :
  no_nul s → c_string (s +:+ String NUL t) = s.
Proof.
  unfold no_nul. induction s as [|c s IH]; intros Hs; [done|].
  rewrite app_str_cons. simpl in *.
  destruct (Ascii.eqb c NUL); [discriminate|].
  injection Hs as Hs. now rewrite IH.
Qed.

(** What fits in the 30 bytes of [format_buf], NUL included, and holds no
    NUL is appended as it is. *)
Lemma printed_fits (out : string) :
  (String.length out < 30)%nat → no_nul out → printed out = out.
Proof.
  intros Hlen Hnul. unfold printed, snprintf. cbn [fst].
  rewrite (take_str_all 29 out) by lia.
  rewrite app_str_assoc. rewrite app_str_cons, app_str_nil.
  now apply c_string_app_nul.
Qed.

Lemma length_digits_of (n : nat) (v : Z) : length (digits_of n v) = n.
Proof.
  revert v. induction n as [|n IH]; intros v; simpl; [done|].
  rewrite length_app, IH. simpl. lia.
Qed.

Lemma digits_of_decimal (n : nat) (v : Z) : Forall decimal_digit (digits_of n v).
Proof.
  revert v. induction n as [|n IH]; intros v; simpl; [constructor|].
  apply Forall_app. split; [apply IH|].
  apply Forall_singleton. unfold decimal_digit.
  pose proof (Z.mod_pos_bound v 10). lia.
Qed.

Lemma strip_zeros_cons (d : Z) (ds : list Z) :
  strip_zeros (d :: ds) =
    match strip_zeros ds with
    | [] => if d =? 0 then [] else [d]
    | kept => d :: kept
    end.
Proof.
  unfold strip_zeros. simpl. now destruct (foldr _ _ ds).
Qed.

Lemma length_strip_zeros (ds : list Z) :
  (length (strip_zeros ds) <= length ds)%nat.
Proof.
  induction ds as [|d ds IH]; [done|].
  rewrite strip_zeros_cons.
  destruct (strip_zeros ds); [destruct (d =? 0)|]; simpl in *; lia.
Qed.

Lemma strip_zeros_decimal (ds : list Z) :
  Forall decimal_digit ds → Forall decimal_digit (strip_zeros ds).
Proof.
  induction 1 as [|d ds Hd _ IH]; [constructor|].
  rewrite strip_zeros_cons.
  destruct (strip_zeros ds); [destruct (d =? 0)|]; auto.
Qed.

Lemma length_chars (ds : list Z) : String.length (chars ds) = length ds.
Proof.
  induction ds as [|d ds IH]; [done|].
  change (S (String.length (chars ds)) = S (length ds)). congruence.
Qed.

Lemma digit_char_not_nul (d : Z) :
  decimal_digit d → Ascii.eqb (digit_char d) NUL = false.
Proof.
  unfold decimal_digit. intros Hd.
  assert (H : d = 0 ∨ d = 1 ∨ d = 2 ∨ d = 3 ∨ d = 4 ∨ d = 5 ∨ d = 6 ∨ d = 7
              ∨ d = 8 ∨ d = 9) by lia.
  repeat destruct H as [->|H]; try subst d; reflexivity.
Qed.

Lemma chars_cons (d : Z) (ds : list Z) :
  chars (d :: ds) = String (digit_char d) (chars ds).
Proof. reflexivity. Qed.

Lemma c_string_cons (c : ascii) (s : string) :
  c_string (String c s) = if Ascii.eqb c NUL then "" else String c (c_string s).
Proof. reflexivity. Qed.

Lemma chars_no_nul (ds : list Z) : Forall decimal_digit ds → no_nul (chars ds).
Proof.
  unfold no_nul. induction 1 as [|d ds Hd _ IH]; [done|].
  rewrite chars_cons, c_string_cons, (digit_char_not_nul d Hd).
  now rewrite IH.
Qed.

Lemma with_fraction_bound (i f : list Z) :
  Forall decimal_digit i → Forall decimal_digit f →
  (String.length (with_fraction i f) <= length i + 1 + length f)%nat
  ∧ no_nul (with_fraction i f).
Proof.
  intros Hi Hf. unfold with_fraction.
  destruct f as [|d f].
  - rewrite length_chars. split; [lia|]. now apply chars_no_nul.
  - rewrite !length_app_str, !length_chars. simpl String.length.
    split; [lia|].
    apply no_nul_app; [now apply chars_no_nul|].
    apply no_nul_app; [reflexivity|]. now apply chars_no_nul.
Qed.

Lemma format_finite_bound (negative : bool) (m e : Z) :
  (String.length (format_finite negative m e) <= 13)%nat
  ∧ no_nul (format_finite negative m e).
Proof.
  unfold format_finite.
  destruct (significant6 m e) as [n x].
  pose proof (length_digits_of 6 n) as Hlen.
  pose proof (digits_of_decimal 6 n) as Hdec.
  set (ds := digits_of 6 n) in *. clearbody ds.
  assert (Hsign : (String.length (if negative then "-" else "") <= 1)%nat
                  ∧ no_nul (if negative then "-" else "")).
  { destruct negative; split; simpl; try lia; reflexivity. }
  destruct Hsign as [Hsl Hsn].
  destruct ((-4 <=? x) && (x <? 6)) eqn:Hfixed.
  - apply andb_true_iff in Hfixed as [Hlo%Z.leb_le Hhi%Z.ltb_lt].
    destruct (0 <=? x) eqn:Hpos.
    + destruct (with_fraction_bound
                  (take (Z.to_nat x + 1) ds)
                  (strip_zeros (drop (Z.to_nat x + 1) ds))) as [Hl Hn].
      { now apply Forall_take. }
      { now apply strip_zeros_decimal, Forall_drop. }
      pose proof (length_strip_zeros (drop (Z.to_nat x + 1) ds)) as Hs.
      rewrite length_take in Hl. rewrite length_drop in Hs.
      rewrite length_app_str. split; [lia|]. now apply no_nul_app.
    + destruct (with_fraction_bound [0]
                  (replicate (Z.to_nat (- x - 1)) 0 ++ strip_zeros ds))
        as [Hl Hn].
      { apply Forall_singleton. unfold decimal_digit. lia. }
      { apply Forall_app. split; [|now apply strip_zeros_decimal].
        apply Forall_replicate. unfold decimal_digit. lia. }
      pose proof (length_strip_zeros ds) as Hs.
      rewrite length_app, length_replicate in Hl. simpl length in Hl.
      apply Z.leb_gt in Hpos.
      rewrite length_app_str. split; [lia|]. now apply no_nul_app.
  - destruct (with_fraction_bound (take 1 ds) (strip_zeros (drop 1 ds)))
      as [Hl Hn].
    { now apply Forall_take. }
    { now apply strip_zeros_decimal, Forall_drop. }
    pose proof (length_strip_zeros (drop 1 ds)) as Hs.
    rewrite length_take in Hl. rewrite length_drop in Hs.
    set (k := if Z.abs x <? 100 then 2%nat else 3%nat).
    assert (Hk : (k <= 3)%nat) by (unfold k; destruct (Z.abs x <? 100); lia).
    pose proof (length_digits_of k (Z.abs x)) as Hx.
    pose proof (digits_of_decimal k (Z.abs x)) as Hxd.
    rewrite !length_app_str, length_chars.
    assert (Hes : String.length (if x <? 0 then "-" else "+") = 1%nat)
      by (destruct (x <? 0); reflexivity).
    rewrite Hes. simpl String.length.
    split; [lia|].
    repeat apply no_nul_app; try done; try reflexivity.
    + now destruct (x <? 0).
    + now apply chars_no_nul.
Qed.

(** A ["%.6g"] conversion is at most 13 bytes ("-1.23457e-308") and holds
    no NUL. *)
Lemma format_g_bound (x : float) :
  (String.length (format_g x) <= 13)%nat ∧ no_nul (format_g x).
Proof.
  unfold format_g. destruct (Prim2SF x) as [s|s| |s m e].
  - destruct s; split; simpl; try lia; reflexivity.
  - destruct s; split; simpl; try lia; reflexivity.
  - split; simpl; try lia; reflexivity.
  - apply format_finite_bound.
Qed.

(** Each of the three texts formatted into [format_buf] fits. *)
Lemma format_buffer_is_large_enough_aux (x x1 x2 : float) (a : Z) :
  printed ("(" +:+ format_g x +:+ ")") = "(" +:+ format_g x +:+ ")" ∧
  printed ("(" +:+ format_g x1 +:+ " " +:+ format_g x2 +:+ ")") =
    "(" +:+ format_g x1 +:+ " " +:+ format_g x2 +:+ ")" ∧
  printed (" X" +:+ (if 0 <? a then "min" else "max") +:+ "=" +:+ format_g x) =
    " X" +:+ (if 0 <? a then "min" else "max") +:+ "=" +:+ format_g x.
Proof.
  destruct (format_g_bound x) as [Hl Hn].
  destruct (format_g_bound x1) as [Hl1 Hn1].
  destruct (format_g_bound x2) as [Hl2 Hn2].
  split; [|split]; apply printed_fits.
  all: rewrite ?length_app_str; simpl String.length.
  all: try (destruct (0 <? a); simpl String.length; lia).
  all: try lia.
  all: repeat apply no_nul_app; try done; try reflexivity.
  now destruct (0 <? a).
Qed.

(** The 30 bytes of [format_buf] are enough for each of the three texts
    [calculate_square_roots] formats into it, whatever the numbers are:
    one root, two roots (29 bytes at most, and the NUL), the extremum.
    Nothing [snprintf] writes there is cut off, and what is appended to the
    answer is the whole text. *)
Theorem format_buffer_is_large_enough (x x1 x2 : float) (a : Z) :
  printed ("(" +:+ format_g x +:+ ")") = "(" +:+ format_g x +:+ ")" ∧
  printed ("(" +:+ format_g x1 +:+ " " +:+ format_g x2 +:+ ")") =
    "(" +:+ format_g x1 +:+ " " +:+ format_g x2 +:+ ")" ∧
  printed (" X" +:+ (if 0 <? a then "min" else "max") +:+ "=" +:+ format_g x) =
    " X" +:+ (if 0 <? a then "min" else "max") +:+ "=" +:+ format_g x.
Proof.
  exact (format_buffer_is_large_enough_aux x x1 x2 a).
Qed.

(** *** The echo *)

Lemma app_str_not_empty (s : string) (c : ascii) (t : string) :
  s +:+ String c t ≠ "".
Proof.
  destruct s; [discriminate|]. rewrite app_str_cons. discriminate.
Qed.

Lemma solve_appends (answer : string) (a b c : Z) :
  ∃ rest, rest ≠ "" ∧ solve answer a b c = answer +:+ rest.
Proof.
  unfold solve.
  destruct (a =? 0).
  - destruct (b =? 0); [|destruct (c =? 0)].
    + eexists. split; [|reflexivity]. discriminate.
    + eexists. split; [|reflexivity]. discriminate.
    + eexists. split; [|reflexivity].
      rewrite (proj1 (format_buffer_is_large_enough_aux _ 0%float 0%float 0)).
      discriminate.
  - set (xe := decorate_float _).
    rewrite (proj2 (proj2 (format_buffer_is_large_enough_aux xe 0%float 0%float a))).
    match goal with
    | |- context [if ?d1 then _ else if ?d2 then _ else _] =>
        destruct d1; [|destruct d2]
    end.
    all: rewrite ?(proj1 (format_buffer_is_large_enough_aux _ 0%float 0%float 0)),
           ?(proj1 (proj2 (format_buffer_is_large_enough_aux 0%float _ _ 0))).
    all: rewrite app_str_assoc; eexists; (split; [|reflexivity]).
    all: rewrite !app_str_cons; discriminate.
Qed.

(** Whatever the three strings are, the answer begins with the echo
    ["(a b c) => "] of the three arguments, each read as a C string (up to
    its first NUL), and goes on with a non-empty text: the buffer of
    [size() + 10] bytes of lines 16-18 is never too small for the echo. *)
Theorem answer_begins_with_echo (a_str b_str c_str : string) :
  ∃ rest, rest ≠ "" ∧
    calculate_square_roots a_str b_str c_str =
      Return ("(" +:+ c_string a_str +:+ " " +:+ c_string b_str +:+ " "
                  +:+ c_string c_str +:+ ") => " +:+ rest).
Proof.
  assert (Hecho : ∀ rest,
            echo a_str b_str c_str +:+ rest =
              "(" +:+ c_string a_str +:+ " " +:+ c_string b_str +:+ " "
                  +:+ c_string c_str +:+ ") => " +:+ rest).
  { intros rest. rewrite echo_formatted. rewrite !app_str_assoc. reflexivity. }
  unfold calculate_square_roots, try_catch, mbind, throws_bind, mret, throws_ret.
  destruct (stoi a_str) as [a|[]];
    [destruct (stoi b_str) as [b|[]]; [destruct (stoi c_str) as [c|[]]|..]|..].
  1: destruct (solve_appends (echo a_str b_str c_str) a b c) as (rest & Hne & ->).
  1: exists rest; split; [exact Hne|]; now rewrite Hecho.
  all: eexists; (split; [|rewrite Hecho; reflexivity]); discriminate.
Qed.

(** *** std::stoi on a numeral *)

Lemma c_string_app (s t : string) :
  no_nul s → c_string (s +:+ t) = s +:+ c_string t.
Proof.
  unfold no_nul. induction s as [|c s IH]; intros Hs; [done|].
  rewrite !app_str_cons, !c_string_cons in *.
  destruct (Ascii.eqb c NUL); [discriminate|].
  injection Hs as Hs. now rewrite IH.
Qed.

Lemma all_spaces_no_nul (ws : string) : all_spaces ws = true → no_nul ws.
Proof.
  unfold no_nul. induction ws as [|c ws IH]; [done|].
  simpl all_spaces. intros [Hc Hws]%andb_true_iff.
  rewrite c_string_cons.
  destruct (Ascii.eqb_spec c NUL) as [->|_]; [discriminate Hc|].
  now rewrite IH.
Qed.

Lemma skip_all_spaces (ws t : string) :
  all_spaces ws = true → skip_spaces (ws +:+ t) = skip_spaces t.
Proof.
  induction ws as [|c ws IH]; [done|].
  simpl all_spaces. intros [Hc Hws]%andb_true_iff.
  rewrite app_str_cons. simpl skip_spaces. rewrite Hc. auto.
Qed.

Lemma strtol10_skip (ws t : string) :
  all_spaces ws = true → strtol10 (ws +:+ t) = strtol10 t.
Proof.
  intros Hws. unfold strtol10. now rewrite (skip_all_spaces _ _ Hws).
Qed.

Lemma digit_char_facts (d : Z) :
  decimal_digit d →
  digit_value (digit_char d) = Some d ∧
  isspace (digit_char d) = false ∧
  ∀ t, strtol10 (String (digit_char d) t) =
         match (read_digits (String (digit_char d) t) 0 0).2 with
         | O => None
         | S _ => Some (read_digits (String (digit_char d) t) 0 0).1
         end.
Proof.
  unfold decimal_digit. intros Hd.
  assert (H : d = 0 ∨ d = 1 ∨ d = 2 ∨ d = 3 ∨ d = 4 ∨ d = 5 ∨ d = 6 ∨ d = 7
              ∨ d = 8 ∨ d = 9) by lia.
  repeat destruct H as [->|H]; try subst d.
  all: match goal with
       | |- context [digit_char ?d] =>
           let c := eval vm_compute in (digit_char d) in
           change (digit_char d) with c
       end.
  all: split; [reflexivity|]; split; [reflexivity|].
  all: intros t; unfold strtol10.
  all: match goal with
       | |- context [skip_spaces (String ?c ?u)] =>
           change (skip_spaces (String c u)) with (String c u)
       end.
  all: cbv iota beta.
  all: destruct (read_digits _ 0 0) as [v count]; reflexivity.
Qed.

Lemma read_digits_chars (ds : list Z) (rest : string) :
  Forall decimal_digit ds → no_digit_ahead rest = true →
  ∀ acc count,
    read_digits (chars ds +:+ rest) acc count =
      (foldl (fun acc d => 10 * acc + d) acc ds, (count + length ds)%nat).
Proof.
  intros Hds Hrest. induction Hds as [|d ds Hd _ IH]; intros acc count.
  - rewrite app_str_nil. simpl foldl. simpl length. rewrite Nat.add_0_r.
    destruct rest as [|c rest]; [done|].
    simpl in Hrest. apply bool_decide_eq_true in Hrest.
    simpl read_digits. now rewrite Hrest.
  - rewrite chars_cons, app_str_cons.
    change (read_digits (String (digit_char d) (chars ds +:+ rest)) acc count)
      with (match digit_value (digit_char d) with
            | Some d' => read_digits (chars ds +:+ rest) (10 * acc + d') (S count)
            | None => (acc, count)
            end).
    rewrite (proj1 (digit_char_facts d Hd)), IH. simpl foldl. simpl length.
    f_equal. lia.
Qed.

Lemma no_digit_ahead_c_string (rest : string) :
  no_digit_ahead rest = true → no_digit_ahead (c_string rest) = true.
Proof.
  destruct rest as [|c rest]; [done|].
  rewrite c_string_cons. destruct (Ascii.eqb c NUL); [done|]. auto.
Qed.

(** [std::stoi] on optional white space, an optional sign, one or more
    decimal digits and any text that does not go on with a digit: the
    white space is skipped, the text after the digits is ignored, and the
    result is the number the digits denote, negated after a minus sign,
    when that is an [int], and [out_of_range] otherwise. *)
Theorem stoi_reads_a_numeral (ws sign rest : string) (ds : list Z) :
  all_spaces ws = true →
  sign = "" ∨ sign = "+" ∨ sign = "-" →
  ds ≠ [] → Forall decimal_digit ds →
  no_digit_ahead rest = true →
  stoi (ws +:+ sign +:+ chars ds +:+ rest) =
    let v := if String.eqb sign "-" then - value_of ds else value_of ds in
    if (v <? INT_MIN) || (INT_MAX <? v) then Throw out_of_range else Return v.
Proof.
  intros Hws Hsign Hne Hds Hrest.
  assert (Hnul : no_nul (ws +:+ sign +:+ chars ds)).
  { apply no_nul_app; [now apply all_spaces_no_nul|].
    apply no_nul_app; [|now apply chars_no_nul].
    destruct Hsign as [->|[->| ->]]; reflexivity. }
  pose proof (no_digit_ahead_c_string rest Hrest) as Hrest'.
  pose proof (read_digits_chars ds (c_string rest) Hds Hrest' 0 0%nat) as Hread.
  destruct ds as [|d ds]; [done|]. clear Hne.
  pose proof (Forall_inv Hds) as Hd.
  destruct (digit_char_facts d Hd) as (_ & Hspace & Hstrtol).
  unfold stoi.
  replace (ws +:+ sign +:+ chars (d :: ds) +:+ rest)
    with ((ws +:+ sign +:+ chars (d :: ds)) +:+ rest)
    by (now rewrite !app_str_assoc).
  rewrite (c_string_app _ _ Hnul), !app_str_assoc.
  assert (Hparsed : strtol10 (ws +:+ sign +:+ chars (d :: ds) +:+ c_string rest)
                    = Some (if String.eqb sign "-" then - value_of (d :: ds)
                            else value_of (d :: ds))).
  { rewrite (strtol10_skip _ _ Hws).
    destruct Hsign as [->|[->| ->]].
    - rewrite app_str_nil.
      rewrite chars_cons, app_str_cons in Hread |- *.
      rewrite Hstrtol, Hread. reflexivity.
    - unfold strtol10.
      change (skip_spaces ("+" +:+ chars (d :: ds) +:+ c_string rest))
        with (String "+" (chars (d :: ds) +:+ c_string rest)).
      cbv iota beta. rewrite Hread. reflexivity.
    - unfold strtol10.
      change (skip_spaces ("-" +:+ chars (d :: ds) +:+ c_string rest))
        with (String "-" (chars (d :: ds) +:+ c_string rest)).
      cbv iota beta. rewrite Hread. reflexivity. }
  rewrite Hparsed. reflexivity.
Qed.

(** White space, a plus sign, two digits and letters; and a numeral that
    is no [int]. *)
Lemma stoi_reads_a_numeral_witness :
  stoi " +12abc" = Return 12 ∧
  stoi "-2147483649" = Throw out_of_range.
Proof.
  split.
  - exact (stoi_reads_a_numeral " " "+" "abc" [1; 2] eq_refl
             (or_intror (or_introl eq_refl)) ltac:(discriminate)
             ltac:(repeat constructor; discriminate) eq_refl).
  - exact (stoi_reads_a_numeral "" "-" "" [2; 1; 4; 7; 4; 8; 3; 6; 4; 9] eq_refl
             (or_intror (or_intror eq_refl)) ltac:(discriminate)
             ltac:(repeat constructor; discriminate) eq_refl).
Defined.

End TextProperties.

(** ** The program *)

Section MainProperties.

Import Solver Text Pool Invariants Main.

(** *** Reading words *)

Lemma words_skip_spaces (s : string) : words (skip_spaces s) = words s.
Proof.
  induction s as [|c s IH]; [done|].
  simpl. destruct (isspace c) eqn:Hc; [exact IH|].
  simpl. now rewrite Hc.
Qed.

Lemma skip_spaces_head (s : string) :
  match skip_spaces s with
  | EmptyString => True
  | String c _ => isspace c = false
  end.
Proof.
  induction s as [|c s IH]; [done|].
  simpl. destruct (isspace c) eqn:Hc; [exact IH|exact Hc].
Qed.

Lemma read_word_words (s : string) :
  ∀ c, isspace c = false →
    words (String c s)
      = (read_word (String c s)).1 :: words (read_word (String c s)).2
    ∧ (read_word (String c s)).1 ≠ EmptyString.
Proof.
  induction s as [|c' s IH]; intros c Hc.
  - simpl. rewrite Hc. simpl. done.
  - change (read_word (String c (String c' s)))
      with (if isspace c then (EmptyString, String c (String c' s))
            else let '(word, rest') := read_word (String c' s) in
                 (String c word, rest')).
    change (words (String c (String c' s)))
      with (if isspace c then words (String c' s)
            else if isspace c' then String c EmptyString :: words (String c' s)
                 else match words (String c' s) with
                      | word :: more => String c word :: more
                      | [] => [String c EmptyString]
                      end).
    rewrite Hc.
    destruct (isspace c') eqn:Hc'.
    + simpl read_word. rewrite Hc'. simpl. done.
    + destruct (IH c' Hc') as [Hw _].
      rewrite Hw. destruct (read_word (String c' s)) as [word rest'].
      simpl. done.
Qed.

(** [std::cin >> str] stores the first word of the input and leaves what
    follows it; it fails exactly when the input has no word. *)
Lemma extract_words (cin : string) :
  match extract cin with
  | Some (word, rest) => words cin = word :: words rest
  | None => words cin = []
  end.
Proof.
  unfold extract. rewrite <- (words_skip_spaces cin).
  pose proof (skip_spaces_head cin) as Hhead.
  destruct (skip_spaces cin) as [|c s]; [done|].
  destruct (read_word_words s c Hhead) as [Hw Hne].
  destruct (read_word (String c s)) as [word rest]. simpl in *.
  now destruct word.
Qed.

(** *** Writing lines *)

Lemma lines_snoc (start : string) (vals : list JobResult) (v : JobResult) :
  start +:+ lines (vals ++ [v]) = ((start +:+ lines vals) +:+ v) +:+ endl.
Proof.
  unfold lines. rewrite foldr_app. simpl foldr.
  revert start. induction vals as [|x vals IH]; intros start.
  - simpl foldr. now rewrite !app_str_empty, <- !app_str_assoc.
  - simpl foldr.
    rewrite <- !(app_str_assoc start x), <- !(app_str_assoc (start +:+ x) endl).
    apply IH.
Qed.

(** *** What a step of the pool changes *)

Lemma step_effects e s s' :
  step e s = Some s' →
  match e with
  | call_set_job job a =>
      producer s = PIdle ∧ producer s' ≠ PIdle
      ∧ submitted s' = submitted s ++ [(job, a)] ∧ answers s' = answers s
      ∧ consumer s' = consumer s ∧ owner s' = owner s
      ∧ stop_flag s' = stop_flag s
  | producer_step _ =>
      producer s ≠ PIdle
      ∧ submitted s' = submitted s ∧ answers s' = answers s
      ∧ (consumer s = CIdle ↔ consumer s' = CIdle) ∧ owner s' = owner s
      ∧ stop_flag s' = stop_flag s
  | call_stop =>
      owner s = OIdle ∧ owner s' = OStopNotify ∧ stop_flag s' = true
      ∧ producer s' = producer s
      ∧ submitted s' = submitted s ∧ answers s' = answers s
      ∧ consumer s' = consumer s
  | call_destructor =>
      owner s = OIdle ∧ owner s' ≠ OIdle ∧ owner s' ≠ OStopNotify
      ∧ stop_flag s' = stop_flag s ∧ producer s' = producer s
      ∧ submitted s' = submitted s ∧ answers s' = answers s
      ∧ consumer s' = consumer s
  | owner_steps =>
      ((owner s = OStopNotify ∧ owner s' = OIdle)
       ∨ (owner s ≠ OIdle ∧ owner s ≠ OStopNotify
          ∧ owner s' ≠ OIdle ∧ owner s' ≠ OStopNotify))
      ∧ stop_flag s' = stop_flag s ∧ producer s' = producer s
      ∧ submitted s' = submitted s ∧ answers s' = answers s
      ∧ (consumer s = CIdle ↔ consumer s' = CIdle)
  | call_get_answer =>
      consumer s = CIdle ∧ consumer s' ≠ CIdle
      ∧ stop_flag s' = stop_flag s ∧ producer s' = producer s
      ∧ submitted s' = submitted s ∧ answers s' = answers s
      ∧ owner s' = owner s
  | consumer_step =>
      consumer s ≠ CIdle
      ∧ stop_flag s' = stop_flag s ∧ producer s' = producer s
      ∧ submitted s' = submitted s ∧ owner s' = owner s
      ∧ ((consumer s' ≠ CIdle ∧ answers s' = answers s)
         ∨ (consumer s' = CIdle
            ∧ ∃ r, answers s' = answers s ++ [r]
                ∧ (r = None → stop_flag s = true ∧ results s = []
                              ∧ consumer s = CCheck)))
  | worker_step _ | spurious_wakeup _ =>
      stop_flag s' = stop_flag s ∧ producer s' = producer s
      ∧ submitted s' = submitted s ∧ answers s' = answers s
      ∧ owner s' = owner s
      ∧ (consumer s = CIdle ↔ consumer s' = CIdle)
  end.
Proof.
  intros Hstep. step_cases Hstep; simpl.
  all: repeat match goal with
       | H : producer _ = _ |- _ => rewrite H in *
       | H : consumer _ = _ |- _ => rewrite H in *
       | H : owner _ = _ |- _ => rewrite H in *
       end; simpl.
  all: try solve [repeat split; congruence].
  all: try solve [repeat split; try congruence; right; repeat split; congruence].
  all: try solve [repeat split; try congruence;
                  destruct (consumer s); simpl; congruence].
  all: try solve [repeat split; try congruence; left; split; congruence].
  - repeat split; try congruence. right. split; [done|].
    exists None. split; [done|]. intros _.
    apply andb_true_iff in H0 as [? ?%bool_decide_eq_true]. done.
  - repeat split; try congruence. right. split; [done|].
    eexists. split; [done|]. discriminate.
  - repeat split; try congruence; try (left; done).
    all: destruct (consumer s); simpl; congruence.
Qed.

Lemma values_same (s s' : WorkerPool) :
  answers s' = answers s → values s' = values s.
Proof.
  unfold values. now intros ->.
Qed.

(** *** The invariant of main *)

Lemma main_invariant_step stdin start e P P' :
  main_invariant stdin start P → Program_step e P = Some P' →
  main_invariant stdin start P'.
Proof.
  intros [Hord Hsub Hfut Hcout Hmain Hpr] Hstep.
  destruct P as [s inp ci co mt pr].
  unfold main_coupling, printer_coupling, future_jobs, pending in *.
  simpl in Hord, Hsub, Hfut, Hcout, Hmain, Hpr.
  destruct e as [pick| |w|t]; simpl in Hstep.
  - (* the main thread *)
    unfold main_thread_step in Hstep. simpl in Hstep.
    destruct mt as [cnt| | | | | | |].
    + (* line 45 *)
      destruct Hmain as (Hp & Ho & Hstop & Hcnt & Hlen).
      rewrite bool_decide_true in Hstep by done.
      pose proof (extract_words ci) as Hwords.
      destruct (extract ci) as [[word rest]|].
      * destruct inp as [|x0 [|x1 [|x2 [|]]]]; try discriminate Hlen.
        destruct (bool_decide (S cnt = 3)) eqn:Hthird.
        -- apply bool_decide_eq_true in Hthird.
           assert (cnt = 2%nat) as -> by lia.
           simpl in Hstep.
           destruct (step _ s) as [s'|] eqn:Hs; [|discriminate].
           injection Hstep as <-.
           pose proof (step_effects _ _ _ Hs) as Heff. simpl in Heff.
           destruct Heff as (_ & Hp' & Hsub' & Hans' & Hc' & Ho' & Hstop').
           pose proof (order_invariant_step _ _ _ Hord Hs) as Hord'.
           simpl in Hfut. rewrite Hwords in Hfut. simpl in Hfut.
           assert (Hnth : triples (words stdin) !! length (submitted s)
                          = Some (x0, x1, word)).
           { rewrite <- (Nat.add_0_r (length (submitted s))), <- lookup_drop.
             exact (f_equal (λ l, l !! 0%nat) Hfut). }
           split; unfold main_coupling, printer_coupling, future_jobs, pending; simpl.
           ++ exact Hord'.
           ++ rewrite Hsub', length_app. simpl.
              rewrite Nat.add_1_r.
              rewrite (take_S_r (triples (words stdin)) _ _ Hnth), fmap_app,
                <- Hsub.
              reflexivity.
           ++ rewrite Hsub', length_app. simpl. rewrite Nat.add_1_r.
              rewrite (drop_S (triples (words stdin)) _ _ Hnth) in Hfut.
              now injection Hfut.
           ++ now rewrite (values_same _ _ Hans').
           ++ rewrite Ho', Hstop'. done.
           ++ destruct pr; rewrite ?Hc'; try done.
              destruct Hpr as (_ & Hcontra & _). congruence.
        -- apply bool_decide_eq_false in Hthird.
           injection Hstep as <-.
           split; unfold main_coupling, printer_coupling, future_jobs, pending; simpl; try done.
           ++ rewrite Hfut, Hwords.
              assert (Hc : (cnt = 0 ∨ cnt = 1)%nat) by lia.
              destruct Hc as [-> | ->]; reflexivity.
           ++ repeat split; try done; [lia|].
              now rewrite length_insert.
      * injection Hstep as <-.
        split; unfold main_coupling, printer_coupling, future_jobs, pending; simpl; try done.
        rewrite Hfut, Hwords, app_nil_r.
        destruct inp as [|x0 [|x1 [|x2 [|]]]]; try discriminate Hlen.
        assert (Hc : (cnt = 0 ∨ cnt = 1 ∨ cnt = 2)%nat) by lia.
        destruct Hc as [-> | [-> | ->]]; reflexivity.
    + (* inside set_job *)
      destruct (step _ s) as [s'|] eqn:Hs; [|discriminate].
      simpl in Hstep. injection Hstep as <-.
      pose proof (step_effects _ _ _ Hs) as Heff. simpl in Heff.
      destruct Heff as (_ & Hsub' & Hans' & Hc' & Ho' & Hstop').
      pose proof (order_invariant_step _ _ _ Hord Hs) as Hord'.
      destruct Hmain as (Hp & Ho & Hstop & Hlen).
      split; unfold main_coupling, printer_coupling, future_jobs, pending; simpl.
      * exact Hord'.
      * now rewrite Hsub'.
      * rewrite Hsub', Hfut. now destruct (producer s').
      * now rewrite (values_same _ _ Hans').
      * rewrite Ho', Hstop'.
        destruct (producer s') eqn:Hp'; repeat split; try done; lia.
      * destruct pr; rewrite ?Hstop', ?Hsub', ?(values_same _ _ Hans');
          intuition congruence.
    + (* line 54: stop is called *)
      destruct (step _ s) as [s'|] eqn:Hs; [|discriminate].
      simpl in Hstep. injection Hstep as <-.
      pose proof (step_effects _ _ _ Hs) as Heff. simpl in Heff.
      destruct Heff as (_ & Ho' & Hstop' & Hp' & Hsub' & Hans' & Hc').
      pose proof (order_invariant_step _ _ _ Hord Hs) as Hord'.
      destruct Hmain as (Hp & Ho & Hstop).
      split; unfold main_coupling, printer_coupling, future_jobs, pending; simpl.
      * exact Hord'.
      * now rewrite Hsub'.
      * now rewrite Hsub'.
      * now rewrite (values_same _ _ Hans').
      * rewrite Hp'. done.
      * destruct pr; rewrite ?Hc'; try done.
        destruct Hpr as (_ & Hcontra & _). congruence.
    + (* inside stop *)
      destruct (step _ s) as [s'|] eqn:Hs; [|discriminate].
      simpl in Hstep. injection Hstep as <-.
      pose proof (step_effects _ _ _ Hs) as Heff. simpl in Heff.
      destruct Heff as (Ho' & Hstop' & Hp' & Hsub' & Hans' & Hc').
      pose proof (order_invariant_step _ _ _ Hord Hs) as Hord'.
      destruct Hmain as (Hp & Ho & Hstop).
      split; unfold main_coupling, printer_coupling, future_jobs, pending; simpl.
      * exact Hord'.
      * now rewrite Hsub'.
      * now rewrite Hsub'.
      * now rewrite (values_same _ _ Hans').
      * rewrite Hp', Hstop'. intuition congruence.
      * destruct pr; rewrite ?Hstop', ?Hsub', ?(values_same _ _ Hans');
          intuition congruence.
    + (* join *)
      destruct pr; try discriminate. injection Hstep as <-.
      split; unfold main_coupling, printer_coupling, future_jobs, pending; simpl; done.
    + (* return *)
      destruct (step _ s) as [s'|] eqn:Hs; [|discriminate].
      simpl in Hstep. injection Hstep as <-.
      pose proof (step_effects _ _ _ Hs) as Heff. simpl in Heff.
      destruct Heff as (_ & Ho1 & Ho2 & Hstop' & Hp' & Hsub' & Hans' & Hc').
      pose proof (order_invariant_step _ _ _ Hord Hs) as Hord'.
      destruct Hmain as (Hp & Ho & Hstop).
      split; unfold main_coupling, printer_coupling, future_jobs, pending; simpl.
      * exact Hord'.
      * now rewrite Hsub'.
      * now rewrite Hsub'.
      * now rewrite (values_same _ _ Hans').
      * rewrite Hp', Hstop'. done.
      * destruct pr; rewrite ?Hc', ?Hstop', ?Hsub', ?(values_same _ _ Hans');
          intuition congruence.
    + (* the destructors *)
      destruct (step _ s) as [s'|] eqn:Hs; [|discriminate].
      simpl in Hstep. injection Hstep as <-.
      pose proof (step_effects _ _ _ Hs) as Heff. simpl in Heff.
      destruct Heff as (Ho' & Hstop' & Hp' & Hsub' & Hans' & Hc').
      pose proof (order_invariant_step _ _ _ Hord Hs) as Hord'.
      destruct Hmain as (Hp & Ho1 & Ho2 & Hstop).
      split; unfold main_coupling, printer_coupling, future_jobs, pending; simpl.
      * exact Hord'.
      * now rewrite Hsub'.
      * rewrite Hsub', Hfut. now destruct (owner s').
      * now rewrite (values_same _ _ Hans').
      * rewrite Hp', Hstop'.
        destruct (owner s') eqn:Ho''; intuition congruence.
      * destruct pr; rewrite ?Hstop', ?Hsub', ?(values_same _ _ Hans');
          intuition congruence.
    + discriminate.
  - (* the printer *)
    unfold printer_thread_step in Hstep. simpl in Hstep.
    destruct pr.
    + (* line 37: get_answer is called *)
      destruct (step _ s) as [s'|] eqn:Hs; [|discriminate].
      simpl in Hstep. injection Hstep as <-.
      pose proof (step_effects _ _ _ Hs) as Heff. simpl in Heff.
      destruct Heff as (_ & Hc' & Hstop' & Hp' & Hsub' & Hans' & Ho').
      pose proof (order_invariant_step _ _ _ Hord Hs) as Hord'.
      split; unfold main_coupling, printer_coupling, future_jobs, pending; simpl.
      * exact Hord'.
      * now rewrite Hsub'.
      * now rewrite Hsub'.
      * now rewrite (values_same _ _ Hans').
      * rewrite Hp', Ho', Hstop'. exact Hmain.
      * exact Hc'.
    + (* inside get_answer *)
      destruct (step _ s) as [s'|] eqn:Hs; [|discriminate].
      simpl in Hstep.
      pose proof (step_effects _ _ _ Hs) as Heff. simpl in Heff.
      destruct Heff as (_ & Hstop' & Hp' & Hsub' & Ho' & Hret).
      pose proof (order_invariant_step _ _ _ Hord Hs) as Hord'.
      destruct Hret as [(Hc' & Hans')|(Hc' & r & Hans' & Hnone)].
      * destruct (consumer s') eqn:Hcs'; try done.
        all: injection Hstep as <-.
        all: split; unfold main_coupling, printer_coupling, future_jobs, pending; simpl;
          [exact Hord'|now rewrite Hsub'|now rewrite Hsub'
          |now rewrite (values_same _ _ Hans')
          |rewrite Hp', Ho', Hstop'; exact Hmain|congruence].
      * rewrite Hc', Hans', last_snoc in Hstep.
        destruct r as [result|]; injection Hstep as <-.
        -- split; unfold main_coupling, printer_coupling, future_jobs, pending; simpl.
           ++ exact Hord'.
           ++ now rewrite Hsub'.
           ++ now rewrite Hsub'.
           ++ unfold values. rewrite Hans', values_snoc_Some.
              rewrite lines_snoc. now rewrite Hcout.
           ++ rewrite Hp', Ho', Hstop'. exact Hmain.
           ++ exact Hc'.
        -- destruct (Hnone eq_refl) as (Hstop & Hres & Hcheck).
           assert (Hp : producer s = PIdle).
           { rewrite Hstop in Hmain. destruct mt; intuition congruence. }
           pose proof (inv_futures s Hord) as Hfutures.
           unfold held, unpushed in Hfutures.
           rewrite Hcheck, Hres, Hp in Hfutures. simpl in Hfutures.
           apply (f_equal length) in Hfutures. rewrite length_seq in Hfutures.
           pose proof (inv_count s Hord) as Hcount.
           simpl in Hfutures.
           split; unfold main_coupling, printer_coupling, future_jobs, pending; simpl.
           ++ exact Hord'.
           ++ now rewrite Hsub'.
           ++ now rewrite Hsub'.
           ++ unfold values. rewrite Hans', values_snoc_None. exact Hcout.
           ++ rewrite Hp', Ho', Hstop'. exact Hmain.
           ++ split; [exact Hc'|]. split; [congruence|].
              unfold values in *. rewrite Hans', values_snoc_None, Hsub'. lia.
    + discriminate.
  - (* a worker *)
    unfold on_pool in Hstep. simpl in Hstep.
    destruct (step _ s) as [s'|] eqn:Hs; [|discriminate].
    simpl in Hstep. injection Hstep as <-.
    pose proof (step_effects _ _ _ Hs) as Heff. simpl in Heff.
    destruct Heff as (Hstop' & Hp' & Hsub' & Hans' & Ho' & Hc').
    pose proof (order_invariant_step _ _ _ Hord Hs) as Hord'.
    split; unfold main_coupling, printer_coupling, future_jobs, pending; simpl.
    + exact Hord'.
    + now rewrite Hsub'.
    + now rewrite Hsub'.
    + now rewrite (values_same _ _ Hans').
    + rewrite Hp', Ho', Hstop'. exact Hmain.
    + destruct pr; rewrite ?Hstop', ?Hsub', ?(values_same _ _ Hans');
        intuition congruence.
  - (* a spurious wakeup *)
    unfold on_pool in Hstep. simpl in Hstep.
    destruct (step _ s) as [s'|] eqn:Hs; [|discriminate].
    simpl in Hstep. injection Hstep as <-.
    pose proof (step_effects _ _ _ Hs) as Heff. simpl in Heff.
    destruct Heff as (Hstop' & Hp' & Hsub' & Hans' & Ho' & Hc').
    pose proof (order_invariant_step _ _ _ Hord Hs) as Hord'.
    split; unfold main_coupling, printer_coupling, future_jobs, pending; simpl.
    + exact Hord'.
    + now rewrite Hsub'.
    + now rewrite Hsub'.
    + now rewrite (values_same _ _ Hans').
    + rewrite Hp', Ho', Hstop'. exact Hmain.
    + destruct pr; rewrite ?Hstop', ?Hsub', ?(values_same _ _ Hans');
        intuition congruence.
Qed.

Lemma run_main_invariant stdin start schedule :
  ∀ P P', main_invariant stdin start P → run_main schedule P = Some P' →
    main_invariant stdin start P'.
Proof.
  induction schedule as [|e rest IH]; intros P P' Hinv Hrun; simpl in Hrun.
  - congruence.
  - destruct (Program_step e P) as [P1|] eqn:He; [|discriminate].
    eapply IH; [|exact Hrun]. eapply main_invariant_step; eauto.
Qed.

Lemma main_invariant_start (hardware_concurrency : nat) (stdin : string)
    (P0 : Program) :
  main_start hardware_concurrency stdin = Some P0 →
  cout P0 = banner (unsigned_sub (nthreads hardware_concurrency) 2)
  ∧ main_invariant stdin (cout P0) P0.
Proof.
  unfold main_start, announce. simpl. intros [= <-]. simpl.
  split; [unfold banner; now rewrite app_str_nil, !app_str_assoc|].
  split; simpl; try done.
  - apply order_invariant_new.
  - now rewrite app_str_empty.
  - unfold main_coupling. simpl. repeat split; lia.
Qed.

Lemma calculate_square_roots_returns (a : JobArgs) :
  ∃ v, apply calculate_square_roots a = Return v.
Proof.
  destruct a as [[a_str b_str] c_str].
  unfold apply, calculate_square_roots, try_catch, mbind, throws_bind, mret,
    throws_ret. simpl.
  destruct (stoi a_str) as [a|[]];
    [destruct (stoi b_str) as [b|[]]; [destruct (stoi c_str) as [c|[]]|..]|..];
    eauto.
Qed.

Lemma all_results (js : list JobArgs) :
  ∃ vals, Forall2 (λ a v, apply calculate_square_roots a = Return v) js vals.
Proof.
  induction js as [|a js (vals & IH)]; [exists []; constructor|].
  destruct (calculate_square_roots_returns a) as (v & Hv).
  exists (v :: vals). now constructor.
Qed.

(** *** What main prints *)

(** In every execution of [main], on every input and every host: the jobs
    submitted so far are the first groups of three words of the input, in
    input order, each with [calculate_square_roots]; the standard output
    is the line the pool's constructor prints, followed by the results of
    the first jobs, one per line, in input order, as many as [get_answer]
    has returned values; and once the printer thread has left its loop, the
    output holds the results of all the groups of three words of the input
    (one or two words left at the end are dropped). *)
Theorem main_prints_the_results
    (hardware_concurrency : nat) (stdin : string)
    (schedule : list main_event) (P0 P : Program) :
  main_start hardware_concurrency stdin = Some P0 →
  run_main schedule P0 = Some P →
  ∃ vals,
    Forall2 (λ a v, apply calculate_square_roots a = Return v)
      (triples (words stdin)) vals ∧
    submitted (worker_pool P) =
      (λ a, (calculate_square_roots, a))
        <$> take (length (submitted (worker_pool P))) (triples (words stdin)) ∧
    cout P = banner (unsigned_sub (nthreads hardware_concurrency) 2)
               +:+ lines (take (length (values (worker_pool P))) vals) ∧
    (printer P = PrExited →
     cout P = banner (unsigned_sub (nthreads hardware_concurrency) 2)
                +:+ lines vals).
Proof.
  intros Hstart Hrun.
  destruct (main_invariant_start _ _ _ Hstart) as [Hbanner Hinv0].
  pose proof (run_main_invariant _ _ _ _ _ Hinv0 Hrun) as Hinv.
  destruct Hinv as [Hord Hsub Hfut Hcout Hmain Hpr].
  destruct (all_results (triples (words stdin))) as (vals & Hvals).
  exists vals. split; [exact Hvals|]. split; [exact Hsub|].
  set (s := worker_pool P) in *.
  set (G := triples (words stdin)) in *.
  pose proof (Forall2_length _ _ _ Hvals) as Hlen.
  assert (Hsublen : length (submitted s) ≤ length G).
  { rewrite Hsub at 1. rewrite length_fmap, length_take. lia. }
  pose proof (inv_count s Hord) as Hcount.
  assert (Hvalues : values s = take (length (values s)) vals).
  { apply list_eq. intros i.
    destruct (values s !! i) as [v|] eqn:Hv.
    - pose proof (lookup_lt_Some _ _ _ Hv) as Hi.
      rewrite lookup_take_lt by done.
      destruct (inv_values s Hord i v Hv) as (job & a & Hjob & Happ).
      rewrite Hsub, list_lookup_fmap in Hjob.
      apply fmap_Some in Hjob as (a' & Ha' & [= -> ->]).
      apply lookup_take_Some in Ha' as [Ha' _].
      destruct (Forall2_lookup_l _ _ _ _ _ Hvals Ha') as (v' & Hv' & Happ').
      rewrite Hv'. congruence.
    - apply lookup_ge_None in Hv. symmetry. apply lookup_ge_None.
      rewrite length_take. lia. }
  split.
  - rewrite Hcout, Hbanner. now rewrite Hvalues at 1.
  - intros Hexit. unfold printer_coupling in Hpr. rewrite Hexit in Hpr.
    destruct Hpr as (_ & Hstop & Hall). fold s in Hstop, Hall.
    assert (Hnone : future_jobs P = []).
    { unfold main_coupling in Hmain. fold s in Hmain. unfold future_jobs.
      destruct (main_thread P); try done; intuition congruence. }
    rewrite Hnone in Hfut. fold s G in Hfut.
    apply (f_equal length) in Hfut. rewrite length_drop in Hfut.
    simpl in Hfut.
    rewrite Hcout, Hbanner, Hvalues. f_equal. f_equal.
    apply take_ge. lia.
Qed.

Lemma is_some_default {A : Type} (o : option A) (d : A) :
  bool_decide (is_Some o) = true → o = Some (default d o).
Proof.
  intros [x ->]%bool_decide_eq_true. reflexivity.
Qed.

(** One equation on a host of three hardware threads, the whole program
    from the first word read to the destruction of the pool. *)
Lemma main_prints_the_results_witness :
  ∃ P0 P,
    main_start 3 ("1 -3 2" +:+ endl) = Some P0 ∧
    run_main one_equation_schedule P0 = Some P ∧
    main_thread P = MExited ∧ printer P = PrExited ∧
    cout P = banner 1 +:+ lines ["(1 -3 2) => (1 2) Xmin=1.5"].
Proof.
  eexists. eexists.
  split; [reflexivity|].
  split.
  { match goal with
    | |- run_main _ ?P0 = _ => apply (is_some_default _ P0)
    end.
    vm_compute; reflexivity. }
  split; [vm_compute; reflexivity|].
  split; [vm_compute; reflexivity|].
  match goal with
  | |- cout ?P = _ =>
      destruct (main_prints_the_results 3 ("1 -3 2" +:+ endl)
                  one_equation_schedule _ P eq_refl)
        as (vals & Hvals & _ & _ & Hout)
  end.
  - apply is_some_default. vm_compute; reflexivity.
  - rewrite (Hout ltac:(vm_compute; reflexivity)).
    apply Forall2_cons_inv_l in Hvals as (v & vals' & Hv & Hnil & ->).
    apply Forall2_nil_inv_l in Hnil as ->.
    vm_compute in Hv. injection Hv as <-. reflexivity.
Defined.

(** *** Reading a word *)

Lemma read_word_word (w rest : string) :
  is_word w = true →
  match rest with
  | EmptyString => True
  | String c _ => isspace c = true
  end →
  read_word (w +:+ rest) = (w, rest).
Proof.
  intros Hw Hrest. induction w as [|c w IH]; [done|].
  rewrite app_str_cons.
  change (read_word (String c (w +:+ rest)))
    with (if isspace c then (EmptyString, String c (w +:+ rest))
          else let '(word, rest') := read_word (w +:+ rest) in
               (String c word, rest')).
  destruct w as [|c' w'].
  - simpl in Hw. apply negb_true_iff in Hw. rewrite Hw, app_str_nil.
    destruct rest as [|cs rest']; [done|].
    simpl. now rewrite Hrest.
  - change (is_word (String c (String c' w')))
      with (negb (isspace c) && is_word (String c' w')) in Hw.
    apply andb_true_iff in Hw as [Hc%negb_true_iff Hw].
    now rewrite Hc, (IH Hw).
Qed.

(** [std::cin >> str] on white space, a word and what follows it, which
    is nothing or begins with white space: the white space is skipped, the
    word is stored whole, and what follows it is left in the stream; these
    are the first word of the text and the words of the rest.  On white
    space alone the extraction fails. *)
Theorem extract_reads_the_next_word (lead w rest : string) :
  all_spaces lead = true →
  is_word w = true →
  match rest with
  | EmptyString => True
  | String c _ => isspace c = true
  end →
  extract (lead +:+ w +:+ rest) = Some (w, rest) ∧
  words (lead +:+ w +:+ rest) = w :: words rest ∧
  extract lead = None ∧ words lead = [].
Proof.
  intros Hlead Hw Hrest.
  assert (Hextract : extract (lead +:+ w +:+ rest) = Some (w, rest)).
  { unfold extract. rewrite (skip_all_spaces _ _ Hlead).
    destruct w as [|c w']; [done|].
    assert (Hc : isspace c = false).
    { destruct w'; simpl in Hw.
      - now apply negb_true_iff.
      - apply andb_true_iff in Hw as [Hc _]. now apply negb_true_iff. }
    rewrite app_str_cons.
    change (skip_spaces (String c (w' +:+ rest)))
      with (if isspace c then skip_spaces (w' +:+ rest)
            else String c (w' +:+ rest)).
    rewrite Hc, <- app_str_cons, (read_word_word _ _ Hw Hrest). reflexivity. }
  assert (Hnone : extract lead = None).
  { unfold extract.
    rewrite <- (app_str_empty lead), (skip_all_spaces _ _ Hlead). reflexivity. }
  split; [exact Hextract|].
  pose proof (extract_words (lead +:+ w +:+ rest)) as Hwords.
  rewrite Hextract in Hwords.
  pose proof (extract_words lead) as Hwords'.
  rewrite Hnone in Hwords'. auto.
Qed.

Lemma extract_reads_the_next_word_witness :
  extract ("  12 -3" +:+ endl) = Some ("12", " -3" +:+ endl) ∧
  words ("  12 -3" +:+ endl) = "12" :: words (" -3" +:+ endl) ∧
  extract "  " = None ∧ words "  " = [].
Proof.
  exact (extract_reads_the_next_word "  " "12" (" -3" +:+ endl)
           eq_refl eq_refl eq_refl).
Defined.

End MainProperties.
